(** * Attribution store of the Particular Audience JavaScript SDK

    A shallow embedding of the attribution ledger of [pa-sdk.js]
    (class [ParticularAudience]): the in-memory cache
    [this.attributionData], the durable copy kept in [localStorage] or in
    cookies, the three store operations [_storeAttributionData],
    [_getAttributionDataFor] / [_getAttributionData] and
    [_cleanupExpiredAttributionData], the merge of a record into an event
    ([_mergeAttributionData], [_enrichProductData]) and the public entry
    points that drive them ([trackClick], [trackAddToCart],
    [trackPurchase]).

    Around the ledger: the events that carry no attribution
    ([trackViewProduct], [trackSearch], [trackSlotImpression]) and
    [trackCheckout]; the flush of the event queue ([_flushEvents],
    [_sendEvents]) up to the requests it makes; the automatic tracking
    ([_detectProductId], [_detectAndTrackProductView],
    [_trackRecommendationImpressions], [_extractTrackingData]); and
    [_getCookie] on the string [document.cookie].

    JavaScript values are embedded as the inductive type [value]; plain
    objects are ordered property lists.  The SDK instance with the page's
    storage is a record [World]; every method is a function in the monad
    [M] of a state that survives exceptions.

    What the model leaves to the platform:
    - numbers are integers, and how a string reads as a number is a
      parameter of the host;
    - one call sees one instant of the clock;
    - a stored string is known by what [JSON.parse] makes of it ([text]);
    - the cookie jar of the ledger is a map from names to values with
      their expiry, not the string [document.cookie]: a value is kept up
      to its first semicolon, a cookie the browser refuses (over its size
      limit) is a fault of the host, and two names are two cookies (a
      customer id or a product reference with [=] or a semicolon in it,
      which could make one name read as another, is not followed);
    - a value prints, in a template literal or a comparison, unless it
      is an object with a property [toString] of its own, which in data
      is no function: there the code throws a TypeError.  The model
      throws with it where a value is first met: at the key templates of
      [_storeAttributionData], at the comparison of [adSetId.length] in
      [trackClick], and at the comparison of a stored [expiresAt].  The
      key templates of [_getAttributionDataFor] and of
      [_cleanupExpiredAttributionData] are modelled for the identifiers
      that print, and print every other as [to_string] has it;
    - the timer that flushes the event queue, the network and
      [console.log] are absent: a request is known by the path and the
      body handed to [_apiCall];
    - of the page, the detection of a product sees what its queries
      return ([Page]). *)

From Stdlib Require Import ZArith String List Bool Lia Ascii.
From stdpp Require Import gmap strings list fin_maps pretty.

#[local] Set Warnings "-register-all,-clear-no-such-hyp".
#[local] Open Scope Z_scope.
#[local] Open Scope string_scope.

(** ** JavaScript values *)

Module JS.

(** Numbers are the integers: every number the attribution code computes
    with is a millisecond timestamp or a length. *)
Inductive value : Type :=
| VUndefined
| VNull
| VBool (b : bool)
| VNum (n : Z)
| VStr (s : string)
| VObj (props : list (string * value))
| VArr (items : list value).

(** A plain object: its own enumerable properties, in insertion order. *)
Abbreviation obj := (list (string * value)).

(** [o.k]: the value of property [k], [undefined] when [o] has none. *)
Fixpoint obj_get (o : obj) (k : string) : value :=
  match o with
  | [] => VUndefined
  | (k', v) :: rest => if String.eqb k' k then v else obj_get rest k
  end.

(** [k in o] *)
Fixpoint obj_has (o : obj) (k : string) : bool :=
  match o with
  | [] => false
  | (k', _) :: rest => if String.eqb k' k then true else obj_has rest k
  end.

(** [o[k] = v]: an existing property keeps its place, a new one goes last. *)
Fixpoint obj_set (o : obj) (k : string) (v : value) : obj :=
  match o with
  | [] => [(k, v)]
  | (k', v') :: rest =>
      if String.eqb k' k then (k, v) :: rest else (k', v') :: obj_set rest k v
  end.

(** [{...o, k1: v1, ..., kn: vn}] *)
Definition spread (o : obj) (props : obj) : obj :=
  fold_left (fun acc kv => obj_set acc (fst kv) (snd kv)) props o.

(** ToBoolean *)
Definition truthy (v : value) : bool :=
  match v with
  | VUndefined | VNull => false
  | VBool b => b
  | VNum n => negb (Z.eqb n 0)
  | VStr s => negb (String.eqb s "")
  | VObj _ | VArr _ => true
  end.

(** [a || b] *)
Definition js_or (a b : value) : value := if truthy a then a else b.

(** ToString, as a template literal applies it.  Objects are plain data
    objects and print as [[object Object]]; an array joins its elements
    with commas, [null] and [undefined] elements printing as nothing. *)
Fixpoint to_string (v : value) : string :=
  match v with
  | VUndefined => "undefined"
  | VNull => "null"
  | VBool true => "true"
  | VBool false => "false"
  | VNum n => pretty n
  | VStr s => s
  | VObj _ => "[object Object]"
  | VArr items =>
      (fix join (l : list value) : string :=
         match l with
         | [] => ""
         | [x] => match x with VUndefined | VNull => "" | _ => to_string x end
         | x :: rest =>
             (match x with VUndefined | VNull => "" | _ => to_string x end)
               +:+ "," +:+ join rest
         end) items
  end.

(** Whether ToPrimitive finds a primitive for [v], as a template literal
    and a comparison ask for one; where it finds none they throw a
    TypeError.  The values here are data and none is a function: an
    object with a property [toString] of its own has no [toString] to
    call, and [Object.prototype.valueOf] hands back the object.  An array
    asks its elements, [null] and [undefined] apart. *)
Fixpoint printable (v : value) : bool :=
  match v with
  | VObj props => negb (obj_has props "toString")
  | VArr items =>
      (fix all (l : list value) : bool :=
         match l with
         | [] => true
         | x :: rest =>
             (match x with VUndefined | VNull => true | _ => printable x end)
               && all rest
         end) items
  | _ => true
  end.

(** ToNumber; [None] is NaN.  How a string reads as a number is the
    engine's business and is taken from the host ([str_num]). *)
Definition to_number (str_num : string -> option Z) (v : value) : option Z :=
  match v with
  | VUndefined => None
  | VNull => Some 0
  | VBool b => Some (if b then 1 else 0)
  | VNum n => Some n
  | VStr s => str_num s
  | VObj _ | VArr _ => str_num (to_string v)
  end.

(** [v > n] for a number [n]: false whenever [v] converts to NaN. *)
Definition js_gt (str_num : string -> option Z) (v : value) (n : Z) : bool :=
  match to_number str_num v with
  | Some m => Z.ltb n m
  | None => false
  end.

(** [v.length] for a [v] that is neither [null] nor [undefined]. *)
Definition js_length (v : value) : value :=
  match v with
  | VStr s => VNum (Z.of_nat (String.length s))
  | VArr items => VNum (Z.of_nat (List.length items))
  | VObj o => obj_get o "length"
  | _ => VUndefined
  end.

(** A string in which the character [c] does not occur. *)
Fixpoint without (c : ascii) (s : string) : bool :=
  match s with
  | EmptyString => true
  | String a rest => negb (Ascii.eqb a c) && without c rest
  end.

(** Whether the JSON text of [v] has no semicolon: JSON writes none and
    escapes none, so that a semicolon of the text is one of a key or of a
    string. *)
Fixpoint semicolon_free (v : value) : bool :=
  match v with
  | VStr s => without ";" s
  | VObj props =>
      (fix all (ps : list (string * value)) : bool :=
         match ps with
         | [] => true
         | (k, x) :: rest => without ";" k && semicolon_free x && all rest
         end) props
  | VArr items =>
      (fix all (l : list value) : bool :=
         match l with
         | [] => true
         | x :: rest => semicolon_free x && all rest
         end) items
  | _ => true
  end.

(** Text held by a storage backend, by what [JSON.parse] makes of it. *)
Inductive text : Type :=
| TEmpty                (* the empty string *)
| TGarbage              (* a non-empty string that is not JSON *)
| TJson (v : value).    (* the JSON text of [v] *)

(** What [JSON.stringify] keeps of a value: properties whose value is
    [undefined] are dropped, [undefined] array elements become [null]. *)
Fixpoint json_value (v : value) : value :=
  match v with
  | VObj props =>
      VObj ((fix go (ps : list (string * value)) : list (string * value) :=
               match ps with
               | [] => []
               | (k, x) :: rest =>
                   match x with
                   | VUndefined => go rest
                   | _ => (k, json_value x) :: go rest
                   end
               end) props)
  | VArr items =>
      VArr ((fix go (l : list value) : list value :=
               match l with
               | [] => []
               | x :: rest =>
                   match x with
                   | VUndefined => VNull :: go rest
                   | _ => json_value x :: go rest
                   end
               end) items)
  | _ => v
  end.

Definition JSON_stringify (o : obj) : text := TJson (json_value (VObj o)).

End JS.
Import JS.

(** ** The SDK instance and its host *)

(** Exceptions the modelled code can meet. *)
Inductive exn : Type :=
| Error (message : string)   (* [new Error(message)] *)
| TypeError                  (* a property read on [null] or [undefined] *)
| SyntaxError                (* [JSON.parse] on text that is not JSON *)
| DOMException.              (* the storage backend refusing an access *)

(** The error [trackAddToCart] raises when it has no click to attribute. *)
Definition MissingAttributionError : exn :=
  Error "Add to Cart requires clickId. Generate a Click event first.".

(** Every use of the cache and of the durable backend, most recent first. *)
Inductive access : Type :=
| MapHas (key : string)
| MapGet (key : string)
| MapSet (key : string)
| MapDelete (key : string)
| StorageGet (key : string)
| StorageSet (key : string)
| StorageRemove (key : string).

(** The mutable state an SDK instance works on: its own fields
    ([this.session.customerId], the [Map] [this.attributionData], which
    only ever receives record objects whose [expiresAt] has been computed
    or compared, and [this.pendingEvents]), the
    page's [localStorage] and cookie jar (a cookie is its value and the
    instant it expires), and what was written with [console.error].  The
    [trace] is no field of the program: it logs every access to the cache
    and to the durable backend, most recent first, so that a statement can
    say which keys a call consulted. *)
Record World : Type := mkWorld {
  customerId : value;
  attributionData : gmap string obj;
  localStorage : gmap string text;
  cookie : gmap string (text * Z);
  pendingEvents : list (string * obj);
  console_error : list string;
  trace : list access
}.

(** [this.config], as far as the attribution code reads it, the defaults
    of the constructor filled in (['pa_'], ['cookie'], thirty days). *)
Record Config : Type := mkConfig {
  cookiePrefix : string;
  storageType : string;
  attributionWindow : Z
}.

(** How the durable backend behaves: it works, it refuses the write of a
    record ([localStorage.setItem] throws over quota; the browser drops,
    without a word, a cookie over its size limit), or it refuses every
    access. *)
Inductive fault : Type := Healthy | QuotaExceeded | Unavailable.

(** What the page gives one call: the clock (every [Date.now()] of the
    call, and the same instant as [new Date().toISOString()]),
    [window.location.href],
    [document.referrer], the id [_generateId] draws, whether
    [localStorage] exists, the state of the backend, and the engine's
    reading of strings as numbers. *)
Record Host : Type := mkHost {
  Date_now : Z;
  Date_toISOString : string;
  location_href : string;
  document_referrer : string;
  generated_id : string;
  localStorage_defined : bool;
  storage_fault : fault;
  string_to_number : string -> option Z
}.

(** ** Methods as state transformers *)

Inductive result (A : Type) : Type :=
| Ok (a : A)
| Throw (e : exn).
Arguments Ok {A} a.
Arguments Throw {A} e.

(** A method runs on a world and leaves a world, also when it throws. *)
Definition M (A : Type) : Type := World -> result A * World.

Definition ret {A : Type} (a : A) : M A := fun w => (Ok a, w).

Definition bind {A B : Type} (m : M A) (f : A -> M B) : M B :=
  fun w =>
    match m w with
    | (Ok a, w') => f a w'
    | (Throw e, w') => (Throw e, w')
    end.

Definition throw {A : Type} (e : exn) : M A := fun w => (Throw e, w).

(** [try { m } catch (e) { handler e }] *)
Definition try_catch {A : Type} (m : M A) (handler : exn -> M A) : M A :=
  fun w =>
    match m w with
    | (Ok a, w') => (Ok a, w')
    | (Throw e, w') => handler e w'
    end.

Definition gets {A : Type} (f : World -> A) : M A := fun w => (Ok (f w), w).

Definition modify (f : World -> World) : M unit := fun w => (Ok tt, f w).

Notation "x <- m1 ;; m2" := (bind m1 (fun x => m2))
  (at level 100, m1 at next level, right associativity).
Notation "m1 ;; m2" := (bind m1 (fun _ => m2))
  (at level 100, right associativity).

(** [l.forEach(f)] *)
Fixpoint forEach {A : Type} (l : list A) (f : A -> M unit) : M unit :=
  match l with
  | [] => ret tt
  | x :: rest => f x ;; forEach rest f
  end.

(** *** World updates *)

Definition touch (a : access) (w : World) : World :=
  mkWorld (customerId w) (attributionData w) (localStorage w) (cookie w)
          (pendingEvents w) (console_error w) (a :: trace w).

Definition with_attributionData (m : gmap string obj) (w : World) : World :=
  mkWorld (customerId w) m (localStorage w) (cookie w)
          (pendingEvents w) (console_error w) (trace w).

Definition with_localStorage (m : gmap string text) (w : World) : World :=
  mkWorld (customerId w) (attributionData w) m (cookie w)
          (pendingEvents w) (console_error w) (trace w).

Definition with_cookie (m : gmap string (text * Z)) (w : World) : World :=
  mkWorld (customerId w) (attributionData w) (localStorage w) m
          (pendingEvents w) (console_error w) (trace w).

Definition with_pendingEvents (l : list (string * obj)) (w : World) : World :=
  mkWorld (customerId w) (attributionData w) (localStorage w) (cookie w)
          l (console_error w) (trace w).

Definition with_console_error (l : list string) (w : World) : World :=
  mkWorld (customerId w) (attributionData w) (localStorage w) (cookie w)
          (pendingEvents w) l (trace w).

(** *** The cache [this.attributionData] *)

(** [if (this.attributionData.has(k)) { data = this.attributionData.get(k) }] *)
Definition Map_lookup (k : string) : M (option obj) :=
  fun w =>
    match attributionData w !! k with
    | Some data => (Ok (Some data), touch (MapGet k) (touch (MapHas k) w))
    | None => (Ok None, touch (MapHas k) w)
    end.

Definition Map_set (k : string) (data : obj) : M unit :=
  modify (fun w => touch (MapSet k)
                     (with_attributionData (<[k := data]> (attributionData w)) w)).

Definition Map_delete (k : string) : M unit :=
  modify (fun w => touch (MapDelete k)
                     (with_attributionData (delete k (attributionData w)) w)).

(** *** Property reads *)

(** [v.k] for a [v] that is neither [null] nor [undefined]. *)
Definition member (v : value) (k : string) : value :=
  match v with
  | VObj o => obj_get o k
  | VStr _ | VArr _ => if String.eqb k "length" then js_length v else VUndefined
  | _ => VUndefined
  end.

(** [v.k], a TypeError on [null] and [undefined]. *)
Definition prop (v : value) (k : string) : M value :=
  match v with
  | VUndefined | VNull => throw TypeError
  | _ => ret (member v k)
  end.

(** [JSON.parse] *)
Definition JSON_parse (t : text) : M value :=
  match t with
  | TJson v => ret v
  | TEmpty | TGarbage => throw SyntaxError
  end.

(** [if (storedData)] for a string or [null]. *)
Definition text_truthy (t : option text) : bool :=
  match t with
  | None | Some TEmpty => false
  | Some _ => true
  end.

(** [new Date(ms).toUTCString()], by the instant the string denotes: the
    string has no milliseconds. *)
Definition toUTCString (ms : Z) : Z := 1000 * (ms / 1000).

(** ['Thu, 01 Jan 1970 00:00:00 UTC'] *)
Definition epoch : Z := 0.

(** ** The SDK's methods *)

Section SDK.

Context (cfg : Config) (h : Host).

(** [this.config.storageType === 'localStorage' && typeof localStorage !== 'undefined'] *)
Definition use_localStorage : bool :=
  String.eqb (storageType cfg) "localStorage" && localStorage_defined h.

(** *** The durable backends *)

Definition localStorage_getItem (k : string) : M (option text) :=
  fun w =>
    match storage_fault h with
    | Unavailable => (Throw DOMException, w)
    | _ => (Ok (localStorage w !! k), touch (StorageGet k) w)
    end.

Definition localStorage_setItem (k : string) (t : text) : M unit :=
  fun w =>
    match storage_fault h with
    | Healthy =>
        (Ok tt, touch (StorageSet k)
                  (with_localStorage (<[k := t]> (localStorage w)) w))
    | _ => (Throw DOMException, w)
    end.

Definition localStorage_removeItem (k : string) : M unit :=
  fun w =>
    match storage_fault h with
    | Unavailable => (Throw DOMException, w)
    | _ =>
        (Ok tt, touch (StorageRemove k)
                  (with_localStorage (delete k (localStorage w)) w))
    end.

(** What [document.cookie] shows under [name]: a cookie is gone once its
    expiry has come. *)
Definition cookie_read (jar : gmap string (text * Z)) (name : string)
  : option text :=
  match jar !! name with
  | Some (v, expires) => if Z.ltb (Date_now h) expires then Some v else None
  | None => None
  end.

(** What the browser keeps of the value in
    [`${name}=${value}; expires=${expires}; ...`]: the value ends at its
    first semicolon, and a JSON text cut short there, inside a string, is
    no JSON. *)
Definition cookie_value (v : text) : text :=
  match v with
  | TJson x => if semicolon_free x then v else TGarbage
  | _ => v
  end.

(** The assignments that leave no cookie under [name]: the browser drops
    the cookie, or [name] itself ends at a semicolon. *)
Definition cookie_dropped (name : string) : bool :=
  match storage_fault h with
  | QuotaExceeded => true
  | _ => negb (without ";" name)
  end.

(** [document.cookie = `${name}=${value}; expires=${expires}; ...`]: an
    expiry that has come removes the cookie.  The empty value, which
    removes a cookie, is taken under every name that holds one. *)
Definition cookie_write (jar : gmap string (text * Z)) (name : string)
    (v : text) (expires : Z) : gmap string (text * Z) :=
  match v with
  | TEmpty =>
      if Z.leb expires (Date_now h) then delete name jar
      else <[name := (TEmpty, expires)]> jar
  | _ =>
      if cookie_dropped name then jar
      else if Z.leb expires (Date_now h) then delete name jar
      else <[name := (cookie_value v, expires)]> jar
  end.

Definition _getCookie (name : string) : M (option text) :=
  fun w =>
    match storage_fault h with
    | Unavailable => (Throw DOMException, w)
    | _ => (Ok (cookie_read (cookie w) name), touch (StorageGet name) w)
    end.

Definition _setCookie (name : string) (v : text) (expires : Z) : M unit :=
  fun w =>
    match storage_fault h with
    | Unavailable => (Throw DOMException, w)
    | _ =>
        (Ok tt, touch (StorageSet name)
                  (with_cookie (cookie_write (cookie w) name v expires) w))
    end.

(** *** Utilities *)

(** [_error]: [console.error('[PA SDK]', message, ...)] *)
Definition _error (message : string) : M unit :=
  modify (fun w => with_console_error (message :: console_error w) w).

(** [_log] writes to [console.log] when logging is enabled; that output
    is not part of the state. *)
Definition _log (message : string) : M unit := ret tt.

(** [_cleanObject]: drop [undefined] and [null], clean nested objects and
    drop those left empty; arrays are kept as they are. *)
Fixpoint clean_value (v : value) : value :=
  match v with
  | VObj props =>
      VObj ((fix go (ps : list (string * value)) : list (string * value) :=
               match ps with
               | [] => []
               | (key, x) :: rest =>
                   match x with
                   | VUndefined | VNull => go rest
                   | VObj _ =>
                       match clean_value x with
                       | VObj [] => go rest
                       | cleanedNested => (key, cleanedNested) :: go rest
                       end
                   | _ => (key, x) :: go rest
                   end
               end) props)
  | _ => v
  end.

Definition _cleanObject (o : obj) : obj :=
  match clean_value (VObj o) with
  | VObj cleaned => cleaned
  | _ => []
  end.

(** [_queueEvent]: the cleaned event joins [this.pendingEvents] and is
    returned.  The timer that later flushes the queue is asynchronous and
    outside this model. *)
Definition _queueEvent (eventType : string) (eventData : obj) : M obj :=
  let cleanedEvent := _cleanObject eventData in
  modify (fun w => with_pendingEvents
                     (pendingEvents w ++ [(eventType, cleanedEvent)])%list w) ;;
  ret cleanedEvent.

(** *** Keys *)

Definition typeSuffix (isSponsored : bool) : string :=
  if isSponsored then "s" else "o".

(** [`${productRefId}_${typeSuffix}`] *)
Definition mapKey (productRefId : value) (isSponsored : bool) : string :=
  to_string productRefId +:+ "_" +:+ typeSuffix isSponsored.

(** [`${cookiePrefix}attribution_${customerId}_${productRefId}_${typeSuffix}`] *)
Definition storageKey (customer : value) (productRefId : value)
    (isSponsored : bool) : string :=
  cookiePrefix cfg +:+ "attribution_" +:+ to_string customer +:+ "_"
    +:+ to_string productRefId +:+ "_" +:+ typeSuffix isSponsored.

(** [data.expiresAt > Date.now()] throws for an [expiresAt] that does
    not print. *)
Definition expiry_compares (data : obj) : bool :=
  printable (obj_get data "expiresAt").

(** [data.expiresAt > Date.now()], where it compares. *)
Definition is_live (data : obj) : bool :=
  expiry_compares data
  && js_gt (string_to_number h) (obj_get data "expiresAt") (Date_now h).

(** *** [_cleanupExpiredAttributionData(productRefId, isSponsored = null)] *)
Definition _cleanupExpiredAttributionData (productRefId : value)
    (isSponsored : value) : M unit :=
  customer <- gets customerId ;;
  if negb (truthy customer) then ret tt
  else
    let isSponsored :=
      match isSponsored with VUndefined => VNull | v => v end in
    let types :=
      match isSponsored with
      | VNull => [VBool true; VBool false]
      | v => [v]
      end in
    forEach types (fun type =>
      let suffix := truthy type in
      Map_delete (mapKey productRefId suffix) ;;
      try_catch
        (if use_localStorage
         then localStorage_removeItem (storageKey customer productRefId suffix)
         else _setCookie (storageKey customer productRefId suffix) TEmpty epoch)
        (fun error => _error "Failed to cleanup expired attribution data:")).

(** *** [_storeAttributionData(productRefId, clickData)] *)
Definition attribution_record (clickData : obj) : obj :=
  [ ("clickId", obj_get clickData "clickId");
    ("eventTime", obj_get clickData "eventTime");
    ("currentUrl", obj_get clickData "currentUrl");
    ("referralUrl", obj_get clickData "referralUrl");
    ("actionType", obj_get clickData "actionType");
    ("contextType", obj_get clickData "contextType");
    ("redirectUrl", obj_get clickData "redirectUrl");
    ("clickPosition", obj_get clickData "clickPosition");
    ("slot", obj_get clickData "slot");
    ("widgetId", obj_get clickData "widgetId");
    ("routeId", obj_get clickData "routeId");
    ("recommenderId", obj_get clickData "recommenderId");
    ("campaignId", obj_get clickData "campaignId");
    ("tacticId", obj_get clickData "tacticId");
    ("tacticLabel", obj_get clickData "tacticLabel");
    ("bannerId", obj_get clickData "bannerId");
    ("placementId", obj_get clickData "placementId");
    ("retailBoostCollectionCampaignId",
       obj_get clickData "retailBoostCollectionCampaignId");
    ("adSetId", obj_get clickData "adSetId");
    ("adSetVersion", obj_get clickData "adSetVersion");
    ("costPerClick", obj_get clickData "costPerClick");
    ("costPerAction", obj_get clickData "costPerAction");
    ("costPerMille", obj_get clickData "costPerMille");
    ("timeStamp", obj_get clickData "timeStamp");
    ("hmacSalt", obj_get clickData "hmacSalt");
    ("hmac", obj_get clickData "hmac");
    ("supplierId", obj_get clickData "supplierId");
    ("isSponsored", obj_get clickData "isSponsored");
    ("storedAt", VNum (Date_now h));
    ("expiresAt", VNum (Date_now h + attributionWindow cfg)) ].

(** The key templates print the customer id and the product reference;
    they stand before the [try]. *)
Definition keys_print (customer productRefId : value) : bool :=
  printable customer && printable productRefId.

Definition _storeAttributionData (productRefId : value) (clickData : obj)
  : M unit :=
  customer <- gets customerId ;;
  if negb (truthy customer) || negb (truthy productRefId) then ret tt
  else if negb (keys_print customer productRefId) then throw TypeError
  else
    let suffix := truthy (obj_get clickData "isSponsored") in
    let attributionData := attribution_record clickData in
    try_catch
      (Map_set (mapKey productRefId suffix) attributionData ;;
       (if use_localStorage
        then localStorage_setItem (storageKey customer productRefId suffix)
               (JSON_stringify attributionData)
        else
          let expires :=
            toUTCString (Date_now h + attributionWindow cfg) in
          _setCookie (storageKey customer productRefId suffix)
            (JSON_stringify attributionData) expires) ;;
       _log "Attribution data stored for product:")
      (fun error => _error "Failed to store attribution data:").

(** *** [_getAttributionDataFor(productRefId, isSponsored)]

    The result is a record or [null], here [None].  The body has two
    parts, the cache and the durable copy. *)

(** "First check memory cache": a live entry is the answer, a stale one
    is deleted.  The [expiresAt] of a cached record compares: the cache
    receives the records [_storeAttributionData] builds and those the
    durable check found live. *)
Definition check_memory_cache (mapKey : string) : M (option obj) :=
  data <- Map_lookup mapKey ;;
  match data with
  | Some data =>
      if is_live data then ret (Some data)
      else Map_delete mapKey ;; ret None
  | None => ret None
  end.

(** "Then check persistent storage".  A parsed value other than an object
    has no [expiresAt] of its own, so that
    [attributionData.expiresAt > Date.now()] is false for it; on [null]
    the property read throws, and on an object whose [expiresAt] does not
    print the comparison does. *)
Definition check_persistent_storage (productRefId : value)
    (isSponsored : bool) (mapKey storageKey : string) : M (option obj) :=
  try_catch
    (storedData <-
       (if use_localStorage then localStorage_getItem storageKey
        else _getCookie storageKey) ;;
     if text_truthy storedData then
       attributionData <-
         JSON_parse (match storedData with Some t => t | None => TEmpty end) ;;
       match attributionData with
       | VUndefined | VNull => throw TypeError
       | VObj record =>
           if negb (expiry_compares record) then throw TypeError
           else if is_live record then
             Map_set mapKey record ;; ret (Some record)
           else
             _cleanupExpiredAttributionData productRefId (VBool isSponsored) ;;
             ret None
       | _ =>
           _cleanupExpiredAttributionData productRefId (VBool isSponsored) ;;
           ret None
       end
     else ret None)
    (fun error => _error "Failed to retrieve attribution data:" ;; ret None).

Definition _getAttributionDataFor (productRefId : value) (isSponsored : bool)
  : M (option obj) :=
  customer <- gets customerId ;;
  let mapKey := mapKey productRefId isSponsored in
  let storageKey := storageKey customer productRefId isSponsored in
  cached <- check_memory_cache mapKey ;;
  match cached with
  | Some data => ret (Some data)
  | None =>
      check_persistent_storage productRefId isSponsored mapKey storageKey
  end.

(** *** [_getAttributionData(productRefId)]: sponsored first *)
Definition _getAttributionData (productRefId : value) : M (option obj) :=
  customer <- gets customerId ;;
  if negb (truthy customer) || negb (truthy productRefId) then ret None
  else
    sponsored <- _getAttributionDataFor productRefId true ;;
    match sponsored with
    | Some data => ret (Some data)
    | None => _getAttributionDataFor productRefId false
    end.

(** *** [_mergeAttributionData(eventData, attributionData)] *)

(** The fields every attributed event receives. *)
Definition core_fields : list string :=
  [ "recommenderId"; "campaignId"; "tacticId"; "tacticLabel"; "bannerId";
    "placementId"; "widgetId"; "routeId"; "retailBoostCollectionCampaignId" ].

(** The retail-media fields, spread only for a sponsored record. *)
Definition sponsored_fields : list string :=
  [ "adSetId"; "adSetVersion"; "costPerClick"; "costPerAction";
    "costPerMille"; "timeStamp"; "hmacSalt"; "hmac"; "supplierId" ].

Definition _mergeAttributionData (eventData : obj) (attributionData : obj)
  : obj :=
  spread
    (spread eventData
       [ ("recommenderId", obj_get attributionData "recommenderId");
         ("campaignId", obj_get attributionData "campaignId");
         ("tacticId", obj_get attributionData "tacticId");
         ("tacticLabel", obj_get attributionData "tacticLabel");
         ("bannerId", obj_get attributionData "bannerId");
         ("placementId", obj_get attributionData "placementId");
         ("widgetId", obj_get attributionData "widgetId");
         ("routeId", obj_get attributionData "routeId");
         ("retailBoostCollectionCampaignId",
            obj_get attributionData "retailBoostCollectionCampaignId") ])
    (if truthy (obj_get attributionData "isSponsored") then
       [ ("adSetId", obj_get attributionData "adSetId");
         ("adSetVersion", obj_get attributionData "adSetVersion");
         ("costPerClick", obj_get attributionData "costPerClick");
         ("costPerAction", obj_get attributionData "costPerAction");
         ("costPerMille", obj_get attributionData "costPerMille");
         ("timeStamp", obj_get attributionData "timeStamp");
         ("hmacSalt", obj_get attributionData "hmacSalt");
         ("hmac", obj_get attributionData "hmac");
         ("supplierId", obj_get attributionData "supplierId") ]
     else []).

(** *** [_enrichProductData(product)] *)
Definition _enrichProductData (product : value) : obj :=
  [ ("refId", member product "refId");
    ("quantity", member product "quantity");
    ("price", member product "price");
    ("routeId", member product "routeId");
    ("widgetId", member product "widgetId");
    ("recommenderId", member product "recommenderId");
    ("campaignId", member product "campaignId");
    ("tacticId", member product "tacticId");
    ("clickId", member product "clickId");
    ("referralUrl", member product "referralUrl");
    ("tacticLabel", member product "tacticLabel");
    ("retailBoostCollectionCampaignId",
       member product "retailBoostCollectionCampaignId");
    ("adSetId", member product "adSetId");
    ("adSetVersion", member product "adSetVersion");
    ("costPerClick", member product "costPerClick");
    ("costPerAction", member product "costPerAction");
    ("costPerMille", member product "costPerMille");
    ("timeStamp", member product "timeStamp");
    ("hmacSalt", member product "hmacSalt");
    ("hmac", member product "hmac");
    ("bannerId", member product "bannerId");
    ("placementId", member product "placementId") ].

(** *** [_prepareProductWithAttribution(product)]: the enriched product
    and the record used, if any *)
Definition _prepareProductWithAttribution (product : value)
  : M (obj * option obj) :=
  refId <- prop product "refId" ;;
  attributionData <- _getAttributionData refId ;;
  let baseProduct := _enrichProductData product in
  let productWithAttr :=
    match attributionData with
    | Some data => _mergeAttributionData baseProduct data
    | None => baseProduct
    end in
  ret (productWithAttr, attributionData).

(** *** [trackClick(eventData)] *)
Definition click_event (eventData : obj) : obj :=
  [ ("currentUrl",
       js_or (obj_get eventData "currentUrl") (VStr (location_href h)));
    ("eventTime", VStr (Date_toISOString h));
    ("clickId", js_or (obj_get eventData "clickId") (VStr (generated_id h)));
    ("refId", obj_get eventData "refId");
    ("actionType", js_or (obj_get eventData "actionType") (VNum 1));
    ("contextType", js_or (obj_get eventData "contextType") (VNum 1));
    ("contextId", obj_get eventData "contextId");
    ("contextData", obj_get eventData "contextData");
    ("redirectUrl", obj_get eventData "redirectUrl");
    ("referralUrl",
       js_or (obj_get eventData "referralUrl") (VStr (document_referrer h)));
    ("personalized", obj_get eventData "personalized");
    ("clickPosition", obj_get eventData "clickPosition");
    ("slot", obj_get eventData "slot");
    ("widgetId", obj_get eventData "widgetId");
    ("routeId", obj_get eventData "routeId");
    ("recommenderId", obj_get eventData "recommenderId");
    ("campaignId", obj_get eventData "campaignId");
    ("tacticId", obj_get eventData "tacticId");
    ("tacticLabel", obj_get eventData "tacticLabel");
    ("bannerId", obj_get eventData "bannerId");
    ("placementId", obj_get eventData "placementId");
    ("retailBoostCollectionCampaignId",
       obj_get eventData "retailBoostCollectionCampaignId");
    ("adSetId", obj_get eventData "adSetId");
    ("adSetVersion", obj_get eventData "adSetVersion");
    ("costPerClick", obj_get eventData "costPerClick");
    ("costPerAction", obj_get eventData "costPerAction");
    ("costPerMille", obj_get eventData "costPerMille");
    ("timeStamp", obj_get eventData "timeStamp");
    ("hmacSalt", obj_get eventData "hmacSalt");
    ("hmac", obj_get eventData "hmac");
    ("supplierId", obj_get eventData "supplierId") ].

(** [!!(eventData.adSetId && eventData.adSetId.length > 0)] *)
Definition click_isSponsored (eventData : obj) : bool :=
  truthy (obj_get eventData "adSetId")
  && js_gt (string_to_number h) (js_length (obj_get eventData "adSetId")) 0.

(** The comparison [eventData.adSetId.length > 0] is made for a truthy
    [adSetId] and throws for a [length] that does not print. *)
Definition adSetId_compares (eventData : obj) : bool :=
  negb (truthy (obj_get eventData "adSetId"))
  || printable (js_length (obj_get eventData "adSetId")).

Definition trackClick (eventData : obj) : M obj :=
  let event := click_event eventData in
  (if truthy (obj_get eventData "refId")
      && (truthy (obj_get eventData "widgetId")
          || truthy (obj_get eventData "adSetId"))
   then
     if negb (adSetId_compares eventData) then throw TypeError
     else
       _storeAttributionData (obj_get eventData "refId")
         (spread event [("isSponsored", VBool (click_isSponsored eventData))])
   else ret tt) ;;
  _queueEvent "clicks" event.

(** *** [trackAddToCart(eventData)]

    [attributionData] stays [null] when the caller gave a [clickId];
    [eventData.clickId || attributionData.clickId] then stops at its
    first operand. *)
Definition addToCart_baseEvent (eventData : obj) (attributionData : option obj)
  : obj :=
  [ ("currentUrl",
       js_or (obj_get eventData "currentUrl") (VStr (location_href h)));
    ("eventTime", VStr (Date_toISOString h));
    ("product",
       VObj [ ("refId", member (obj_get eventData "product") "refId");
              ("quantity", member (obj_get eventData "product") "quantity");
              ("price", member (obj_get eventData "product") "price") ]);
    ("clickId",
       match attributionData with
       | Some data =>
           js_or (obj_get eventData "clickId") (obj_get data "clickId")
       | None => obj_get eventData "clickId"
       end);
    ("referralUrl",
       js_or (js_or (obj_get eventData "referralUrl")
                (VStr (document_referrer h)))
         (match attributionData with
          | Some data => obj_get data "referralUrl"
          | None => VNull
          end)) ].

Definition trackAddToCart (eventData : obj) : M obj :=
  productRefId <- prop (obj_get eventData "product") "refId" ;;
  attributionData <-
    (if negb (truthy (obj_get eventData "clickId")) then
       found <- _getAttributionData productRefId ;;
       match found with
       | Some data =>
           if truthy (obj_get data "clickId") then ret (Some data)
           else
             _error "Add to Cart requires clickId. Generate a Click event first." ;;
             throw MissingAttributionError
       | None =>
           _error "Add to Cart requires clickId. Generate a Click event first." ;;
           throw MissingAttributionError
       end
     else ret None) ;;
  let baseEvent := addToCart_baseEvent eventData attributionData in
  let event :=
    match attributionData with
    | Some data => _mergeAttributionData baseEvent data
    | None => _mergeAttributionData baseEvent eventData
    end in
  _queueEvent "add-to-carts" event.

(** *** [trackPurchase(eventData)] *)

(** The first [forEach]: the enriched products and, for every product a
    record was used for, [{ refId, isSponsored }]. *)
Fixpoint purchase_products (items : list value)
  : M (list obj * list (value * value)) :=
  match items with
  | [] => ret ([], [])
  | product :: rest =>
      prepared <- _prepareProductWithAttribution product ;;
      let consumed :=
        match snd prepared with
        | Some data => [(member product "refId", obj_get data "isSponsored")]
        | None => []
        end in
      others <- purchase_products rest ;;
      ret (fst prepared :: fst others, (consumed ++ snd others)%list)
  end.

Definition purchase_event (eventData : obj) (products : list obj) : obj :=
  [ ("currentUrl",
       js_or (obj_get eventData "currentUrl") (VStr (location_href h)));
    ("eventTime", VStr (Date_toISOString h));
    ("orderId", obj_get eventData "orderId");
    ("paymentMethod", obj_get eventData "paymentMethod");
    ("currencyCode", obj_get eventData "currencyCode");
    ("products", VArr (map VObj products));
    ("priceBeatPromotions", obj_get eventData "priceBeatPromotions");
    ("recommenderId", obj_get eventData "recommenderId");
    ("campaignId", obj_get eventData "campaignId");
    ("tacticId", obj_get eventData "tacticId") ].

Definition trackPurchase (eventData : obj) : M obj :=
  match obj_get eventData "products" with
  | VArr items =>
      prepared <- purchase_products items ;;
      let event := purchase_event eventData (fst prepared) in
      queuedEvent <- _queueEvent "purchases" event ;;
      forEach (snd prepared) (fun item =>
        _cleanupExpiredAttributionData (fst item) (snd item)) ;;
      ret queuedEvent
  | _ => throw TypeError
  end.

End SDK.

(** ** The SDK's other events *)

Section Events.

Context (cfg : Config) (h : Host).

(** *** [trackViewProduct(eventData)] *)
Definition viewProduct_event (eventData : obj) : obj :=
  [ ("currentUrl",
       js_or (obj_get eventData "currentUrl") (VStr (location_href h)));
    ("eventTime", VStr (Date_toISOString h));
    ("refId", obj_get eventData "refId");
    ("widgetId", obj_get eventData "widgetId");
    ("routeId", obj_get eventData "routeId");
    ("recommenderId", obj_get eventData "recommenderId");
    ("campaignId", obj_get eventData "campaignId");
    ("tacticId", obj_get eventData "tacticId");
    ("referralUrl",
       js_or (obj_get eventData "referralUrl") (VStr (document_referrer h)));
    ("bannerId", obj_get eventData "bannerId") ].

Definition trackViewProduct (eventData : obj) : M obj :=
  _queueEvent "view-products" (viewProduct_event eventData).

(** *** [trackSearch(eventData)] *)
Definition search_event (eventData : obj) : obj :=
  [ ("currentUrl",
       js_or (obj_get eventData "currentUrl") (VStr (location_href h)));
    ("eventTime", VStr (Date_toISOString h));
    ("widgetId", obj_get eventData "widgetId");
    ("routeId", obj_get eventData "routeId");
    ("searchTerm", obj_get eventData "searchTerm");
    ("numberOfResults", obj_get eventData "numberOfResults");
    ("tacticId", obj_get eventData "tacticId");
    ("campaignId", obj_get eventData "campaignId");
    ("recommenderId", obj_get eventData "recommenderId") ].

Definition trackSearch (eventData : obj) : M obj :=
  _queueEvent "search-terms" (search_event eventData).

(** *** [trackSlotImpression(eventData)] *)
Definition slotImpression_event (eventData : obj) : obj :=
  [ ("currentUrl",
       js_or (obj_get eventData "currentUrl") (VStr (location_href h)));
    ("eventTime", VStr (Date_toISOString h));
    ("refId", obj_get eventData "refId");
    ("widgetId", obj_get eventData "widgetId");
    ("routeId", obj_get eventData "routeId");
    ("recommenderId", obj_get eventData "recommenderId");
    ("campaignId", obj_get eventData "campaignId");
    ("tacticId", obj_get eventData "tacticId");
    ("tacticLabel", obj_get eventData "tacticLabel");
    ("bannerId", obj_get eventData "bannerId");
    ("personalized", obj_get eventData "personalized");
    ("placementId", obj_get eventData "placementId");
    ("retailBoostCollectionCampaignId",
       obj_get eventData "retailBoostCollectionCampaignId");
    ("adSetId", obj_get eventData "adSetId");
    ("adSetVersion", obj_get eventData "adSetVersion");
    ("costPerMille", obj_get eventData "costPerMille");
    ("costPerClick", obj_get eventData "costPerClick");
    ("costPerAction", obj_get eventData "costPerAction");
    ("timeStamp", obj_get eventData "timeStamp");
    ("hmacSalt", obj_get eventData "hmacSalt");
    ("hmac", obj_get eventData "hmac");
    ("supplierId", obj_get eventData "supplierId");
    ("priceBeat", obj_get eventData "priceBeat") ].

Definition trackSlotImpression (eventData : obj) : M obj :=
  _queueEvent "slot-impressions" (slotImpression_event eventData).

(** *** [_enrichProductDataWithAttribution(product)] *)
Definition _enrichProductDataWithAttribution (product : value) : M obj :=
  prepared <- _prepareProductWithAttribution cfg h product ;;
  ret (fst prepared).

(** *** [trackCheckout(eventData)] *)

(** [products.map(product => this._enrichProductDataWithAttribution(product))] *)
Fixpoint checkout_products (items : list value) : M (list obj) :=
  match items with
  | [] => ret []
  | product :: rest =>
      enriched <- _enrichProductDataWithAttribution product ;;
      others <- checkout_products rest ;;
      ret (enriched :: others)
  end.

Definition checkout_event (eventData : obj) (products : list obj) : obj :=
  [ ("currentUrl",
       js_or (obj_get eventData "currentUrl") (VStr (location_href h)));
    ("eventTime", VStr (Date_toISOString h));
    ("subTotal", obj_get eventData "subTotal");
    ("discount", obj_get eventData "discount");
    ("totalPrice", obj_get eventData "totalPrice");
    ("deliveryFee", obj_get eventData "deliveryFee");
    ("currencyCode", obj_get eventData "currencyCode");
    ("products", VArr (map VObj products));
    ("priceBeatPromotions", obj_get eventData "priceBeatPromotions") ].

Definition trackCheckout (eventData : obj) : M obj :=
  match obj_get eventData "products" with
  | VArr items =>
      products <- checkout_products items ;;
      _queueEvent "checkouts" (checkout_event eventData products)
  | _ => throw TypeError
  end.

End Events.

(** ** Flushing the queue *)

Section Flushing.

(** [this.session.sessionId], which the methods of this section read and
    never assign. *)
Context (sessionId : value).

(** The event types the [track...] methods queue. *)
Definition event_types : list string :=
  [ "view-products"; "clicks"; "add-to-carts"; "checkouts"; "purchases";
    "search-terms"; "slot-impressions" ].

(** [if (!eventGroups[type]) { eventGroups[type] = [] }
     eventGroups[type].push(data)], for an [eventGroups] whose properties
    are arrays of events under the types above, in the order they were
    added. *)
Fixpoint push_event (eventGroups : list (string * list obj))
    (type : string) (data : obj) : list (string * list obj) :=
  match eventGroups with
  | [] => [(type, [data])]
  | (t, events) :: rest =>
      if String.eqb t type then (t, (events ++ [data])%list) :: rest
      else (t, events) :: push_event rest type data
  end.

(** "Group events by type" *)
Definition group_events (pendingEvents : list (string * obj))
  : list (string * list obj) :=
  fold_left (fun eventGroups e => push_event eventGroups (fst e) (snd e))
    pendingEvents [].

(** A request handed to [_apiCall]: its path and its body. *)
Definition request : Type := (string * obj)%type.

(** [_sendEvents(eventType, events)] up to its [await]: the check of the
    session, and the [POST] the method hands to [_apiCall] when the session
    is there.  What follows the [await] writes to the console only. *)
Definition _sendEvents (eventType : string) (events : list obj)
  : M (option request) :=
  customer <- gets customerId ;;
  if negb (truthy customer) || negb (truthy sessionId) then
    _error "Cannot send events without session" ;;
    ret None
  else
    ret (Some ("/3.0/events/" +:+ eventType,
               [ ("customerId", customer);
                 ("sessionId", sessionId);
                 ("events", VArr (map VObj events)) ])).

(** [Object.entries(eventGroups).map(([type, events]) =>
     this._sendEvents(type, events))]: the requests made. *)
Fixpoint send_groups (eventGroups : list (string * list obj))
  : M (list request) :=
  match eventGroups with
  | [] => ret []
  | (type, events) :: rest =>
      sent <- _sendEvents type events ;;
      others <- send_groups rest ;;
      ret (match sent with
           | Some r => r :: others
           | None => others
           end)
  end.

(** [_flushEvents()] up to its [await]: the queue is emptied and one
    request per group is made.  What follows the [await] writes to the
    console only. *)
Definition _flushEvents : M (list request) :=
  pending <- gets pendingEvents ;;
  if Nat.eqb (List.length pending) 0 then ret []
  else
    let eventGroups := group_events pending in
    modify (with_pendingEvents []) ;;
    send_groups eventGroups.

End Flushing.

(** ** Strings *)

(** [s.startsWith(prefix)] *)
Fixpoint startsWith (s prefix : string) {struct prefix} : bool :=
  match prefix with
  | EmptyString => true
  | String a prefix' =>
      match s with
      | EmptyString => false
      | String b s' => Ascii.eqb a b && startsWith s' prefix'
      end
  end.

(** [s.split(separator)] for a non-empty [separator], reading [s] from the
    left: [piece] is the piece read so far, and [skip] counts the
    characters still to pass of a separator just found. *)
Fixpoint split_from (separator : string) (skip : nat) (piece : string)
    (s : string) : list string :=
  match s with
  | EmptyString => [piece]
  | String c rest =>
      match skip with
      | S skip' => split_from separator skip' piece rest
      | O =>
          if startsWith s separator
          then piece
               :: split_from separator (String.length separator - 1) "" rest
          else split_from separator O (piece +:+ String c "") rest
      end
  end.

Definition split (s separator : string) : list string :=
  split_from separator 0 "" s.

(** ** [_getCookie] on the string [document.cookie] *)

Module DocumentCookie.

(** [_getCookie(name)], with [document.cookie] as the browser shows it:
    [null] is [None]. *)
Definition _getCookie (document_cookie : string) (name : string)
  : option string :=
  let value := "; " +:+ document_cookie in
  let parts := split value ("; " +:+ name +:+ "=") in
  if Nat.eqb (List.length parts) 2
  then Some (hd "" (split (List.last parts "") ";"))
  else None.

End DocumentCookie.

(** ** Automatic tracking *)

(** An [async] method called without [await]: a rejection is not thrown
    to the caller. *)
Definition fire {A : Type} (m : M A) : M unit :=
  try_catch (m ;; ret tt) (fun rejection => ret tt).

(** [v?.k] *)
Definition optional_member (v : value) (k : string) : value :=
  match v with
  | VUndefined | VNull => VUndefined
  | _ => member v k
  end.

(** [v.forEach(f)] for a [v] that is neither [null] nor [undefined]: only
    an array has the method. *)
Definition value_forEach (v : value) (f : value -> M unit) : M unit :=
  match v with
  | VArr items => forEach items f
  | _ => throw TypeError
  end.

(** [v?.forEach(f)] *)
Definition optional_forEach (v : value) (f : value -> M unit) : M unit :=
  match v with
  | VUndefined | VNull => ret tt
  | _ => value_forEach v f
  end.

Section Impressions.

Context (h : Host).

(** The event data [_trackRecommendationImpressions] builds for one
    product of one slot of one widget; [refId] is [product.refId]. *)
Definition recommendation_impression (route widget slot refId : value) : obj :=
  [ ("refId", refId);
    ("widgetId", member widget "id");
    ("routeId", member route "id");
    ("recommenderId", member slot "recommenderId");
    ("campaignId", member slot "campaignId");
    ("tacticId", member slot "tacticId");
    ("tacticLabel", member slot "label");
    ("retailBoostCollectionCampaignId",
       member slot "retailBoostCollectionCampaignId");
    ("adSetId", member slot "adSetId");
    ("adSetVersion", member slot "adSetVersion");
    ("costPerMille", member slot "costPerMille");
    ("costPerClick", member slot "costPerClick");
    ("costPerAction", member slot "costPerAction");
    ("timeStamp", member slot "timeStamp");
    ("hmacSalt", member slot "hmacSalt");
    ("hmac", member slot "hmac");
    ("supplierId", member slot "supplierId") ].

(** *** [_trackRecommendationImpressions(response)] *)
Definition _trackRecommendationImpressions (response : value) : M unit :=
  recommendations <- prop response "recommendations" ;;
  let route := optional_member recommendations "route" in
  let widgets := optional_member route "widgets" in
  if negb (truthy widgets) then ret tt
  else
    value_forEach widgets (fun widget =>
      slots <- prop widget "slots" ;;
      optional_forEach slots (fun slot =>
        products <- prop slot "products" ;;
        optional_forEach products (fun product =>
          refId <- prop product "refId" ;;
          fire (trackSlotImpression h
                  (recommendation_impression route widget slot refId))))).

End Impressions.

(** *** [_detectProductId()] *)

(** What the detection reads of the configuration and of the page:
    - what calling [config.customProductIdExtractor] gives, when there is
      one: a value, or an exception;
    - for each of [config.productUrlPatterns], what
      [window.location.href.match(pattern)] gives: [null], here [None], or
      the array of the match, or the exception for a pattern that is no
      regular expression;
    - for each of [config.productMetaSelectors], what
      [document.querySelector(selector)] gives: [null] or an element, or
      the exception for a selector that is none;
    - the [textContent] of each [script[type="application/ld+json"]]. *)
Record Page : Type := mkPage {
  customProductIdExtractor : option (result value);
  productUrlMatches : list (result (option (list value)));
  productMetaElements : list (result value);
  ldJsonElements : list text
}.

(** "Try configured URL patterns": the first match with a truthy first
    group. *)
Fixpoint first_url_match (matches : list (result (option (list value))))
  : M (option value) :=
  match matches with
  | [] => ret None
  | matched :: rest =>
      m <- (fun w => (matched, w)) ;;
      match m with
      | Some groups =>
          if truthy (nth 1 groups VUndefined)
          then ret (Some (nth 1 groups VUndefined))
          else first_url_match rest
      | None => first_url_match rest
      end
  end.

(** "Try configured meta tag selectors" *)
Fixpoint first_meta (elements : list (result value)) : M (option value) :=
  match elements with
  | [] => ret None
  | queried :: rest =>
      metaElement <- (fun w => (queried, w)) ;;
      if truthy metaElement && truthy (member metaElement "content")
      then ret (Some (member metaElement "content"))
      else first_meta rest
  end.

(** [a === 'Product'] *)
Definition is_Product (v : value) : bool :=
  match v with
  | VStr s => String.eqb s "Product"
  | _ => false
  end.

(** The loop over the items of one structured-data script. *)
Fixpoint first_product (items : list value) : M (option value) :=
  match items with
  | [] => ret None
  | item :: rest =>
      type <- prop item "@type" ;;
      if is_Product type && truthy (member item "sku")
      then ret (Some (member item "sku"))
      else if is_Product type && truthy (member item "productID")
      then ret (Some (member item "productID"))
      else first_product rest
  end.

(** "Try to find in structured data": a script that does not parse, or
    that throws while it is read, is passed over. *)
Fixpoint first_ld_json (scripts : list text) : M (option value) :=
  match scripts with
  | [] => ret None
  | textContent :: rest =>
      found <-
        try_catch
          (data <- JSON_parse textContent ;;
           let products :=
             match data with
             | VArr items => items
             | _ => [data]
             end in
           first_product products)
          (fun e => ret None) ;;
      match found with
      | Some id => ret (Some id)
      | None => first_ld_json rest
      end
  end.

Definition _detectProductId (page : Page) : M value :=
  custom <-
    match customProductIdExtractor page with
    | Some called =>
        try_catch
          (customResult <- (fun w => (called, w)) ;;
           if truthy customResult then ret (Some customResult) else ret None)
          (fun error =>
             _error "Custom product ID extractor failed:" ;; ret None)
    | None => ret None
    end ;;
  match custom with
  | Some id => ret id
  | None =>
      url <- first_url_match (productUrlMatches page) ;;
      match url with
      | Some id => ret id
      | None =>
          meta <- first_meta (productMetaElements page) ;;
          match meta with
          | Some id => ret id
          | None =>
              structured <- first_ld_json (ldJsonElements page) ;;
              match structured with
              | Some id => ret id
              | None => ret VNull
              end
          end
      end
  end.

(** *** [_detectAndTrackProductView()] *)
Definition _detectAndTrackProductView (h : Host) (page : Page) : M unit :=
  productId <- _detectProductId page ;;
  if truthy productId
  then fire (trackViewProduct h [("refId", productId)])
  else ret tt.

(** *** [_extractTrackingData(element)] *)

(** [s] without its first [n] characters. *)
Fixpoint drop_chars (n : nat) (s : string) : string :=
  match n, s with
  | O, _ => s
  | S n', String _ rest => drop_chars n' rest
  | S _, EmptyString => EmptyString
  end.

(** [s.replace(search, replacement)] for strings: the first occurrence. *)
Fixpoint replace_first (s search replacement : string) : string :=
  if startsWith s search
  then replacement +:+ drop_chars (String.length search) s
  else match s with
       | EmptyString => EmptyString
       | String c rest => String c (replace_first rest search replacement)
       end.

(** [[a-z]] *)
Definition is_lower (c : ascii) : bool :=
  Nat.leb 97 (nat_of_ascii c) && Nat.leb (nat_of_ascii c) 122.

(** [c.toUpperCase()] for a [c] in [[a-z]] *)
Definition toUpperCase (c : ascii) : ascii :=
  ascii_of_nat (nat_of_ascii c - 32).

(** [s.replace(/-([a-z])/g, (_, c) => c.toUpperCase())] *)
Fixpoint camel (s : string) : string :=
  match s with
  | EmptyString => EmptyString
  | String a rest =>
      match rest with
      | String c rest' =>
          if Ascii.eqb a "-" && is_lower c
          then String (toUpperCase c) (camel rest')
          else String a (camel rest)
      | EmptyString => String a EmptyString
      end
  end.

Section Attributes.

(** What [JSON.parse] makes of a string: a value, or nothing when it
    throws. *)
Context (JSON_parse_string : string -> option value).

(** The key an attribute is filed under. *)
Definition attribute_key (name : string) : string :=
  camel (replace_first name "data-pa-" "").

(** "Try to parse JSON values", "keep as string if not valid JSON" *)
Definition attribute_value (raw : string) : value :=
  match JSON_parse_string raw with
  | Some parsed => parsed
  | None => VStr raw
  end.

(** The object [data]: its own properties, and its prototype once one
    has been assigned ([None] is [Object.prototype]). *)
Record TrackingData : Type := mkTrackingData {
  own_properties : obj;
  prototype : option value
}.

(** Whether [data['__proto__'] = value] reaches the setter of
    [Object.prototype]: not when [data] has a property of that name of its
    own, nor under the prototype [null], nor behind a prototype with a
    property [__proto__] of its own, as [JSON.parse] makes them. *)
Definition reaches_proto_setter (data : TrackingData) : bool :=
  negb (obj_has (own_properties data) "__proto__")
  && match prototype data with
     | None => true
     | Some (VObj o) => negb (obj_has o "__proto__")
     | Some (VArr _) => true
     | Some _ => false
     end.

(** [data[key] = value].  The setter of [Object.prototype] makes an
    object, an array or [null] the prototype of [data] and passes over
    every other value; it adds no property to [data]. *)
Definition assign (data : TrackingData) (key : string) (v : value)
  : TrackingData :=
  if String.eqb key "__proto__" && reaches_proto_setter data then
    match v with
    | VObj _ | VArr _ | VNull => mkTrackingData (own_properties data) (Some v)
    | _ => data
    end
  else mkTrackingData (obj_set (own_properties data) key v) (prototype data).

(** [element.attributes] is a list of names and values. *)
Definition _extractTrackingData (attributes : list (string * string))
  : option TrackingData :=
  let data :=
    fold_left
      (fun data attr =>
         if startsWith (fst attr) "data-pa-"
         then assign data (attribute_key (fst attr))
                (attribute_value (snd attr))
         else data)
      attributes (mkTrackingData [] None) in
  if Nat.ltb 0 (List.length (own_properties data)) then Some data else None.

End Attributes.

(** ** A shop page, for the examples *)

Module Scenario.

(** One second of attribution window, records kept in [localStorage]. *)
Definition config : Config := mkConfig "pa_" "localStorage" 1000.

(** The same with the default backend, cookies. *)
Definition cookie_config : Config := mkConfig "pa_" "cookie" 1000.

(** The page at instant [now], its storage in state [f]. *)
Definition page (now : Z) (f : fault) : Host :=
  mkHost now "2026-01-01T00:00:00.000Z" "https://shop.example/p/SKU1" ""
    "generated-click-id" true f (fun _ => None).

(** An instance with a session and nothing stored. *)
Definition session : World := mkWorld (VStr "CUST1") ∅ ∅ ∅ [] [] [].

(** An instance whose session has not been created yet. *)
Definition no_session : World := mkWorld VNull ∅ ∅ ∅ [] [] [].

Definition sponsored_click : obj :=
  [("refId", VStr "SKU1"); ("clickId", VStr "C1"); ("adSetId", VStr "AS1");
   ("costPerClick", VNum 5)].

Definition organic_click : obj :=
  [("refId", VStr "SKU1"); ("clickId", VStr "C0"); ("widgetId", VStr "W1")].

(** The instance after an organic and then a sponsored click on [SKU1],
    both at instant 0. *)
Definition both_clicked : World :=
  snd (trackClick config (page 0 Healthy)
         sponsored_click
         (snd (trackClick config (page 0 Healthy)
                 organic_click session))).

(** After the sponsored click alone. *)
Definition sponsored_clicked : World :=
  snd (trackClick config (page 0 Healthy)
         sponsored_click session).

(** A session whose sponsored entry for [SKU1] is not JSON. *)
Definition corrupt_session : World :=
  mkWorld (VStr "CUST1") ∅ {[ "pa_attribution_CUST1_SKU1_s" := TGarbage ]} ∅
          [] [] [].

(** After an organic click at instant 0 and a sponsored click at instant
    500: the organic record expires at 1000, the sponsored one at 1500. *)
Definition clicked_apart : World :=
  snd (trackClick config (page 500 Healthy) sponsored_click
         (snd (trackClick config (page 0 Healthy) organic_click session))).

End Scenario.

(** ** Keys *)

Section Keys.

Lemma append_length (s t : string) :
  String.length (s +:+ t) = (String.length s + String.length t)%nat.
Proof.
  induction s as [|a s IH]; [reflexivity|].
  change (String a s +:+ t) with (String a (s +:+ t)).
  simpl. now rewrite IH.
Qed.

(** Two strings that end in suffixes of one length agree part by part. *)
Lemma append_same_length_inj (x y s t : string) :
  String.length s = String.length t -> x +:+ s = y +:+ t -> x = y /\ s = t.
Proof.
  revert y. induction x as [|a x IH]; intros [|b y] Hlen Heq.
  - done.
  - exfalso. apply (f_equal String.length) in Heq.
    rewrite !append_length in Heq. simpl in Heq. lia.
  - exfalso. apply (f_equal String.length) in Heq.
    rewrite !append_length in Heq. simpl in Heq. lia.
  - change (String a (x +:+ s) = String b (y +:+ t)) in Heq.
    injection Heq as -> Heq. destruct (IH y Hlen Heq) as [-> ->]. done.
Qed.

Lemma typeSuffix_inj (a b : bool) :
  "_" +:+ typeSuffix a = "_" +:+ typeSuffix b -> a = b.
Proof.
  destruct a, b; intros H; try reflexivity; vm_compute in H; discriminate H.
Qed.

Lemma typeSuffix_length (a b : bool) :
  String.length ("_" +:+ typeSuffix a) = String.length ("_" +:+ typeSuffix b).
Proof. destruct a, b; reflexivity. Qed.

(** A cache key names one product, as a string, and one channel. *)
Lemma mapKey_inj (p q : value) (a b : bool) :
  mapKey p a = mapKey q b -> to_string p = to_string q /\ a = b.
Proof.
  unfold mapKey. intros H.
  apply append_same_length_inj in H; [|apply typeSuffix_length].
  destruct H as [Hp Hs]. split; [exact Hp|exact (typeSuffix_inj _ _ Hs)].
Qed.

(** So does a storage key, under one customer. *)
Lemma storageKey_inj (cfg : Config) (c p q : value) (a b : bool) :
  storageKey cfg c p a = storageKey cfg c q b ->
  to_string p = to_string q /\ a = b.
Proof.
  unfold storageKey. intros H.
  do 4 apply String.app_inj in H.
  exact (mapKey_inj p q a b H).
Qed.

Lemma mapKey_channel_ne (p : value) (a : bool) :
  mapKey p a <> mapKey p (negb a).
Proof. intros H. apply mapKey_inj in H. destruct H as [_ H]. destruct a; discriminate H. Qed.

Lemma storageKey_channel_ne (cfg : Config) (c p : value) (a : bool) :
  storageKey cfg c p a <> storageKey cfg c p (negb a).
Proof.
  intros H. apply storageKey_inj in H. destruct H as [_ H].
  destruct a; discriminate H.
Qed.

(** Keys of products that print alike are the same keys. *)
Lemma mapKey_to_string (p q : value) (a : bool) :
  to_string p = to_string q -> mapKey p a = mapKey q a.
Proof. unfold mapKey. now intros ->. Qed.

Lemma storageKey_to_string (cfg : Config) (c p q : value) (a : bool) :
  to_string p = to_string q -> storageKey cfg c p a = storageKey cfg c q a.
Proof. unfold storageKey. now intros ->. Qed.

End Keys.

(** ** Objects *)

Section Objects.

Lemma obj_get_set_eq (o : obj) (k : string) (v : value) :
  obj_get (obj_set o k v) k = v.
Proof.
  induction o as [|[k' v'] o IH]; simpl.
  - now rewrite String.eqb_refl.
  - destruct (String.eqb k' k) eqn:E; simpl.
    + now rewrite String.eqb_refl.
    + now rewrite E.
Qed.

Lemma obj_get_set_ne (o : obj) (k k' : string) (v : value) :
  k <> k' -> obj_get (obj_set o k v) k' = obj_get o k'.
Proof.
  intros Hne. induction o as [|[k0 v0] o IH]; simpl.
  - destruct (String.eqb_spec k k'); [contradiction|reflexivity].
  - destruct (String.eqb_spec k0 k) as [->|Hk]; simpl.
    + destruct (String.eqb_spec k k'); [contradiction|reflexivity].
    + now rewrite IH.
Qed.

Lemma obj_has_set_ne (o : obj) (k k' : string) (v : value) :
  k <> k' -> obj_has (obj_set o k v) k' = obj_has o k'.
Proof.
  intros Hne. induction o as [|[k0 v0] o IH]; simpl.
  - destruct (String.eqb_spec k k'); [contradiction|reflexivity].
  - destruct (String.eqb_spec k0 k) as [->|Hk]; simpl.
    + destruct (String.eqb_spec k k'); [contradiction|reflexivity].
    + now rewrite IH.
Qed.

(** A spread leaves alone the properties it does not name. *)
Lemma obj_get_spread_other (o props : obj) (k : string) :
  obj_has props k = false -> obj_get (spread o props) k = obj_get o k.
Proof.
  unfold spread. revert o.
  induction props as [|[k' v'] props IH]; intros o Hk; simpl in *.
  - reflexivity.
  - destruct (String.eqb_spec k' k) as [->|Hne]; [discriminate Hk|].
    rewrite IH by exact Hk. now apply obj_get_set_ne.
Qed.

Lemma obj_has_spread_other (o props : obj) (k : string) :
  obj_has props k = false -> obj_has (spread o props) k = obj_has o k.
Proof.
  unfold spread. revert o.
  induction props as [|[k' v'] props IH]; intros o Hk; simpl in *.
  - reflexivity.
  - destruct (String.eqb_spec k' k) as [->|Hne]; [discriminate Hk|].
    rewrite IH by exact Hk. now apply obj_has_set_ne.
Qed.

(** Where no name is spread twice, a spread property has the spread value. *)
Lemma obj_get_spread_named (o props : obj) (k : string) :
  NoDup (map fst props) -> obj_has props k = true ->
  obj_get (spread o props) k = obj_get props k.
Proof.
  unfold spread. revert o.
  induction props as [|[k' v'] props IH]; intros o Hnd Hk; simpl in *.
  - discriminate Hk.
  - apply NoDup_cons in Hnd. destruct Hnd as [Hnotin Hnd].
    destruct (String.eqb_spec k' k) as [->|Hne].
    + assert (Hfresh : obj_has props k = false).
      { clear -Hnotin. induction props as [|[k0 v0] props IH]; simpl in *.
        - reflexivity.
        - apply not_elem_of_cons in Hnotin. destruct Hnotin as [Hk0 Hrest].
          destruct (String.eqb_spec k0 k); [congruence|]. now apply IH. }
      change (obj_get (spread (obj_set o k v') props) k = v').
      rewrite obj_get_spread_other by exact Hfresh. apply obj_get_set_eq.
    + now apply IH.
Qed.

End Objects.

(** ** Footprints *)

(** The cache keys and the storage keys a method may use. *)
Record footprint : Type := mkFootprint {
  cache_keys : list string;
  storage_keys : list string
}.

Definition access_within (fp : footprint) (a : access) : Prop :=
  match a with
  | MapHas k | MapGet k | MapSet k | MapDelete k => k ∈ cache_keys fp
  | StorageGet k | StorageSet k | StorageRemove k => k ∈ storage_keys fp
  end.

Definition footprint_incl (fp fp' : footprint) : Prop :=
  (forall k, k ∈ cache_keys fp -> k ∈ cache_keys fp')
  /\ (forall k, k ∈ storage_keys fp -> k ∈ storage_keys fp').

(** [confined fp w w']: from [w] to [w'] the session and the event queue
    are as they were, cache entries and durable entries under keys outside
    [fp] are as they were, and every new access is within [fp]. *)
Record confined (fp : footprint) (w w' : World) : Prop := mkConfined {
  confined_customerId : customerId w' = customerId w;
  confined_pendingEvents : pendingEvents w' = pendingEvents w;
  confined_attributionData :
    forall k, k ∉ cache_keys fp ->
              attributionData w' !! k = attributionData w !! k;
  confined_localStorage :
    forall k, k ∉ storage_keys fp -> localStorage w' !! k = localStorage w !! k;
  confined_cookie :
    forall k, k ∉ storage_keys fp -> cookie w' !! k = cookie w !! k;
  confined_trace :
    exists new, trace w' = (new ++ trace w)%list
                /\ Forall (access_within fp) new
}.

(** A method that, run under customer [c], stays within [fp] however it
    ends. *)
Definition confines {A : Type} (c : value) (fp : footprint) (m : M A) : Prop :=
  forall w r w', customerId w = c -> m w = (r, w') -> confined fp w w'.

(** A method that returns: it never throws. *)
Definition returns {A : Type} (m : M A) : Prop :=
  forall w, exists a w', m w = (Ok a, w').

Ltac footprint_solver :=
  first [ progress (unfold footprint_incl; simpl); footprint_solver
        | split; footprint_solver
        | set_solver ].

Section Footprints.

Context (h : Host) (c : value).

Lemma confined_refl (fp : footprint) (w : World) : confined fp w w.
Proof.
  constructor; try reflexivity. exists []. split; [reflexivity|constructor].
Qed.

Lemma confined_trans (fp : footprint) (w1 w2 w3 : World) :
  confined fp w1 w2 -> confined fp w2 w3 -> confined fp w1 w3.
Proof.
  intros [c1 p1 a1 l1 k1 (n1 & t1 & f1)] [c2 p2 a2 l2 k2 (n2 & t2 & f2)].
  constructor.
  - congruence.
  - congruence.
  - intros k Hk. rewrite a2, a1 by exact Hk. reflexivity.
  - intros k Hk. rewrite l2, l1 by exact Hk. reflexivity.
  - intros k Hk. rewrite k2, k1 by exact Hk. reflexivity.
  - exists (n2 ++ n1)%list. split.
    + rewrite t2, t1. now rewrite app_assoc.
    + apply Forall_app. split; assumption.
Qed.

Lemma confined_mono (fp fp' : footprint) (w w' : World) :
  footprint_incl fp fp' -> confined fp w w' -> confined fp' w w'.
Proof.
  intros [Hm Hs] [c0 p a l k (n & t & f)]. constructor; auto.
  exists n. split; [exact t|].
  eapply Forall_impl; [exact f|].
  intros [x|x|x|x|x|x|x] Hx; simpl in *; auto.
Qed.

Lemma confined_touch (fp : footprint) (a : access) (w : World) :
  access_within fp a -> confined fp w (touch a w).
Proof.
  intros Ha. constructor; try reflexivity.
  exists [a]. split; [reflexivity|]. now constructor.
Qed.

Lemma confined_console (fp : footprint) (l : list string) (w : World) :
  confined fp w (with_console_error l w).
Proof.
  constructor; try reflexivity. exists []. split; [reflexivity|constructor].
Qed.

Lemma confines_mono {A : Type} (fp fp' : footprint) (m : M A) :
  footprint_incl fp fp' -> confines c fp m -> confines c fp' m.
Proof. intros Hsub Hm w r w' Hc E. eapply confined_mono; eauto. Qed.

Lemma confines_ret {A : Type} (fp : footprint) (a : A) :
  confines c fp (ret a).
Proof. intros w r w' _ E. injection E as _ <-. apply confined_refl. Qed.

Lemma confines_throw {A : Type} (fp : footprint) (e : exn) :
  confines c fp (@throw A e).
Proof. intros w r w' _ E. injection E as _ <-. apply confined_refl. Qed.

Lemma confines_gets {A : Type} (fp : footprint) (f : World -> A) :
  confines c fp (gets f).
Proof. intros w r w' _ E. injection E as _ <-. apply confined_refl. Qed.

Lemma confines_bind {A B : Type} (fp : footprint) (m : M A) (f : A -> M B) :
  confines c fp m -> (forall a, confines c fp (f a)) ->
  confines c fp (bind m f).
Proof.
  intros Hm Hf w r w' Hc E. unfold bind in E.
  destruct (m w) as [[a|e] w1] eqn:Em.
  - pose proof (Hm _ _ _ Hc Em) as C1.
    eapply confined_trans; [exact C1|].
    eapply Hf; [|exact E]. rewrite (confined_customerId _ _ _ C1). exact Hc.
  - injection E as _ <-. eapply Hm; [exact Hc|exact Em].
Qed.

(** The customer a method reads is the one it runs under. *)
Lemma confines_customer {B : Type} (fp : footprint) (f : value -> M B) :
  confines c fp (f c) -> confines c fp (bind (gets customerId) f).
Proof. intros Hf w r w' Hc E. unfold bind, gets in E. rewrite Hc in E. eauto. Qed.

Lemma confines_try_catch {A : Type} (fp : footprint) (m : M A)
    (handler : exn -> M A) :
  confines c fp m -> (forall e, confines c fp (handler e)) ->
  confines c fp (try_catch m handler).
Proof.
  intros Hm Hh w r w' Hc E. unfold try_catch in E.
  destruct (m w) as [[a|e] w1] eqn:Em.
  - injection E as _ <-. eapply Hm; [exact Hc|exact Em].
  - pose proof (Hm _ _ _ Hc Em) as C1.
    eapply confined_trans; [exact C1|].
    eapply Hh; [|exact E]. rewrite (confined_customerId _ _ _ C1). exact Hc.
Qed.

Lemma confines_forEach {A : Type} (fp : footprint) (l : list A)
    (f : A -> M unit) :
  (forall x, x ∈ l -> confines c fp (f x)) -> confines c fp (forEach l f).
Proof.
  induction l as [|x l IH]; intros Hf; simpl.
  - apply confines_ret.
  - apply confines_bind.
    + apply Hf. now left.
    + intros _. apply IH. intros y Hy. apply Hf. now right.
Qed.

Lemma confines__error (fp : footprint) (message : string) :
  confines c fp (_error message).
Proof. intros w r w' _ E. injection E as _ <-. apply confined_console. Qed.

Lemma confines__log (fp : footprint) (message : string) :
  confines c fp (_log message).
Proof. apply confines_ret. Qed.

Lemma confines_Map_lookup (k : string) :
  confines c (mkFootprint [k] []) (Map_lookup k).
Proof.
  intros w r w' _ E. unfold Map_lookup in E.
  destruct (attributionData w !! k); injection E as _ <-.
  - eapply confined_trans; apply confined_touch; simpl; set_solver.
  - apply confined_touch; simpl; set_solver.
Qed.

Lemma confines_Map_set (k : string) (data : obj) :
  confines c (mkFootprint [k] []) (Map_set k data).
Proof.
  intros w r w' _ E. injection E as _ <-. constructor; try reflexivity.
  - intros k' Hk'. simpl in *. apply lookup_insert_ne. set_solver.
  - exists [MapSet k]. split; [reflexivity|].
    constructor; [simpl; set_solver|constructor].
Qed.

Lemma confines_Map_delete (k : string) :
  confines c (mkFootprint [k] []) (Map_delete k).
Proof.
  intros w r w' _ E. injection E as _ <-. constructor; try reflexivity.
  - intros k' Hk'. simpl in *. apply lookup_delete_ne. set_solver.
  - exists [MapDelete k]. split; [reflexivity|].
    constructor; [simpl; set_solver|constructor].
Qed.

Lemma confines_localStorage_getItem (k : string) :
  confines c (mkFootprint [] [k]) (localStorage_getItem h k).
Proof.
  intros w r w' _ E. unfold localStorage_getItem in E.
  destruct (storage_fault h); injection E as _ <-;
    (apply confined_refl || (apply confined_touch; simpl; set_solver)).
Qed.

Lemma confines_localStorage_setItem (k : string) (t : text) :
  confines c (mkFootprint [] [k]) (localStorage_setItem h k t).
Proof.
  intros w r w' _ E. unfold localStorage_setItem in E.
  destruct (storage_fault h); injection E as _ <-; try apply confined_refl.
  constructor; try reflexivity.
  - intros k' Hk'. simpl in *. apply lookup_insert_ne. set_solver.
  - exists [StorageSet k]. split; [reflexivity|].
    constructor; [simpl; set_solver|constructor].
Qed.

Lemma confines_localStorage_removeItem (k : string) :
  confines c (mkFootprint [] [k]) (localStorage_removeItem h k).
Proof.
  intros w r w' _ E. unfold localStorage_removeItem in E.
  destruct (storage_fault h); injection E as _ <-; try apply confined_refl.
  all: constructor; try reflexivity.
  all: try (intros k' Hk'; simpl in *; apply lookup_delete_ne; set_solver).
  all: exists [StorageRemove k]; split; [reflexivity|];
       constructor; [simpl; set_solver|constructor].
Qed.

Lemma confines__getCookie (k : string) :
  confines c (mkFootprint [] [k]) (_getCookie h k).
Proof.
  intros w r w' _ E. unfold _getCookie in E.
  destruct (storage_fault h); injection E as _ <-;
    (apply confined_refl || (apply confined_touch; simpl; set_solver)).
Qed.

Lemma cookie_write_other (jar : gmap string (text * Z)) (k k' : string)
    (t : text) (expires : Z) :
  k <> k' -> cookie_write h jar k t expires !! k' = jar !! k'.
Proof.
  intros Hne. unfold cookie_write.
  destruct t, (cookie_dropped h k), (Z.leb expires (Date_now h));
    try reflexivity;
    (now apply lookup_delete_ne) || (now apply lookup_insert_ne).
Qed.

Lemma confines__setCookie (k : string) (t : text) (expires : Z) :
  confines c (mkFootprint [] [k]) (_setCookie h k t expires).
Proof.
  intros w r w' _ E. unfold _setCookie in E.
  destruct (storage_fault h); injection E as _ <-; try apply confined_refl.
  all: constructor; try reflexivity.
  all: try (intros k' Hk'; simpl in *; apply cookie_write_other; set_solver).
  all: exists [StorageSet k]; split; [reflexivity|];
       constructor; [simpl; set_solver|constructor].
Qed.

End Footprints.

(** ** Footprints of the store operations *)

Ltac confines_step :=
  match goal with
  | |- confines _ _ (bind (gets customerId) _) => apply confines_customer
  | |- confines _ _ (bind _ _) => apply confines_bind; [|intros ?]
  | |- confines _ _ (try_catch _ _) => apply confines_try_catch; [|intros ?]
  | |- confines _ _ (ret _) => apply confines_ret
  | |- confines _ _ (throw _) => apply confines_throw
  | |- confines _ _ (gets _) => apply confines_gets
  | |- confines _ _ (_error _) => apply confines__error
  | |- confines _ _ (_log _) => apply confines__log
  | |- confines _ _ (JSON_parse ?t) => destruct t; simpl
  | |- confines _ _ (Map_lookup _) =>
      eapply confines_mono; [|apply confines_Map_lookup]; footprint_solver
  | |- confines _ _ (Map_set _ _) =>
      eapply confines_mono; [|apply confines_Map_set]; footprint_solver
  | |- confines _ _ (Map_delete _) =>
      eapply confines_mono; [|apply confines_Map_delete]; footprint_solver
  | |- confines _ _ (localStorage_getItem _ _) =>
      eapply confines_mono; [|apply confines_localStorage_getItem];
      footprint_solver
  | |- confines _ _ (localStorage_setItem _ _ _) =>
      eapply confines_mono; [|apply confines_localStorage_setItem];
      footprint_solver
  | |- confines _ _ (localStorage_removeItem _ _) =>
      eapply confines_mono; [|apply confines_localStorage_removeItem];
      footprint_solver
  | |- confines _ _ (_getCookie _ _) =>
      eapply confines_mono; [|apply confines__getCookie]; footprint_solver
  | |- confines _ _ (_setCookie _ _ _ _) =>
      eapply confines_mono; [|apply confines__setCookie]; footprint_solver
  | |- confines _ _ (if ?b then _ else _) => destruct b
  | |- confines _ _ (match ?x with _ => _ end) => destruct x
  end.

Section StoreFootprints.

Context (cfg : Config) (h : Host) (c : value).

(** The cache key and the storage key of one channel of one product. *)
Definition channel_footprint (productRefId : value) (isSponsored : bool)
  : footprint :=
  mkFootprint [mapKey productRefId isSponsored]
              [storageKey cfg c productRefId isSponsored].

(** Both channels of a product. *)
Definition product_footprint (productRefId : value) : footprint :=
  mkFootprint [mapKey productRefId true; mapKey productRefId false]
              [storageKey cfg c productRefId true;
               storageKey cfg c productRefId false].

Lemma cleanup_confines (p flag : value) :
  confines c (product_footprint p)
    (_cleanupExpiredAttributionData cfg h p flag).
Proof.
  unfold _cleanupExpiredAttributionData. confines_step.
  destruct (negb (truthy c)); [apply confines_ret|].
  apply confines_forEach. intros type _.
  unfold product_footprint.
  destruct (truthy type); repeat confines_step.
Qed.

(** With a boolean flag the cleanup stays within that channel. *)
Lemma cleanup_channel_confines (p : value) (b : bool) :
  confines c (channel_footprint p b)
    (_cleanupExpiredAttributionData cfg h p (VBool b)).
Proof.
  unfold _cleanupExpiredAttributionData. confines_step.
  destruct (negb (truthy c)); [apply confines_ret|].
  apply confines_forEach. intros type Ht.
  apply list_elem_of_singleton in Ht. subst type. simpl.
  unfold channel_footprint. repeat confines_step.
Qed.

Lemma store_confines (p : value) (clickData : obj) :
  confines c (channel_footprint p (truthy (obj_get clickData "isSponsored")))
    (_storeAttributionData cfg h p clickData).
Proof.
  unfold _storeAttributionData, channel_footprint. repeat confines_step.
Qed.

Lemma check_memory_cache_confines (k : string) :
  confines c (mkFootprint [k] []) (check_memory_cache h k).
Proof. unfold check_memory_cache. repeat confines_step. Qed.

Lemma check_persistent_storage_confines (p : value) (sp : bool) :
  confines c (channel_footprint p sp)
    (check_persistent_storage cfg h p sp (mapKey p sp) (storageKey cfg c p sp)).
Proof.
  unfold check_persistent_storage.
  repeat first
    [ apply cleanup_channel_confines
    | match goal with
      | |- confines _ _ (if is_live _ _ then _ else _) =>
          destruct (is_live h _)
      end
    | unfold channel_footprint; confines_step; fold (channel_footprint p sp) ].
Qed.

Lemma getFor_confines (p : value) (sp : bool) :
  confines c (channel_footprint p sp) (_getAttributionDataFor cfg h p sp).
Proof.
  unfold _getAttributionDataFor. confines_step. confines_step.
  - eapply confines_mono; [|apply check_memory_cache_confines].
    footprint_solver.
  - destruct a; [apply confines_ret|].
    apply check_persistent_storage_confines.
Qed.

Lemma channel_in_product (p : value) (sp : bool) :
  footprint_incl (channel_footprint p sp) (product_footprint p).
Proof. destruct sp; footprint_solver. Qed.

Lemma get_confines (p : value) :
  confines c (product_footprint p) (_getAttributionData cfg h p).
Proof.
  unfold _getAttributionData. confines_step.
  destruct (negb (truthy c) || negb (truthy p)); [apply confines_ret|].
  confines_step.
  - eapply confines_mono; [apply channel_in_product|apply getFor_confines].
  - destruct a; [apply confines_ret|].
    eapply confines_mono; [apply channel_in_product|apply getFor_confines].
Qed.

End StoreFootprints.

(** ** Methods that never throw *)

Section Returns.

Context (cfg : Config) (h : Host).

Lemma returns_ret {A : Type} (a : A) : returns (ret a).
Proof. intros w. now exists a, w. Qed.

Lemma returns_gets {A : Type} (f : World -> A) : returns (gets f).
Proof. intros w. now exists (f w), w. Qed.

Lemma returns_modify (f : World -> World) : returns (modify f).
Proof. intros w. now exists tt, (f w). Qed.

Lemma returns_bind {A B : Type} (m : M A) (f : A -> M B) :
  returns m -> (forall a, returns (f a)) -> returns (bind m f).
Proof.
  intros Hm Hf w. destruct (Hm w) as (a & w1 & E1).
  destruct (Hf a w1) as (b & w2 & E2).
  exists b, w2. unfold bind. now rewrite E1.
Qed.

(** Whatever the body does, a handler that returns makes the whole return. *)
Lemma returns_try_catch {A : Type} (m : M A) (handler : exn -> M A) :
  (forall e, returns (handler e)) -> returns (try_catch m handler).
Proof.
  intros Hh w. unfold try_catch.
  destruct (m w) as [[a|e] w1]; [now exists a, w1|apply Hh].
Qed.

Lemma returns_forEach {A : Type} (l : list A) (f : A -> M unit) :
  (forall x, returns (f x)) -> returns (forEach l f).
Proof.
  intros Hf. induction l as [|x l IH]; simpl.
  - apply returns_ret.
  - apply returns_bind; [apply Hf|intros _; exact IH].
Qed.

Lemma returns__error (message : string) : returns (_error message).
Proof. apply returns_modify. Qed.

Lemma returns_Map_lookup (k : string) : returns (Map_lookup k).
Proof.
  intros w. unfold Map_lookup.
  destruct (attributionData w !! k); eauto.
Qed.

Lemma returns_cleanup (p flag : value) :
  returns (_cleanupExpiredAttributionData cfg h p flag).
Proof.
  unfold _cleanupExpiredAttributionData.
  apply returns_bind; [apply returns_gets|intros customer].
  destruct (negb (truthy customer)); [apply returns_ret|].
  apply returns_forEach. intros type.
  apply returns_bind; [apply returns_modify|intros _].
  apply returns_try_catch. intros e. apply returns__error.
Qed.

(** The one way [_storeAttributionData] throws: with a customer and a
    product to store for, one of which does not print, at the key
    templates. *)
Definition store_throws (w : World) (p : value) : bool :=
  truthy (customerId w) && truthy p && negb (keys_print (customerId w) p).

Lemma store_throws_TypeError (p : value) (clickData : obj) (w : World) :
  store_throws w p = true ->
  _storeAttributionData cfg h p clickData w = (Throw TypeError, w).
Proof.
  unfold store_throws, _storeAttributionData, bind at 1, gets.
  destruct (truthy (customerId w)), (truthy p),
    (keys_print (customerId w) p); try discriminate; reflexivity.
Qed.

Lemma returns_store (p : value) (clickData : obj) (w : World) :
  store_throws w p = false ->
  exists w', _storeAttributionData cfg h p clickData w = (Ok tt, w').
Proof.
  unfold store_throws, _storeAttributionData, bind at 1, gets. intros Hs.
  destruct (negb (truthy (customerId w)) || negb (truthy p)) eqn:Hskip;
    [now exists w|].
  apply orb_false_iff in Hskip. destruct Hskip as [Hc Hp].
  apply negb_false_iff in Hc, Hp. rewrite Hc, Hp in Hs. simpl in Hs.
  rewrite Hs.
  match goal with |- context [try_catch ?m ?hd w] =>
    destruct (returns_try_catch m hd
                (fun e => returns__error "Failed to store attribution data:") w)
      as ([] & w' & E)
  end.
  now exists w'.
Qed.

Lemma returns_check_memory_cache (k : string) :
  returns (check_memory_cache h k).
Proof.
  unfold check_memory_cache.
  apply returns_bind; [apply returns_Map_lookup|intros [data|]].
  - destruct (is_live h data); [apply returns_ret|].
    apply returns_bind; [apply returns_modify|intros _; apply returns_ret].
  - apply returns_ret.
Qed.

Lemma returns_getFor (p : value) (sp : bool) :
  returns (_getAttributionDataFor cfg h p sp).
Proof.
  unfold _getAttributionDataFor.
  apply returns_bind; [apply returns_gets|intros customer].
  apply returns_bind; [apply returns_check_memory_cache|intros [data|]].
  - apply returns_ret.
  - apply returns_try_catch. intros e.
    apply returns_bind; [apply returns__error|intros _; apply returns_ret].
Qed.

Lemma returns_get (p : value) : returns (_getAttributionData cfg h p).
Proof.
  unfold _getAttributionData.
  apply returns_bind; [apply returns_gets|intros customer].
  destruct (negb (truthy customer) || negb (truthy p)); [apply returns_ret|].
  apply returns_bind; [apply returns_getFor|intros [data|]].
  - apply returns_ret.
  - apply returns_getFor.
Qed.

End Returns.

(** ** Running a method step by step *)

Section Running.

Lemma bind_ok {A B : Type} (m : M A) (f : A -> M B) (w w1 : World) (a : A) :
  m w = (Ok a, w1) -> bind m f w = f a w1.
Proof. intros E. unfold bind. now rewrite E. Qed.

Lemma bind_throw {A B : Type} (m : M A) (f : A -> M B) (w w1 : World) (e : exn) :
  m w = (Throw e, w1) -> bind m f w = (Throw e, w1).
Proof. intros E. unfold bind. now rewrite E. Qed.

Lemma bind_gets {A B : Type} (g : World -> A) (f : A -> M B) (w : World) :
  bind (gets g) f w = f (g w) w.
Proof. reflexivity. Qed.

Lemma bind_modify {B : Type} (g : World -> World) (f : unit -> M B) (w : World) :
  bind (modify g) f w = f tt (g w).
Proof. reflexivity. Qed.

Lemma bind_ret {A B : Type} (a : A) (f : A -> M B) (w : World) :
  bind (ret a) f w = f a w.
Proof. reflexivity. Qed.

Lemma bind_bind {A B C : Type} (m : M A) (f : A -> M B) (g : B -> M C)
    (w : World) :
  bind (bind m f) g w = bind m (fun a => bind (f a) g) w.
Proof. unfold bind. destruct (m w) as [[a|e] w1]; reflexivity. Qed.

Lemma try_catch_ok {A : Type} (m : M A) (handler : exn -> M A) (w w1 : World)
    (a : A) :
  m w = (Ok a, w1) -> try_catch m handler w = (Ok a, w1).
Proof. intros E. unfold try_catch. now rewrite E. Qed.

Lemma try_catch_throw {A : Type} (m : M A) (handler : exn -> M A)
    (w w1 : World) (e : exn) :
  m w = (Throw e, w1) -> try_catch m handler w = handler e w1.
Proof. intros E. unfold try_catch. now rewrite E. Qed.

End Running.

Ltac mrun :=
  repeat first
    [ rewrite bind_bind | rewrite bind_gets | rewrite bind_modify
    | rewrite bind_ret ].

(** ** What the store operations do *)

Section Effects.

Context (cfg : Config) (h : Host).

(** What the configured backend shows under a key. *)
Definition durable_read (w : World) (k : string) : option text :=
  if use_localStorage cfg h then localStorage w !! k
  else cookie_read h (cookie w) k.

(** The cache holds nothing live under a key. *)
Definition cache_dead (w : World) (k : string) : Prop :=
  forall d, attributionData w !! k = Some d -> is_live h d = false.

Lemma is_live_compares (r : obj) :
  is_live h r = true -> expiry_compares r = true.
Proof. unfold is_live. intros H. now apply andb_true_iff in H. Qed.

Lemma check_memory_cache_hit (k : string) (d : obj) (w : World) :
  attributionData w !! k = Some d -> is_live h d = true ->
  check_memory_cache h k w
  = (Ok (Some d), touch (MapGet k) (touch (MapHas k) w)).
Proof.
  intros Hd Hl. unfold check_memory_cache, bind, Map_lookup.
  rewrite Hd, Hl. reflexivity.
Qed.

Lemma check_memory_cache_dead (k : string) (w : World) :
  cache_dead w k ->
  exists w1,
    check_memory_cache h k w = (Ok None, w1)
    /\ attributionData w1 = delete k (attributionData w)
    /\ localStorage w1 = localStorage w
    /\ cookie w1 = cookie w
    /\ console_error w1 = console_error w
    /\ customerId w1 = customerId w.
Proof.
  intros Hdead. unfold check_memory_cache, bind, Map_lookup.
  destruct (attributionData w !! k) as [d|] eqn:Hd.
  - rewrite (Hdead d Hd). eexists. split; [reflexivity|]. simpl. auto.
  - eexists. split; [reflexivity|]. simpl.
    rewrite delete_id by exact Hd. auto.
Qed.

(** Reading the configured backend. *)
Lemma durable_getItem_ok (k : string) (w : World) :
  storage_fault h <> Unavailable ->
  (if use_localStorage cfg h then localStorage_getItem h k else _getCookie h k) w
  = (Ok (durable_read w k), touch (StorageGet k) w).
Proof.
  intros Hf. unfold durable_read, localStorage_getItem, _getCookie.
  destruct (use_localStorage cfg h), (storage_fault h); congruence.
Qed.

Lemma durable_getItem_unavailable (k : string) (w : World) :
  storage_fault h = Unavailable ->
  (if use_localStorage cfg h then localStorage_getItem h k else _getCookie h k) w
  = (Throw DOMException, w).
Proof.
  intros Hf. unfold localStorage_getItem, _getCookie.
  destruct (use_localStorage cfg h); rewrite Hf; reflexivity.
Qed.

Lemma durable_remove_ok (k : string) (w : World) :
  storage_fault h <> Unavailable ->
  exists w',
    (if use_localStorage cfg h then localStorage_removeItem h k
     else _setCookie h k TEmpty epoch) w = (Ok tt, w')
    /\ attributionData w' = attributionData w
    /\ localStorage w'
       = (if use_localStorage cfg h then delete k (localStorage w)
          else localStorage w)
    /\ cookie w'
       = (if use_localStorage cfg h then cookie w
          else cookie_write h (cookie w) k TEmpty epoch)
    /\ console_error w' = console_error w.
Proof.
  intros Hf. unfold localStorage_removeItem, _setCookie.
  destruct (use_localStorage cfg h), (storage_fault h); try congruence;
    eexists; (split; [reflexivity|]); simpl; auto.
Qed.

(** [_cleanupExpiredAttributionData] on one channel: both copies go. *)
Lemma cleanup_channel_effect (p : value) (b : bool) (w : World) :
  truthy (customerId w) = true -> storage_fault h <> Unavailable ->
  exists w',
    _cleanupExpiredAttributionData cfg h p (VBool b) w = (Ok tt, w')
    /\ attributionData w' = delete (mapKey p b) (attributionData w)
    /\ localStorage w'
       = (if use_localStorage cfg h
          then delete (storageKey cfg (customerId w) p b) (localStorage w)
          else localStorage w)
    /\ cookie w'
       = (if use_localStorage cfg h then cookie w
          else cookie_write h (cookie w)
                 (storageKey cfg (customerId w) p b) TEmpty epoch)
    /\ console_error w' = console_error w.
Proof.
  intros Hc Hf. unfold _cleanupExpiredAttributionData.
  rewrite bind_gets, Hc. simpl. unfold Map_delete. mrun.
  match goal with |- context [bind (try_catch ?m ?hd) ?k ?w0] =>
    destruct (durable_remove_ok (storageKey cfg (customerId w) p b) w0 Hf)
      as (w' & E & Ha & Hl & Hk & He);
    rewrite (bind_ok _ k w0 w' tt (try_catch_ok m hd w0 w' tt E))
  end.
  exists w'. split; [reflexivity|].
  rewrite Ha, Hl, Hk, He. simpl. auto.
Qed.

Lemma durable_read_ext (w w' : World) (k : string) :
  localStorage w' = localStorage w -> cookie w' = cookie w ->
  durable_read w' k = durable_read w k.
Proof. unfold durable_read. now intros -> ->. Qed.

(** The durable part of a channel read, case by case.  [mk] and [sk] are
    the keys of the channel under the world's customer. *)
Section Persistent.

Context (p : value) (sp : bool) (w : World).

Let mk : string := mapKey p sp.
Let sk : string := storageKey cfg (customerId w) p sp.

Lemma persistent_unavailable :
  storage_fault h = Unavailable ->
  exists w',
    check_persistent_storage cfg h p sp mk sk w = (Ok None, w')
    /\ attributionData w' = attributionData w
    /\ localStorage w' = localStorage w
    /\ cookie w' = cookie w
    /\ console_error w'
       = "Failed to retrieve attribution data:" :: console_error w.
Proof.
  intros Hf. unfold check_persistent_storage.
  erewrite try_catch_throw
    by (erewrite bind_throw; [reflexivity|now apply durable_getItem_unavailable]).
  eexists. split; [reflexivity|]. simpl. auto.
Qed.

Lemma persistent_absent :
  storage_fault h <> Unavailable ->
  text_truthy (durable_read w sk) = false ->
  exists w',
    check_persistent_storage cfg h p sp mk sk w = (Ok None, w')
    /\ attributionData w' = attributionData w
    /\ localStorage w' = localStorage w
    /\ cookie w' = cookie w
    /\ console_error w' = console_error w.
Proof.
  intros Hf Ht. unfold check_persistent_storage.
  erewrite try_catch_ok
    by (erewrite bind_ok by (now apply durable_getItem_ok);
        rewrite Ht; reflexivity).
  eexists. split; [reflexivity|]. simpl. auto.
Qed.

(** Text the read throws on: text that is not JSON, the JSON text
    [null], and an object whose [expiresAt] does not compare. *)
Definition unreadable (t : text) : Prop :=
  t = TGarbage \/ t = TJson VNull \/ t = TJson VUndefined
  \/ exists r, t = TJson (VObj r) /\ expiry_compares r = false.

Lemma persistent_unreadable (t : text) :
  storage_fault h <> Unavailable ->
  durable_read w sk = Some t -> unreadable t ->
  exists w',
    check_persistent_storage cfg h p sp mk sk w = (Ok None, w')
    /\ attributionData w' = attributionData w
    /\ localStorage w' = localStorage w
    /\ cookie w' = cookie w
    /\ console_error w'
       = "Failed to retrieve attribution data:" :: console_error w.
Proof.
  intros Hf Hr Ht. unfold check_persistent_storage.
  destruct Ht as [->|[->|[->|(r & -> & Hcmp)]]].
  all: erewrite try_catch_throw
         by (erewrite bind_ok by (now apply durable_getItem_ok);
             rewrite Hr; simpl; rewrite ?bind_ret, ?Hcmp; reflexivity).
  all: eexists; (split; [reflexivity|]); simpl; auto.
Qed.

Lemma persistent_live (r : obj) :
  storage_fault h <> Unavailable ->
  durable_read w sk = Some (TJson (VObj r)) -> is_live h r = true ->
  exists w',
    check_persistent_storage cfg h p sp mk sk w = (Ok (Some r), w')
    /\ attributionData w' = <[mk := r]> (attributionData w)
    /\ localStorage w' = localStorage w
    /\ cookie w' = cookie w
    /\ console_error w' = console_error w.
Proof.
  intros Hf Hr Hl. unfold check_persistent_storage.
  erewrite try_catch_ok; cycle 1.
  - erewrite bind_ok by (now apply durable_getItem_ok). rewrite Hr. simpl.
    rewrite bind_ret, (is_live_compares r Hl), Hl. reflexivity.
  - eexists. split; [reflexivity|]. simpl. auto.
Qed.

(** A parsed value that is read as expired: an object whose [expiresAt]
    compares and has come, or a value that is no object at all. *)
Definition reads_expired (v : value) : Prop :=
  match v with
  | VObj r => expiry_compares r = true /\ is_live h r = false
  | VUndefined | VNull => False
  | _ => True
  end.

Lemma persistent_expired (v : value) :
  truthy (customerId w) = true ->
  storage_fault h <> Unavailable ->
  durable_read w sk = Some (TJson v) -> reads_expired v ->
  exists w',
    check_persistent_storage cfg h p sp mk sk w = (Ok None, w')
    /\ attributionData w' = delete mk (attributionData w)
    /\ localStorage w'
       = (if use_localStorage cfg h then delete sk (localStorage w)
          else localStorage w)
    /\ cookie w'
       = (if use_localStorage cfg h then cookie w
          else cookie_write h (cookie w) sk TEmpty epoch)
    /\ console_error w' = console_error w.
Proof.
  intros Hc Hf Hr Hv. unfold check_persistent_storage.
  destruct (cleanup_channel_effect p sp (touch (StorageGet sk) w) Hc Hf)
    as (w' & E & Ha & Hl & Hk & He).
  exists w'. split; [|now rewrite Ha, Hl, Hk, He].
  erewrite try_catch_ok; [reflexivity|].
  erewrite bind_ok by (now apply durable_getItem_ok). rewrite Hr. simpl.
  rewrite bind_ret.
  destruct v as [| |b|n|s|r|items]; simpl in Hv; try contradiction;
    [| | |rewrite (proj1 Hv), (proj2 Hv); simpl|];
    erewrite bind_ok by exact E; reflexivity.
Qed.

End Persistent.

(** A channel read, case by case. *)
Section ChannelRead.

Context (p : value) (sp : bool) (w : World).

Let mk : string := mapKey p sp.
Let sk : string := storageKey cfg (customerId w) p sp.

Lemma getFor_hit (r : obj) :
  attributionData w !! mk = Some r -> is_live h r = true ->
  exists w',
    _getAttributionDataFor cfg h p sp w = (Ok (Some r), w')
    /\ attributionData w' = attributionData w
    /\ localStorage w' = localStorage w
    /\ cookie w' = cookie w
    /\ console_error w' = console_error w.
Proof.
  intros Hr Hl. unfold _getAttributionDataFor. rewrite bind_gets.
  erewrite bind_ok by (apply check_memory_cache_hit; eassumption).
  eexists. split; [reflexivity|]. simpl. auto.
Qed.

(** Without a live cache entry the read goes on to the durable copy, the
    cache entry gone. *)
Lemma getFor_dead :
  cache_dead w mk ->
  exists w1,
    _getAttributionDataFor cfg h p sp w
    = check_persistent_storage cfg h p sp mk
        (storageKey cfg (customerId w1) p sp) w1
    /\ attributionData w1 = delete mk (attributionData w)
    /\ localStorage w1 = localStorage w
    /\ cookie w1 = cookie w
    /\ console_error w1 = console_error w
    /\ customerId w1 = customerId w.
Proof.
  intros Hdead.
  destruct (check_memory_cache_dead mk w Hdead)
    as (w1 & E & Ha & Hl & Hk & He & Hc).
  exists w1. split; [|auto].
  unfold _getAttributionDataFor. rewrite bind_gets.
  erewrite bind_ok by exact E. now rewrite Hc.
Qed.

Lemma getFor_unavailable :
  cache_dead w mk -> storage_fault h = Unavailable ->
  exists w',
    _getAttributionDataFor cfg h p sp w = (Ok None, w')
    /\ attributionData w' = delete mk (attributionData w)
    /\ localStorage w' = localStorage w
    /\ cookie w' = cookie w
    /\ console_error w'
       = "Failed to retrieve attribution data:" :: console_error w.
Proof.
  intros Hdead Hf.
  destruct (getFor_dead Hdead) as (w1 & -> & Ha & Hl & Hk & He & Hc).
  destruct (persistent_unavailable p sp w1 Hf) as (w' & E & Ha' & Hl' & Hk' & He').
  exists w'. split; [exact E|]. now rewrite Ha', Hl', Hk', He', Ha, Hl, Hk, He.
Qed.

Lemma getFor_absent :
  cache_dead w mk -> storage_fault h <> Unavailable ->
  text_truthy (durable_read w sk) = false ->
  exists w',
    _getAttributionDataFor cfg h p sp w = (Ok None, w')
    /\ attributionData w' = delete mk (attributionData w)
    /\ localStorage w' = localStorage w
    /\ cookie w' = cookie w
    /\ console_error w' = console_error w.
Proof.
  intros Hdead Hf Ht.
  destruct (getFor_dead Hdead) as (w1 & -> & Ha & Hl & Hk & He & Hc).
  destruct (persistent_absent p sp w1 Hf) as (w' & E & Ha' & Hl' & Hk' & He').
  { rewrite Hc, (durable_read_ext w w1) by assumption. exact Ht. }
  exists w'. split; [exact E|]. now rewrite Ha', Hl', Hk', He', Ha, Hl, Hk, He.
Qed.

Lemma getFor_unreadable (t : text) :
  cache_dead w mk -> storage_fault h <> Unavailable ->
  durable_read w sk = Some t -> unreadable t ->
  exists w',
    _getAttributionDataFor cfg h p sp w = (Ok None, w')
    /\ attributionData w' = delete mk (attributionData w)
    /\ localStorage w' = localStorage w
    /\ cookie w' = cookie w
    /\ console_error w'
       = "Failed to retrieve attribution data:" :: console_error w.
Proof.
  intros Hdead Hf Hr Ht.
  destruct (getFor_dead Hdead) as (w1 & -> & Ha & Hl & Hk & He & Hc).
  destruct (persistent_unreadable p sp w1 t Hf) as (w' & E & Ha' & Hl' & Hk' & He').
  { rewrite Hc, (durable_read_ext w w1) by assumption. exact Hr. }
  { exact Ht. }
  exists w'. split; [exact E|]. now rewrite Ha', Hl', Hk', He', Ha, Hl, Hk, He.
Qed.

Lemma getFor_load (r : obj) :
  cache_dead w mk -> storage_fault h <> Unavailable ->
  durable_read w sk = Some (TJson (VObj r)) -> is_live h r = true ->
  exists w',
    _getAttributionDataFor cfg h p sp w = (Ok (Some r), w')
    /\ attributionData w' = <[mk := r]> (attributionData w)
    /\ localStorage w' = localStorage w
    /\ cookie w' = cookie w
    /\ console_error w' = console_error w.
Proof.
  intros Hdead Hf Hr Hlive.
  destruct (getFor_dead Hdead) as (w1 & -> & Ha & Hl & Hk & He & Hc).
  destruct (persistent_live p sp w1 r Hf) as (w' & E & Ha' & Hl' & Hk' & He').
  { rewrite Hc, (durable_read_ext w w1) by assumption. exact Hr. }
  { exact Hlive. }
  exists w'. split; [exact E|].
  rewrite Ha', Hl', Hk', He', Ha, Hl, Hk, He.
  fold mk. now rewrite insert_delete_eq.
Qed.

Lemma getFor_expired (v : value) :
  truthy (customerId w) = true ->
  cache_dead w mk -> storage_fault h <> Unavailable ->
  durable_read w sk = Some (TJson v) -> reads_expired v ->
  exists w',
    _getAttributionDataFor cfg h p sp w = (Ok None, w')
    /\ attributionData w' = delete mk (attributionData w)
    /\ localStorage w'
       = (if use_localStorage cfg h then delete sk (localStorage w)
          else localStorage w)
    /\ cookie w'
       = (if use_localStorage cfg h then cookie w
          else cookie_write h (cookie w) sk TEmpty epoch)
    /\ console_error w' = console_error w.
Proof.
  intros Hcust Hdead Hf Hr Hv.
  destruct (getFor_dead Hdead) as (w1 & -> & Ha & Hl & Hk & He & Hc).
  destruct (persistent_expired p sp w1 v) as (w' & E & Ha' & Hl' & Hk' & He');
    try assumption.
  { now rewrite Hc. }
  { rewrite Hc, (durable_read_ext w w1) by assumption. exact Hr. }
  exists w'. split; [exact E|].
  rewrite Ha', Hl', Hk', He', Ha, Hl, Hk, He, Hc.
  fold mk sk. now rewrite delete_delete_eq.
Qed.

End ChannelRead.

End Effects.

(** ** Recording a click *)

Section Recording.

Context (cfg : Config) (h : Host).

#[local] Arguments cookie_write : simpl never.
#[local] Arguments JSON_stringify : simpl never.

(** The durable write of a record throws: [localStorage.setItem] over
    quota, or a backend that refuses every access. *)
Definition write_fails : bool :=
  match storage_fault h with
  | Healthy => false
  | QuotaExceeded => use_localStorage cfg h
  | Unavailable => true
  end.

Lemma store_skipped (p : value) (clickData : obj) (w : World) :
  truthy (customerId w) && truthy p = false ->
  _storeAttributionData cfg h p clickData w = (Ok tt, w).
Proof.
  intros Hg. unfold _storeAttributionData. rewrite bind_gets.
  destruct (truthy (customerId w)), (truthy p); try discriminate Hg; reflexivity.
Qed.

Lemma store_effect (p : value) (clickData : obj) (w : World) :
  truthy (customerId w) = true -> truthy p = true ->
  keys_print (customerId w) p = true ->
  let sp := truthy (obj_get clickData "isSponsored") in
  let mk := mapKey p sp in
  let sk := storageKey cfg (customerId w) p sp in
  let record := attribution_record cfg h clickData in
  exists w',
    _storeAttributionData cfg h p clickData w = (Ok tt, w')
    /\ attributionData w' = <[mk := record]> (attributionData w)
    /\ localStorage w'
       = (if use_localStorage cfg h && negb write_fails
          then <[sk := JSON_stringify record]> (localStorage w)
          else localStorage w)
    /\ cookie w'
       = (if negb (use_localStorage cfg h) && negb write_fails
          then cookie_write h (cookie w) sk (JSON_stringify record)
                 (toUTCString (Date_now h + attributionWindow cfg))
          else cookie w)
    /\ console_error w'
       = (if write_fails
          then "Failed to store attribution data:" :: console_error w
          else console_error w)
    /\ trace w'
       = ((if write_fails then [MapSet mk] else [StorageSet sk; MapSet mk])
            ++ trace w)%list.
Proof.
  intros Hc Hp Hkp sp mk sk record.
  unfold _storeAttributionData. rewrite bind_gets, Hc, Hp, Hkp.
  simpl orb. simpl negb. cbv iota.
  fold sp mk sk record.
  unfold write_fails, try_catch, bind, Map_set, modify,
    localStorage_setItem, _setCookie, _log, _error, ret.
  destruct (use_localStorage cfg h), (storage_fault h);
    cbn [andb negb fst snd attributionData localStorage cookie console_error
         trace touch with_attributionData with_localStorage with_cookie
         with_console_error app];
    eexists; repeat split; reflexivity.
Qed.

Lemma store_customerId (p : value) (clickData : obj) (w : World) :
  customerId (snd (_storeAttributionData cfg h p clickData w)) = customerId w.
Proof.
  destruct (_storeAttributionData cfg h p clickData w) as [r w'] eqn:E.
  exact (confined_customerId _ _ _
           (store_confines cfg h (customerId w) p clickData w r w' eq_refl E)).
Qed.

(** The fields a record takes from the click. *)
Definition record_fields : list string :=
  [ "clickId"; "eventTime"; "currentUrl"; "referralUrl"; "actionType";
    "contextType"; "redirectUrl"; "clickPosition"; "slot"; "widgetId";
    "routeId"; "recommenderId"; "campaignId"; "tacticId"; "tacticLabel";
    "bannerId"; "placementId"; "retailBoostCollectionCampaignId"; "adSetId";
    "adSetVersion"; "costPerClick"; "costPerAction"; "costPerMille";
    "timeStamp"; "hmacSalt"; "hmac"; "supplierId"; "isSponsored" ].

(** A record is the click's data, field by field, with the instant it was
    stored at and the instant it expires. *)
Lemma attribution_record_fields (clickData : obj) :
  (forall k, In k record_fields ->
     obj_get (attribution_record cfg h clickData) k = obj_get clickData k)
  /\ obj_get (attribution_record cfg h clickData) "storedAt"
     = VNum (Date_now h)
  /\ obj_get (attribution_record cfg h clickData) "expiresAt"
     = VNum (Date_now h + attributionWindow cfg).
Proof.
  split; [|split; reflexivity].
  intros k Hk. simpl in Hk.
  repeat (destruct Hk as [<-|Hk]; [reflexivity|]). contradiction.
Qed.

(** The durable write of a record is lost: it throws, or the browser
    drops the cookie. *)
Definition write_lost (sk : string) : bool :=
  write_fails || (negb (use_localStorage cfg h) && cookie_dropped h sk).

(** What the configured backend shows under [sk] after the durable write
    of [record], [old] being what it showed before: a write that is lost
    leaves what was there; a cookie holds what is left of the text,
    unless it is born expired. *)
Definition after_write (old : option text) (sk : string) (record : obj)
  : option text :=
  if write_lost sk then old
  else if use_localStorage cfg h then Some (JSON_stringify record)
  else if Z.ltb (Date_now h) (toUTCString (Date_now h + attributionWindow cfg))
  then Some (cookie_value (JSON_stringify record))
  else None.

(** The durable write leaves the text of [record] under [sk]. *)
Definition write_keeps (sk : string) (record : obj) : bool :=
  negb (write_lost sk)
  && (use_localStorage cfg h
      || (semicolon_free (json_value (VObj record))
          && Z.ltb (Date_now h)
               (toUTCString (Date_now h + attributionWindow cfg)))).

Lemma after_write_keeps (old : option text) (sk : string) (record : obj) :
  write_keeps sk record = true ->
  after_write old sk record = Some (JSON_stringify record).
Proof.
  unfold write_keeps, after_write. intros H.
  apply andb_true_iff in H. destruct H as [Hw H].
  apply negb_true_iff in Hw. rewrite Hw.
  destruct (use_localStorage cfg h); [reflexivity|].
  cbn [orb] in H. apply andb_true_iff in H. destruct H as [Hsemi Hnow].
  rewrite Hnow. unfold JSON_stringify, cookie_value. now rewrite Hsemi.
Qed.

Lemma cookie_read_write (jar : gmap string (text * Z)) (k : string)
    (record : obj) (e : Z) :
  cookie_read h (cookie_write h jar k (JSON_stringify record) e) k
  = (if cookie_dropped h k then cookie_read h jar k
     else if Z.ltb (Date_now h) e
          then Some (cookie_value (JSON_stringify record)) else None).
Proof.
  unfold cookie_read, cookie_write, JSON_stringify.
  destruct (cookie_dropped h k); [reflexivity|].
  destruct (Z.leb_spec e (Date_now h)) as [Hle|Hgt].
  - rewrite lookup_delete_eq.
    destruct (Z.ltb_spec (Date_now h) e); [lia|reflexivity].
  - rewrite lookup_insert_eq. reflexivity.
Qed.

Lemma cookie_read_remove (jar : gmap string (text * Z)) (k : string) :
  cookie_read h (cookie_write h jar k TEmpty epoch) k
  = (if Z.ltb (Date_now h) epoch then Some TEmpty else None).
Proof.
  unfold cookie_read, cookie_write.
  destruct (Z.leb_spec epoch (Date_now h)) as [Hle|Hgt].
  - rewrite lookup_delete_eq.
    destruct (Z.ltb_spec (Date_now h) epoch); [lia|reflexivity].
  - rewrite lookup_insert_eq. reflexivity.
Qed.

(** What the store leaves in the durable backend under its key. *)
Lemma store_durable_read (p : value) (clickData : obj) (w : World) :
  truthy (customerId w) = true -> truthy p = true ->
  keys_print (customerId w) p = true ->
  let sp := truthy (obj_get clickData "isSponsored") in
  let sk := storageKey cfg (customerId w) p sp in
  let w' := snd (_storeAttributionData cfg h p clickData w) in
  durable_read cfg h w' sk
  = after_write (durable_read cfg h w sk) sk (attribution_record cfg h clickData).
Proof.
  intros Hc Hp Hkp sp sk w'.
  destruct (store_effect p clickData w Hc Hp Hkp)
    as (x & Ex & _ & L & K & _).
  assert (Hw' : w' = x) by (unfold w'; now rewrite Ex).
  fold sp sk in L, K. unfold durable_read, after_write, write_lost.
  rewrite Hw', L, K.
  destruct (use_localStorage cfg h), write_fails;
    cbn [andb negb orb]; try reflexivity.
  - apply lookup_insert_eq.
  - rewrite cookie_read_write. reflexivity.
Qed.

End Recording.

Section Overwrite.

Context (cfg : Config).

(** C6, as the code has it (overwrite, last click wins).  Two successive
    [_storeAttributionData] calls for one key (one customer and one
    product, both of which print, and one channel) leave the second
    record in the cache: the second click's data, field by field, with
    the second call's instants; the cache is what the second call alone
    would have left.  The durable backend shows what the second write
    made of what the first call left.  Where the second write keeps its
    text, that is the JSON text of the second record, and [localStorage]
    and the cookie jar are what the second call alone would have left, so
    that nothing of the first record remains.  Where the second write
    throws or the browser drops the cookie, the durable backend is as the
    first call left it, with the first record where the first write kept
    it, while the cache holds the second. *)
Theorem record_twice_keeps_second_only (h1 h2 : Host) (p : value)
    (first second : obj) (w : World) :
  truthy (customerId w) = true ->
  truthy p = true ->
  keys_print (customerId w) p = true ->
  truthy (obj_get first "isSponsored") = truthy (obj_get second "isSponsored") ->
  localStorage_defined h1 = localStorage_defined h2 ->
  let sp := truthy (obj_get second "isSponsored") in
  let sk := storageKey cfg (customerId w) p sp in
  let record1 := attribution_record cfg h1 first in
  let record2 := attribution_record cfg h2 second in
  let w1 := snd (_storeAttributionData cfg h1 p first w) in
  let w2 := snd (_storeAttributionData cfg h2 p second w1) in
  let once := snd (_storeAttributionData cfg h2 p second w) in
  (attributionData w2 !! mapKey p sp = Some record2
   /\ attributionData w2 = attributionData once
   /\ (forall k, In k record_fields -> obj_get record2 k = obj_get second k)
   /\ obj_get record2 "storedAt" = VNum (Date_now h2)
   /\ obj_get record2 "expiresAt" = VNum (Date_now h2 + attributionWindow cfg))
  /\ durable_read cfg h2 w2 sk
     = after_write cfg h2 (durable_read cfg h2 w1 sk) sk record2
  /\ (write_keeps cfg h2 sk record2 = true ->
      durable_read cfg h2 w2 sk = Some (JSON_stringify record2)
      /\ localStorage w2 = localStorage once
      /\ cookie w2 = cookie once)
  /\ (write_lost cfg h2 sk = true ->
      localStorage w2 = localStorage w1
      /\ cookie w2 = cookie w1
      /\ durable_read cfg h2 w2 sk = durable_read cfg h2 w1 sk
      /\ (write_keeps cfg h1 sk record1 = true ->
          durable_read cfg h1 w1 sk = Some (JSON_stringify record1))).
Proof.
  intros Hc Hp Hkp Hch Hls sp sk record1 record2 w1 w2 once.
  assert (Hbackend : use_localStorage cfg h1 = use_localStorage cfg h2).
  { unfold use_localStorage. now rewrite Hls. }
  assert (C1 : customerId w1 = customerId w)
    by (unfold w1; apply store_customerId).
  assert (Hc1 : truthy (customerId w1) = true) by now rewrite C1.
  assert (Hkp1 : keys_print (customerId w1) p = true) by now rewrite C1.
  destruct (store_effect cfg h1 p first w Hc Hp Hkp)
    as (x1 & E1 & A1 & L1 & K1 & _ & _).
  destruct (store_effect cfg h2 p second w1 Hc1 Hp Hkp1)
    as (x2 & E2 & A2 & L2 & K2 & _ & _).
  destruct (store_effect cfg h2 p second w Hc Hp Hkp)
    as (x3 & E3 & A3 & L3 & K3 & _ & _).
  assert (W1 : w1 = x1) by (unfold w1; now rewrite E1).
  assert (W2 : w2 = x2) by (unfold w2; now rewrite E2).
  assert (W3 : once = x3) by (unfold once; now rewrite E3).
  rewrite <- W1 in A1, L1, K1. rewrite <- W2 in A2, L2, K2.
  rewrite <- W3 in A3, L3, K3. clear x1 x2 x3 E1 E2 E3 W1 W2 W3.
  rewrite C1 in L2, K2.
  rewrite Hch in A1, L1, K1. rewrite Hbackend in L1, K1.
  fold sp sk record1 record2 in A1, L1, K1, A2, L2, K2, A3, L3, K3.
  assert (D2 : durable_read cfg h2 w2 sk
               = after_write cfg h2 (durable_read cfg h2 w1 sk) sk record2).
  { pose proof (store_durable_read cfg h2 p second w1 Hc1 Hp Hkp1) as D.
    cbv zeta in D. rewrite C1 in D. exact D. }
  assert (D1 : durable_read cfg h1 w1 sk
               = after_write cfg h1 (durable_read cfg h1 w sk) sk record1).
  { pose proof (store_durable_read cfg h1 p first w Hc Hp Hkp) as D.
    cbv zeta in D. rewrite Hch in D. exact D. }
  destruct (attribution_record_fields cfg h2 second) as (F & S & X).
  split; [|split; [exact D2|split]].
  - split; [rewrite A2; apply lookup_insert_eq|].
    split; [rewrite A2, A3, A1; apply insert_insert_eq|].
    split; [exact F|]. split; [exact S|exact X].
  - intros Hk. split; [rewrite D2; now apply after_write_keeps|].
    unfold write_keeps, write_lost in Hk. apply andb_true_iff in Hk.
    destruct Hk as [Hw _]. apply negb_true_iff in Hw.
    apply orb_false_iff in Hw. destruct Hw as [Hw Hd].
    rewrite L2, L3, K2, K3, L1, K1, Hw.
    destruct (use_localStorage cfg h2); cbn [andb negb orb] in *.
    + split; [|reflexivity].
      destruct (write_fails cfg h1); cbn [andb negb];
        [reflexivity|apply insert_insert_eq].
    + split; [reflexivity|].
      destruct (write_fails cfg h1); cbn [andb negb]; [reflexivity|].
      unfold cookie_write, JSON_stringify. rewrite Hd.
      destruct (cookie_dropped h1 sk); [reflexivity|].
      destruct (Z.leb _ (Date_now h2)), (Z.leb _ (Date_now h1)).
      * apply delete_delete_eq.
      * apply delete_insert_eq.
      * apply insert_delete_eq.
      * apply insert_insert_eq.
  - intros Hfail.
    assert (Hsame : localStorage w2 = localStorage w1
                    /\ cookie w2 = cookie w1).
    { rewrite L2, K2. unfold write_lost in Hfail.
      apply orb_true_iff in Hfail. destruct Hfail as [Hw|Hd].
      - rewrite Hw, !andb_false_r. split; reflexivity.
      - apply andb_true_iff in Hd. destruct Hd as [Hu Hd].
        apply negb_true_iff in Hu. rewrite Hu. cbn [andb negb].
        split; [reflexivity|].
        destruct (write_fails cfg h2); [reflexivity|].
        unfold cookie_write, JSON_stringify. now rewrite Hd. }
    destruct Hsame as [HL HK].
    split; [exact HL|]. split; [exact HK|].
    split; [unfold durable_read; now rewrite HL, HK|].
    intros Hk1. rewrite D1. now apply after_write_keeps.
Qed.

End Overwrite.

Section Clicks.

Context (cfg : Config) (h : Host).

(** A click with a commercial context: a product, and a widget or an ad
    set. *)
Definition click_stores (eventData : obj) : bool :=
  truthy (obj_get eventData "refId")
  && (truthy (obj_get eventData "widgetId")
      || truthy (obj_get eventData "adSetId")).

(** The ways [trackClick] throws, all of them on a click with a commercial
    context: at the comparison of [adSetId.length], and at the key
    templates of [_storeAttributionData]. *)
Definition click_throws (w : World) (eventData : obj) : bool :=
  click_stores eventData
  && (negb (adSetId_compares eventData)
      || store_throws w (obj_get eventData "refId")).

(** A click that throws leaves everything as it was: nothing is stored and
    the click is not queued. *)
Lemma trackClick_throws (eventData : obj) (w : World) :
  click_throws w eventData = true ->
  trackClick cfg h eventData w = (Throw TypeError, w).
Proof.
  unfold click_throws, click_stores, trackClick. intros H.
  apply andb_true_iff in H. destruct H as [Hs H]. rewrite Hs.
  destruct (adSetId_compares eventData); cbn [negb orb] in H.
  - cbn [negb]. cbv iota.
    erewrite bind_throw; [reflexivity|].
    now apply store_throws_TypeError.
  - reflexivity.
Qed.

(** Every other click joins the queue, whatever became of its attribution
    record. *)
Lemma trackClick_queues (eventData : obj) (w : World) :
  click_throws w eventData = false ->
  exists w1,
    (if truthy (obj_get eventData "refId")
        && (truthy (obj_get eventData "widgetId")
            || truthy (obj_get eventData "adSetId"))
     then _storeAttributionData cfg h (obj_get eventData "refId")
            (spread (click_event h eventData)
               [("isSponsored", VBool (click_isSponsored h eventData))])
     else ret tt) w = (Ok tt, w1)
    /\ trackClick cfg h eventData w
       = (Ok (_cleanObject (click_event h eventData)),
          with_pendingEvents
            (pendingEvents w1
               ++ [("clicks", _cleanObject (click_event h eventData))])%list
            w1).
Proof.
  unfold click_throws, click_stores, trackClick. intros H.
  destruct (truthy (obj_get eventData "refId")
            && (truthy (obj_get eventData "widgetId")
                || truthy (obj_get eventData "adSetId"))).
  - cbn [andb] in H. apply orb_false_iff in H. destruct H as [Hcmp Hst].
    apply negb_false_iff in Hcmp. rewrite Hcmp. cbn [negb]. cbv iota.
    destruct (returns_store cfg h (obj_get eventData "refId")
                (spread (click_event h eventData)
                   [("isSponsored", VBool (click_isSponsored h eventData))])
                w Hst) as (w1 & E).
    exists w1. split; [exact E|].
    erewrite bind_ok by exact E. reflexivity.
  - exists w. split; reflexivity.
Qed.

(** A value of declared type [string | undefined]. *)
Definition optional_string (v : value) : Prop :=
  v = VUndefined \/ exists s, v = VStr s.

(** A non-empty string. *)
Definition nonempty_string (v : value) : bool :=
  match v with
  | VStr s => negb (String.eqb s "")
  | _ => false
  end.

(** [!!(adSetId && adSetId.length > 0)], by the kind of value [adSetId]
    is: a string or an array that is not empty, or an object with a
    [length] above 0.  A number has no [length]. *)
Definition has_positive_length (str_num : string -> option Z) (v : value)
  : bool :=
  match v with
  | VStr s => negb (String.eqb s "")
  | VArr items => negb (Nat.eqb (List.length items) 0)
  | VObj o => js_gt str_num (obj_get o "length") 0
  | _ => false
  end.

Lemma click_isSponsored_kinds (eventData : obj) :
  click_isSponsored h eventData
  = has_positive_length (string_to_number h) (obj_get eventData "adSetId").
Proof.
  unfold click_isSponsored, has_positive_length.
  destruct (obj_get eventData "adSetId") as [| |b|n|s|o|items];
    try reflexivity.
  - simpl. now destruct b.
  - simpl. now rewrite andb_false_r.
  - destruct s as [|a s]; [reflexivity|].
    unfold js_gt, to_number, js_length. simpl.
    destruct (Z.ltb_spec 0 (Z.pos (Pos.of_succ_nat (String.length s))));
      [reflexivity|lia].
  - destruct items as [|x items]; [reflexivity|].
    unfold js_gt, to_number, js_length. simpl.
    destruct (Z.ltb_spec 0 (Z.pos (Pos.of_succ_nat (List.length items))));
      [reflexivity|lia].
Qed.

Lemma click_isSponsored_string (eventData : obj) :
  optional_string (obj_get eventData "adSetId") ->
  click_isSponsored h eventData = nonempty_string (obj_get eventData "adSetId").
Proof.
  rewrite click_isSponsored_kinds. now intros [->|[s ->]].
Qed.

(** The record a click leaves. *)
Definition click_record (eventData : obj) : obj :=
  attribution_record cfg h
    (spread (click_event h eventData)
       [("isSponsored", VBool (click_isSponsored h eventData))]).

Lemma click_record_isSponsored (eventData : obj) :
  obj_get (click_record eventData) "isSponsored"
  = VBool (click_isSponsored h eventData).
Proof. reflexivity. Qed.

(** C7, as the code has it.  [trackClick] stores an attribution record
    exactly when the session has a customer id, the event has a [refId]
    and a [widgetId] or an [adSetId], and the call does not throw (it
    throws, and then stores and queues nothing, when the customer id or
    the [refId] does not print, or the [length] of the [adSetId] does not
    compare).  Then the cache holds the record under the key of the
    derived channel, and the durable backend shows what the write made of
    what was there: the record's text where the write keeps it.
    Otherwise neither the cache nor the durable backend is touched.  The
    channel is derived once, at the click: the record's [isSponsored]
    flag is [!!(adSetId && adSetId.length > 0)], which is true for an
    [adSetId] that is a non-empty string (or a non-empty array, or an
    object with a positive [length]) and false for every other, a number
    among them; a later read of that channel returns the record with the
    flag it was stored with. *)
Theorem trackClick_stores_commercial_clicks (eventData : obj) (w : World) :
  let refId := obj_get eventData "refId" in
  let stores := truthy (customerId w) && click_stores eventData in
  let sponsored := click_isSponsored h eventData in
  let mk := mapKey refId sponsored in
  let sk := storageKey cfg (customerId w) refId sponsored in
  let record := click_record eventData in
  let w' := snd (trackClick cfg h eventData w) in
  (click_throws w eventData = true ->
     trackClick cfg h eventData w = (Throw TypeError, w))
  /\ (click_throws w eventData = false -> stores = true ->
     attributionData w' = <[mk := record]> (attributionData w)
     /\ (exists new, trace w' = (new ++ trace w)%list /\ In (MapSet mk) new)
     /\ durable_read cfg h w' sk
        = after_write cfg h (durable_read cfg h w sk) sk record
     /\ (write_keeps cfg h sk record = true ->
           durable_read cfg h w' sk = Some (JSON_stringify record))
     /\ (forall later : Host,
           is_live later record = true ->
           fst (_getAttributionDataFor cfg later refId sponsored w')
           = Ok (Some record)))
  /\ (click_throws w eventData = false -> stores = false ->
        attributionData w' = attributionData w
        /\ localStorage w' = localStorage w
        /\ cookie w' = cookie w
        /\ trace w' = trace w)
  /\ obj_get record "isSponsored" = VBool sponsored
  /\ sponsored
     = has_positive_length (string_to_number h) (obj_get eventData "adSetId")
  /\ (forall n, obj_get eventData "adSetId" = VNum n -> sponsored = false)
  /\ (forall s, obj_get eventData "adSetId" = VStr s ->
        sponsored = negb (String.eqb s "")).
Proof.
  intros refId stores sponsored mk sk record w'.
  split; [apply trackClick_throws|].
  assert (Hkinds : sponsored
                   = has_positive_length (string_to_number h)
                       (obj_get eventData "adSetId"))
    by apply click_isSponsored_kinds.
  split; [|split; [|split; [apply click_record_isSponsored|split;
    [exact Hkinds|split; [intros n Hn|intros s Hs]]]]].
  - intros Hthrows Hst.
    destruct (trackClick_queues eventData w Hthrows) as (w1 & E1 & E).
    fold refId sponsored in E1.
    assert (Hw' : w' = with_pendingEvents
              (pendingEvents w1
                 ++ [("clicks", _cleanObject (click_event h eventData))])%list w1)
      by (unfold w'; now rewrite E).
    apply andb_true_iff in Hst. destruct Hst as [Hc Hcom].
    unfold click_stores in Hcom. fold refId in Hcom.
    rewrite Hcom in E1.
    unfold click_throws, click_stores in Hthrows. fold refId in Hthrows.
    rewrite Hcom in Hthrows. cbn [andb] in Hthrows.
    apply orb_false_iff in Hthrows. destruct Hthrows as [_ Hst].
    apply andb_true_iff in Hcom. destruct Hcom as [Hp _].
    unfold store_throws in Hst. rewrite Hc, Hp in Hst. cbn [andb] in Hst.
    apply negb_false_iff in Hst.
    destruct (store_effect cfg h refId
                (spread (click_event h eventData)
                   [("isSponsored", VBool sponsored)]) w Hc Hp Hst)
      as (x & Ex & A & _ & _ & _ & T).
    rewrite E1 in Ex. injection Ex as <-.
    pose proof (store_durable_read cfg h refId
                  (spread (click_event h eventData)
                     [("isSponsored", VBool sponsored)]) w Hc Hp Hst) as D.
    cbv zeta in D. rewrite E1 in D. cbn [snd] in D.
    change (truthy (obj_get (spread (click_event h eventData)
                               [("isSponsored", VBool sponsored)])
                      "isSponsored")) with sponsored in A, T, D.
    fold mk sk in A, T, D. fold (click_record eventData) in A, D.
    fold record in A, D.
    assert (Ha : attributionData w' = <[mk := record]> (attributionData w))
      by (rewrite Hw'; exact A).
    assert (Hd : durable_read cfg h w' sk
                 = after_write cfg h (durable_read cfg h w sk) sk record).
    { rewrite Hw'. exact D. }
    split; [exact Ha|]. split; [|split; [exact Hd|split]].
    + exists (if write_fails cfg h then [MapSet mk]
              else [StorageSet sk; MapSet mk]).
      split; [rewrite Hw'; exact T|].
      destruct (write_fails cfg h); simpl; auto.
    + intros Hk. rewrite Hd. now apply after_write_keeps.
    + intros later Hlive.
      destruct (getFor_hit cfg later refId sponsored w' record)
        as (w2 & E2 & _); [|exact Hlive|now rewrite E2].
      fold mk. rewrite Ha. apply lookup_insert_eq.
  - intros Hthrows Hst.
    destruct (trackClick_queues eventData w Hthrows) as (w1 & E1 & E).
    fold refId sponsored in E1.
    assert (Hw' : w' = with_pendingEvents
              (pendingEvents w1
                 ++ [("clicks", _cleanObject (click_event h eventData))])%list w1)
      by (unfold w'; now rewrite E).
    assert (Hw1 : w1 = w).
    { unfold stores, click_stores in Hst. fold refId in Hst.
      destruct (truthy refId
                && (truthy (obj_get eventData "widgetId")
                    || truthy (obj_get eventData "adSetId"))) eqn:Hcom.
      - rewrite store_skipped in E1; [now injection E1 as <-|].
        apply andb_true_iff in Hcom. destruct Hcom as [Hp _].
        rewrite andb_true_r in Hst.
        now rewrite Hp, andb_true_r.
      - now injection E1 as <-. }
    rewrite Hw', Hw1. simpl. auto.
  - rewrite Hkinds, Hn. reflexivity.
  - rewrite Hkinds, Hs. reflexivity.
Qed.

End Clicks.

(** ** Failing writes *)

Section FailingWrites.

Context (cfg : Config) (h : Host).

(** C9, as the code has it.  [_storeAttributionData] throws in one case
    only: the customer id or the product reference does not print, and
    the key templates, which stand before the [try], throw a TypeError;
    nothing is stored then, and [trackClick] throws with it and does not
    queue the click.  In every other case the call returns.  When the
    durable write throws, the error is logged with [console.error] and
    durable storage is left as it was; the cache, written first, keeps
    the new record.  [trackClick] then queues the click event all the
    same. *)
Theorem record_never_throws (p : value) (clickData : obj) (w : World) :
  (store_throws w p = false ->
   exists w',
     _storeAttributionData cfg h p clickData w = (Ok tt, w')
     /\ customerId w' = customerId w
     /\ pendingEvents w' = pendingEvents w
     /\ (truthy (customerId w) = true -> truthy p = true ->
         write_fails cfg h = true ->
         console_error w'
         = "Failed to store attribution data:" :: console_error w
         /\ localStorage w' = localStorage w
         /\ cookie w' = cookie w
         /\ attributionData w'
            = <[mapKey p (truthy (obj_get clickData "isSponsored"))
                  := attribution_record cfg h clickData]> (attributionData w)))
  /\ (store_throws w p = true ->
      _storeAttributionData cfg h p clickData w = (Throw TypeError, w))
  /\ (forall eventData,
        click_throws w eventData = false ->
        exists event w'',
          trackClick cfg h eventData w = (Ok event, w'')
          /\ exists w1, pendingEvents w''
                        = (pendingEvents w1 ++ [("clicks", event)])%list
                        /\ pendingEvents w1 = pendingEvents w)
  /\ (forall eventData,
        click_throws w eventData = true ->
        trackClick cfg h eventData w = (Throw TypeError, w)).
Proof.
  split; [|split; [apply store_throws_TypeError|split]].
  - intros Hst.
    destruct (returns_store cfg h p clickData w Hst) as (w' & E).
    pose proof (store_confines cfg h (customerId w) p clickData w _ w' eq_refl E)
      as C.
    exists w'. split; [exact E|].
    split; [exact (confined_customerId _ _ _ C)|].
    split; [exact (confined_pendingEvents _ _ _ C)|].
    intros Hc Hp Hfail.
    assert (Hkp : keys_print (customerId w) p = true).
    { unfold store_throws in Hst. rewrite Hc, Hp in Hst.
      now apply negb_false_iff in Hst. }
    destruct (store_effect cfg h p clickData w Hc Hp Hkp)
      as (x & Ex & A & L & K & Err & _).
    rewrite E in Ex. injection Ex as <-.
    rewrite Hfail in L, K, Err. rewrite andb_false_r in L, K. auto.
  - intros eventData Hthrows.
    destruct (trackClick_queues cfg h eventData w Hthrows) as (w1 & E1 & Et).
    eexists _, _. split; [exact Et|].
    exists w1. split; [reflexivity|].
    destruct (truthy (obj_get eventData "refId") && _).
    + exact (confined_pendingEvents _ _ _
               (store_confines cfg h (customerId w) _ _ w _ w1 eq_refl E1)).
    + now injection E1 as <-.
  - intros eventData. apply trackClick_throws.
Qed.

End FailingWrites.

(** ** Merging a record into an event *)

Section Merging.

Context (cfg : Config) (h : Host).

(** A record that is not sponsored gives the event none of the
    retail-media fields: each is as the event had it. *)
Lemma merge_organic_field (base record : obj) (k : string) :
  truthy (obj_get record "isSponsored") = false ->
  In k sponsored_fields ->
  obj_get (_mergeAttributionData base record) k = obj_get base k
  /\ obj_has (_mergeAttributionData base record) k = obj_has base k.
Proof.
  intros Hflag Hk. unfold _mergeAttributionData. rewrite Hflag.
  change (spread ?o []) with o.
  simpl in Hk.
  repeat (destruct Hk as [<-|Hk];
          [split; [apply obj_get_spread_other|apply obj_has_spread_other];
           reflexivity|]).
  contradiction.
Qed.

(** The core fields of the merged event are the record's. *)
Lemma merge_core_field (base record : obj) (k : string) :
  In k core_fields ->
  obj_get (_mergeAttributionData base record) k = obj_get record k.
Proof.
  intros Hk. unfold _mergeAttributionData.
  assert (Hnd : forall o : obj, NoDup (map fst
    [ ("recommenderId", obj_get o "recommenderId");
      ("campaignId", obj_get o "campaignId");
      ("tacticId", obj_get o "tacticId");
      ("tacticLabel", obj_get o "tacticLabel");
      ("bannerId", obj_get o "bannerId");
      ("placementId", obj_get o "placementId");
      ("widgetId", obj_get o "widgetId");
      ("routeId", obj_get o "routeId");
      ("retailBoostCollectionCampaignId",
         obj_get o "retailBoostCollectionCampaignId") ])).
  { intros o. simpl. repeat (apply NoDup_cons; split; [set_solver|]).
    apply NoDup_nil_2. }
  simpl in Hk.
  repeat (destruct Hk as [<-|Hk];
          [rewrite obj_get_spread_other
             by (destruct (truthy (obj_get record "isSponsored")); reflexivity);
           rewrite obj_get_spread_named by (apply Hnd || reflexivity);
           reflexivity|]).
  contradiction.
Qed.

(** Fields the merge does not name stay as the event had them. *)
Lemma merge_other_field (base record : obj) (k : string) :
  ~ In k core_fields -> ~ In k sponsored_fields ->
  obj_get (_mergeAttributionData base record) k = obj_get base k.
Proof.
  intros Hcore Hsp. unfold _mergeAttributionData.
  assert (Hhas : forall (l : obj), map fst l = sponsored_fields \/ map fst l = core_fields ->
                 obj_has l k = false).
  { intros l Hl. assert (Hn : ~ In k (map fst l)) by (destruct Hl as [-> | ->]; assumption).
    clear Hl. induction l as [|[k0 v0] l IH]; simpl in *; [reflexivity|].
    destruct (String.eqb_spec k0 k); [tauto|apply IH; tauto]. }
  rewrite obj_get_spread_other.
  - apply obj_get_spread_other. apply Hhas. now right.
  - destruct (truthy (obj_get record "isSponsored")); [|reflexivity].
    apply Hhas. now left.
Qed.

End Merging.

Section Enriching.

Context (cfg : Config) (h : Host).

(** The retail-media fields [_enrichProductData] copies from the caller's
    product; [supplierId] is not among them. *)
Definition copied_sponsored_fields : list string :=
  [ "adSetId"; "adSetVersion"; "costPerClick"; "costPerAction";
    "costPerMille"; "timeStamp"; "hmacSalt"; "hmac" ].

(** C5, as the code has it.  A product enriched from a record that is not
    sponsored takes none of the retail-media fields from the record: in
    the enriched product each of [adSetId], [adSetVersion],
    [costPerClick], [costPerAction], [costPerMille], [timeStamp],
    [hmacSalt], [hmac] has the value the caller's product had for it
    ([_enrichProductData] copies them, [undefined] when the product had
    none), and [supplierId] is absent.  In general the merge leaves every
    retail-media field of its event as it was. *)
Theorem organic_enrichment_takes_no_sponsored_field (product : value)
    (record : obj) (w w' : World) (enriched : obj) :
  _prepareProductWithAttribution cfg h product w
  = (Ok (enriched, Some record), w') ->
  truthy (obj_get record "isSponsored") = false ->
  enriched = _mergeAttributionData (_enrichProductData product) record
  /\ Forall (fun k => obj_get enriched k = member product k)
       copied_sponsored_fields
  /\ obj_has enriched "supplierId" = false
  /\ (forall (base : obj) (k : string),
        In k sponsored_fields ->
        obj_get (_mergeAttributionData base record) k = obj_get base k
        /\ obj_has (_mergeAttributionData base record) k = obj_has base k).
Proof.
  intros E Hflag.
  assert (He : enriched
               = _mergeAttributionData (_enrichProductData product) record).
  { unfold _prepareProductWithAttribution, bind in E.
    destruct (prop product "refId" w) as [[refId|e] w1]; [|discriminate E].
    destruct (_getAttributionData cfg h refId w1) as [[found|e] w2];
      [|discriminate E].
    unfold ret in E. destruct found; injection E as <- ; congruence. }
  split; [exact He|]. subst enriched.
  split; [|split].
  - apply Forall_forall. intros k Hk. apply list_elem_of_In in Hk.
    assert (Hsp : In k sponsored_fields) by (simpl in *; tauto).
    rewrite (proj1 (merge_organic_field _ record k Hflag Hsp)).
    simpl in Hk.
    repeat (destruct Hk as [<-|Hk]; [reflexivity|]). contradiction.
  - rewrite (proj2 (merge_organic_field _ record "supplierId" Hflag
                      ltac:(simpl; tauto))).
    reflexivity.
  - intros base k Hk. now apply merge_organic_field.
Qed.

End Enriching.

Section AddToCart.

Context (cfg : Config) (h : Host).

(** Cleaning keeps a property that holds a string. *)
Lemma cleanObject_keeps_string (o : obj) (k s : string) :
  obj_get o k = VStr s -> obj_get (_cleanObject o) k = VStr s.
Proof.
  unfold _cleanObject. simpl.
  induction o as [|[k' x] o IH]; simpl; intros H; [discriminate H|].
  destruct (String.eqb k' k) eqn:E.
  - subst x. simpl. now rewrite E.
  - destruct x as [| |b|n|s'|props|items]; simpl; rewrite ?E; auto.
    match goal with |- context [match ?c with _ => _ end] => destruct c end;
      simpl; rewrite ?E; auto.
Qed.

(** The event [trackAddToCart] builds when the caller gave the click. *)
Definition addToCart_manual_event (eventData : obj) : obj :=
  _mergeAttributionData (addToCart_baseEvent h eventData None) eventData.

(** C10.  A [trackAddToCart] call whose event data carries a truthy
    [clickId] never consults the attribution store: the cache, the durable
    backend, the error log and the access trace are as they were, however
    the call ends.  If the event names a product, the call queues the
    event built from the caller's data alone: its [clickId] and its core
    attribution fields are those of [eventData] (and survive cleaning
    where they are strings). *)
Theorem addToCart_with_clickId_leaves_store (eventData : obj) (w : World) :
  truthy (obj_get eventData "clickId") = true ->
  let run := trackAddToCart cfg h eventData w in
  let event := addToCart_manual_event eventData in
  (attributionData (snd run) = attributionData w
   /\ localStorage (snd run) = localStorage w
   /\ cookie (snd run) = cookie w
   /\ console_error (snd run) = console_error w
   /\ trace (snd run) = trace w)
  /\ (obj_get eventData "product" <> VUndefined ->
      obj_get eventData "product" <> VNull ->
      fst run = Ok (_cleanObject event)
      /\ pendingEvents (snd run)
         = (pendingEvents w ++ [("add-to-carts", _cleanObject event)])%list)
  /\ obj_get event "clickId" = obj_get eventData "clickId"
  /\ (forall k, In k core_fields ->
        obj_get event k = obj_get eventData k
        /\ (forall s, obj_get eventData k = VStr s ->
              obj_get (_cleanObject event) k = VStr s)).
Proof.
  intros Hclick run event.
  assert (Hrun : run = (Throw TypeError, w)
                 \/ (obj_get eventData "product" <> VUndefined
                     /\ obj_get eventData "product" <> VNull
                     /\ run = (Ok (_cleanObject event),
                               with_pendingEvents
                                 (pendingEvents w
                                    ++ [("add-to-carts", _cleanObject event)])%list
                                 w))).
  { unfold run, trackAddToCart. rewrite Hclick. simpl negb. cbv iota.
    destruct (obj_get eventData "product") eqn:Hp;
      try (left; reflexivity); right; (split; [discriminate|]);
      (split; [discriminate|]); unfold event, addToCart_manual_event;
      rewrite ?Hp; reflexivity. }
  split; [|split; [|split]].
  - destruct Hrun as [-> | (_ & _ & ->)]; simpl; auto.
  - intros Hu Hn. destruct Hrun as [Hthrow | (_ & _ & ->)]; [|simpl; auto].
    exfalso. unfold run, trackAddToCart in Hthrow. rewrite Hclick in Hthrow.
    destruct (obj_get eventData "product"); try contradiction;
      discriminate Hthrow.
  - unfold event, addToCart_manual_event.
    rewrite merge_other_field by (simpl; intuition discriminate).
    reflexivity.
  - intros k Hk.
    assert (Hev : obj_get event k = obj_get eventData k)
      by (now apply merge_core_field).
    split; [exact Hev|].
    intros s Hs. apply cleanObject_keeps_string. now rewrite Hev.
Qed.

End AddToCart.

(** ** Resolving attribution *)

Section Resolving.

Context (cfg : Config) (h : Host).

(** The durable backend holds no live record under a key. *)
Definition durable_dead (w : World) (sk : string) : Prop :=
  forall r, durable_read cfg h w sk = Some (TJson (VObj r)) ->
            is_live h r = false.

(** A channel of a product holds [r], live: in the cache, or in the
    durable backend with nothing live in the cache before it. *)
Definition holds_live (w : World) (p : value) (sp : bool) (r : obj) : Prop :=
  is_live h r = true
  /\ (attributionData w !! mapKey p sp = Some r
      \/ (cache_dead h w (mapKey p sp)
          /\ durable_read cfg h w (storageKey cfg (customerId w) p sp)
             = Some (TJson (VObj r)))).

(** A channel of a product holds nothing live. *)
Definition channel_dead (w : World) (p : value) (sp : bool) : Prop :=
  cache_dead h w (mapKey p sp)
  /\ durable_dead w (storageKey cfg (customerId w) p sp).

Lemma cleanup_skipped (p flag : value) (w : World) :
  truthy (customerId w) = false ->
  _cleanupExpiredAttributionData cfg h p flag w = (Ok tt, w).
Proof.
  intros Hc. unfold _cleanupExpiredAttributionData.
  rewrite bind_gets, Hc. reflexivity.
Qed.

(** The state of the two stores. *)
Definition same_durable (w w' : World) : Prop :=
  localStorage w' = localStorage w /\ cookie w' = cookie w.

(** The durable entry under [sk] is removed. *)
Definition durable_removed (sk : string) (w w' : World) : Prop :=
  localStorage w'
  = (if use_localStorage cfg h then delete sk (localStorage w)
     else localStorage w)
  /\ cookie w'
     = (if use_localStorage cfg h then cookie w
        else cookie_write h (cookie w) sk TEmpty epoch).

(** Why a channel read that reached the durable backend came back empty
    and left it alone. *)
Definition miss_reason (w : World) (sk : string) : Prop :=
  storage_fault h = Unavailable
  \/ text_truthy (durable_read cfg h w sk) = false
  \/ (exists t, durable_read cfg h w sk = Some t /\ unreadable t)
  \/ (truthy (customerId w) = false
      /\ exists v, durable_read cfg h w sk = Some (TJson v)
                   /\ reads_expired h v).

(** Every channel read ends in one of four ways. *)
Inductive read_outcome (p : value) (sp : bool) (w : World)
  : option obj -> World -> Prop :=
| read_hit (r : obj) (w' : World) :
    attributionData w !! mapKey p sp = Some r ->
    is_live h r = true ->
    attributionData w' = attributionData w ->
    same_durable w w' ->
    read_outcome p sp w (Some r) w'
| read_load (r : obj) (w' : World) :
    cache_dead h w (mapKey p sp) ->
    storage_fault h <> Unavailable ->
    durable_read cfg h w (storageKey cfg (customerId w) p sp)
    = Some (TJson (VObj r)) ->
    is_live h r = true ->
    attributionData w' = <[mapKey p sp := r]> (attributionData w) ->
    same_durable w w' ->
    read_outcome p sp w (Some r) w'
| read_miss (w' : World) :
    cache_dead h w (mapKey p sp) ->
    miss_reason w (storageKey cfg (customerId w) p sp) ->
    attributionData w' = delete (mapKey p sp) (attributionData w) ->
    same_durable w w' ->
    read_outcome p sp w None w'
| read_expired (v : value) (w' : World) :
    cache_dead h w (mapKey p sp) ->
    truthy (customerId w) = true ->
    storage_fault h <> Unavailable ->
    durable_read cfg h w (storageKey cfg (customerId w) p sp)
    = Some (TJson v) ->
    reads_expired h v ->
    attributionData w' = delete (mapKey p sp) (attributionData w) ->
    durable_removed (storageKey cfg (customerId w) p sp) w w' ->
    read_outcome p sp w None w'.

Lemma persistent_expired_no_customer (p : value) (sp : bool) (w : World)
    (v : value) :
  truthy (customerId w) = false ->
  storage_fault h <> Unavailable ->
  durable_read cfg h w (storageKey cfg (customerId w) p sp) = Some (TJson v) ->
  reads_expired h v ->
  exists w',
    check_persistent_storage cfg h p sp (mapKey p sp)
      (storageKey cfg (customerId w) p sp) w = (Ok None, w')
    /\ attributionData w' = attributionData w
    /\ localStorage w' = localStorage w
    /\ cookie w' = cookie w.
Proof.
  intros Hc Hf Hr Hv. unfold check_persistent_storage.
  erewrite try_catch_ok; cycle 1.
  - erewrite bind_ok by (now apply durable_getItem_ok). rewrite Hr. simpl.
    rewrite bind_ret.
    destruct v as [| |b|n|s|r|items]; simpl in Hv; try contradiction;
      [| | |rewrite (proj1 Hv), (proj2 Hv); simpl|];
      (erewrite bind_ok by (now apply cleanup_skipped));
      reflexivity.
  - eexists. split; [reflexivity|]. simpl. auto.
Qed.

Lemma getFor_expired_outcome (p : value) (sp : bool) (w : World) (v : value) :
  cache_dead h w (mapKey p sp) ->
  storage_fault h <> Unavailable ->
  durable_read cfg h w (storageKey cfg (customerId w) p sp) = Some (TJson v) ->
  reads_expired h v ->
  exists w',
    _getAttributionDataFor cfg h p sp w = (Ok None, w')
    /\ read_outcome p sp w None w'.
Proof.
  intros Hdead Hf Hr Hv.
  destruct (truthy (customerId w)) eqn:Hc.
  - destruct (getFor_expired cfg h p sp w v Hc Hdead Hf Hr Hv)
      as (w' & E & A & L & K & _).
    exists w'. split; [exact E|].
    eapply read_expired; eauto. now split.
  - destruct (getFor_dead cfg h p sp w Hdead)
      as (w1 & E1 & A1 & L1 & K1 & _ & C1).
    destruct (persistent_expired_no_customer p sp w1 v)
      as (w' & E & A & L & K); try assumption.
    { now rewrite C1. }
    { rewrite C1, (durable_read_ext cfg h w w1) by assumption. exact Hr. }
    exists w'. split; [now rewrite E1|].
    apply read_miss; [exact Hdead| |congruence|split; congruence].
    right. right. right. split; [exact Hc|]. now exists v.
Qed.

Lemma getFor_outcome_dead (p : value) (sp : bool) (w : World) :
  cache_dead h w (mapKey p sp) ->
  exists res w',
    _getAttributionDataFor cfg h p sp w = (Ok res, w')
    /\ read_outcome p sp w res w'.
Proof.
  intros Hdead.
  set (sk := storageKey cfg (customerId w) p sp).
  assert (Hmiss : forall w',
            miss_reason w sk ->
            attributionData w' = delete (mapKey p sp) (attributionData w) ->
            localStorage w' = localStorage w -> cookie w' = cookie w ->
            read_outcome p sp w None w').
  { intros w' Hwhy A L K. apply read_miss; auto. now split. }
  destruct (storage_fault h) eqn:Hfault.
  3: { destruct (getFor_unavailable cfg h p sp w Hdead Hfault)
         as (w' & E & A & L & K & _).
       exists None, w'. split; [exact E|]. apply Hmiss; auto. now left. }
  all: assert (Hf : storage_fault h <> Unavailable) by congruence.
  all: destruct (durable_read cfg h w sk) as [t|] eqn:Hr.
  all: try (destruct (getFor_absent cfg h p sp w Hdead Hf)
              as (w' & E & A & L & K & _);
            [fold sk; now rewrite Hr|];
            exists None, w'; split; [exact E|]; apply Hmiss; auto;
            right; left; now rewrite Hr).
  all: destruct t as [| |v].
  all: try (destruct (getFor_absent cfg h p sp w Hdead Hf)
              as (w' & E & A & L & K & _);
            [fold sk; now rewrite Hr|];
            exists None, w'; split; [exact E|]; apply Hmiss; auto;
            right; left; now rewrite Hr).
  all: try (destruct (getFor_unreadable cfg h p sp w TGarbage Hdead Hf Hr)
              as (w' & E & A & L & K & _); [now left|];
            exists None, w'; split; [exact E|]; apply Hmiss; auto;
            right; right; left; exists TGarbage; split; [exact Hr|now left]).
  all: destruct v as [| |b|n|s|r|items].
  all: try (destruct (getFor_unreadable cfg h p sp w _ Hdead Hf Hr)
              as (w' & E & A & L & K & _); [right; auto|];
            exists None, w'; split; [exact E|]; apply Hmiss; auto;
            right; right; left; eexists; split; [exact Hr|right; auto];
            fail).
  all: try (destruct (getFor_expired_outcome p sp w _ Hdead Hf Hr I)
              as (w' & E & O); exists None, w'; split; [exact E|exact O];
            fail).
  all: destruct (is_live h r) eqn:Hl.
  all: try (destruct (getFor_load cfg h p sp w r Hdead Hf Hr Hl)
              as (w' & E & A & L & K & _);
            exists (Some r), w'; split; [exact E|];
            apply read_load; auto; now split).
  all: destruct (expiry_compares r) eqn:Hcmp.
  all: try (destruct (getFor_expired_outcome p sp w (VObj r) Hdead Hf Hr
                        (conj Hcmp Hl))
              as (w' & E & O); exists None, w'; split; [exact E|exact O];
            fail).
  all: assert (Hu : unreadable (TJson (VObj r)))
         by (right; right; right; exists r; split; [reflexivity|exact Hcmp]).
  all: destruct (getFor_unreadable cfg h p sp w _ Hdead Hf Hr Hu)
         as (w' & E & A & L & K & _);
       exists None, w'; split; [exact E|]; apply Hmiss; auto;
       right; right; left; eexists; split; [exact Hr|exact Hu].
Qed.

Lemma getFor_outcome (p : value) (sp : bool) (w : World) :
  exists res w',
    _getAttributionDataFor cfg h p sp w = (Ok res, w')
    /\ read_outcome p sp w res w'.
Proof.
  destruct (attributionData w !! mapKey p sp) as [d|] eqn:Hd.
  - destruct (is_live h d) eqn:Hl.
    + destruct (getFor_hit cfg h p sp w d Hd Hl) as (w' & E & A & L & K & _).
      exists (Some d), w'. split; [exact E|]. apply read_hit; auto. now split.
    + apply getFor_outcome_dead. intros d' Hd'. congruence.
  - apply getFor_outcome_dead. intros d' Hd'. congruence.
Qed.

(** A read never returns an expired record. *)
Lemma getFor_some_live (p : value) (sp : bool) (w w' : World) (r : obj) :
  _getAttributionDataFor cfg h p sp w = (Ok (Some r), w') ->
  is_live h r = true.
Proof.
  intros E. destruct (getFor_outcome p sp w) as (res & w1 & E1 & O).
  rewrite E in E1. injection E1 as <- <-.
  inversion O; assumption.
Qed.

(** A channel that holds a live record yields it, and has it cached. *)
Lemma getFor_holds (p : value) (sp : bool) (w : World) (r : obj) :
  storage_fault h <> Unavailable ->
  holds_live w p sp r ->
  exists w',
    _getAttributionDataFor cfg h p sp w = (Ok (Some r), w')
    /\ attributionData w' = <[mapKey p sp := r]> (attributionData w)
    /\ same_durable w w'.
Proof.
  intros Hf [Hl [Hc|[Hdead Hd]]].
  - destruct (getFor_hit cfg h p sp w r Hc Hl) as (w' & E & A & L & K & _).
    exists w'. split; [exact E|]. split; [|now split].
    rewrite A. symmetry. now apply insert_id.
  - destruct (getFor_load cfg h p sp w r Hdead Hf Hd Hl)
      as (w' & E & A & L & K & _).
    exists w'. split; [exact E|]. split; [exact A|now split].
Qed.

(** A channel that holds nothing live yields nothing. *)
Lemma getFor_none (p : value) (sp : bool) (w : World) :
  channel_dead w p sp ->
  exists w',
    _getAttributionDataFor cfg h p sp w = (Ok None, w')
    /\ attributionData w' = delete (mapKey p sp) (attributionData w)
    /\ (same_durable w w'
        \/ durable_removed (storageKey cfg (customerId w) p sp) w w').
Proof.
  intros [Hc Hd]. destruct (getFor_outcome p sp w) as (res & w' & E & O).
  inversion O; subst.
  - exfalso. specialize (Hc r). intuition congruence.
  - exfalso. specialize (Hd r). intuition congruence.
  - exists w'. auto.
  - exists w'. auto.
Qed.

(** *** What a read of one channel leaves of another *)

Lemma storageKey_ne (c p q : value) (sp sq : bool) :
  mapKey p sp <> mapKey q sq -> storageKey cfg c p sp <> storageKey cfg c q sq.
Proof.
  intros Hne Heq. apply storageKey_inj in Heq. destruct Heq as [Hs ->].
  apply Hne. now apply mapKey_to_string.
Qed.

Lemma durable_read_lookup (w w' : World) (k : string) :
  localStorage w' !! k = localStorage w !! k ->
  cookie w' !! k = cookie w !! k ->
  durable_read cfg h w' k = durable_read cfg h w k.
Proof.
  intros L K. unfold durable_read, cookie_read. now rewrite L, K.
Qed.

(** What a method confined to other keys leaves of a channel: all. *)
Lemma confined_channel (fp : footprint) (w w' : World) (p : value) (sp : bool) :
  confined fp w w' ->
  mapKey p sp ∉ cache_keys fp ->
  storageKey cfg (customerId w) p sp ∉ storage_keys fp ->
  attributionData w' !! mapKey p sp = attributionData w !! mapKey p sp
  /\ durable_read cfg h w' (storageKey cfg (customerId w') p sp)
     = durable_read cfg h w (storageKey cfg (customerId w) p sp).
Proof.
  intros C Hm Hs. split.
  - now apply (confined_attributionData _ _ _ C).
  - rewrite (confined_customerId _ _ _ C). apply durable_read_lookup.
    + now apply (confined_localStorage _ _ _ C).
    + now apply (confined_cookie _ _ _ C).
Qed.

Lemma holds_live_ext (w w' : World) (p : value) (sp : bool) (r : obj) :
  attributionData w' !! mapKey p sp = attributionData w !! mapKey p sp ->
  durable_read cfg h w' (storageKey cfg (customerId w') p sp)
  = durable_read cfg h w (storageKey cfg (customerId w) p sp) ->
  holds_live w p sp r -> holds_live w' p sp r.
Proof.
  unfold holds_live, cache_dead. intros -> ->. tauto.
Qed.

Lemma channel_dead_ext (w w' : World) (p : value) (sp : bool) :
  attributionData w' !! mapKey p sp = attributionData w !! mapKey p sp ->
  durable_read cfg h w' (storageKey cfg (customerId w') p sp)
  = durable_read cfg h w (storageKey cfg (customerId w) p sp) ->
  channel_dead w p sp -> channel_dead w' p sp.
Proof.
  unfold channel_dead, cache_dead, durable_dead. intros -> ->. tauto.
Qed.

(** Products that print alike share their channels. *)
Lemma holds_live_to_string (w : World) (p q : value) (sp : bool) (r : obj) :
  to_string p = to_string q -> holds_live w p sp r -> holds_live w q sp r.
Proof.
  intros Hs. unfold holds_live.
  now rewrite (mapKey_to_string p q sp Hs),
              (storageKey_to_string cfg _ p q sp Hs).
Qed.

Lemma channel_dead_to_string (w : World) (p q : value) (sp : bool) :
  to_string p = to_string q -> channel_dead w p sp -> channel_dead w q sp.
Proof.
  intros Hs. unfold channel_dead.
  now rewrite (mapKey_to_string p q sp Hs),
              (storageKey_to_string cfg _ p q sp Hs).
Qed.

Lemma durable_read_removed (sk : string) (w w' : World) :
  durable_removed sk w w' ->
  durable_read cfg h w' sk = None
  \/ durable_read cfg h w' sk = Some TEmpty.
Proof.
  intros [L K]. unfold durable_read. rewrite L, K.
  destruct (use_localStorage cfg h).
  - left. apply lookup_delete_eq.
  - rewrite cookie_read_remove. destruct (Z.ltb (Date_now h) epoch); auto.
Qed.

(** A read keeps every live record, of its own channel and of the
    others. *)
Lemma getFor_preserves_live (q : value) (sq : bool) (w w' : World)
    (res : result (option obj)) (p : value) (sp : bool) (r : obj) :
  _getAttributionDataFor cfg h q sq w = (res, w') ->
  holds_live w p sp r -> holds_live w' p sp r.
Proof.
  intros E H.
  pose proof (getFor_confines cfg h (customerId w) q sq w res w' eq_refl E) as C.
  destruct (decide (mapKey p sp = mapKey q sq)) as [Heq|Hne].
  - apply mapKey_inj in Heq. destruct Heq as [Hs ->].
    apply (holds_live_to_string w' q p sq r (eq_sym Hs)).
    apply (holds_live_to_string w p q sq r Hs) in H.
    destruct (getFor_outcome q sq w) as (res1 & w1 & E1 & O).
    rewrite E in E1. injection E1 as -> <-.
    destruct H as [Hl H]. split; [exact Hl|].
    rewrite (confined_customerId _ _ _ C).
    inversion O as [r0 w0 Hc0 Hl0 A [L K]|r0 w0 Hd0 Hf0 Hr0 Hl0 A [L K]
                   |w0 Hd0 Hwhy A [L K]|v w0 Hd0 Hc0 Hf0 Hr0 Hv0 A R]; subst.
    + left. rewrite A. destruct H as [H|[Hd _]]; [exact H|].
      specialize (Hd r0 Hc0). congruence.
    + left. rewrite A, lookup_insert_eq.
      destruct H as [H|[_ Hr]]; [specialize (Hd0 r H); congruence|].
      congruence.
    + right. destruct H as [H|[_ Hr]]; [specialize (Hd0 r H); congruence|].
      split.
      * intros d Hd. rewrite A, lookup_delete_eq in Hd. discriminate Hd.
      * rewrite <- Hr. apply durable_read_ext; assumption.
    + exfalso. destruct H as [H|[_ Hr]]; [specialize (Hd0 r H); congruence|].
      rewrite Hr in Hr0. injection Hr0 as <-. destruct Hv0 as [_ Hv0].
      congruence.
  - destruct (confined_channel _ w w' p sp C) as [A D].
    + simpl. set_solver.
    + simpl. pose proof (storageKey_ne (customerId w) p q sp sq Hne).
      set_solver.
    + exact (holds_live_ext w w' p sp r A D H).
Qed.

(** A read leaves empty what was empty. *)
Lemma getFor_preserves_dead (q : value) (sq : bool) (w w' : World)
    (res : result (option obj)) (p : value) (sp : bool) :
  _getAttributionDataFor cfg h q sq w = (res, w') ->
  channel_dead w p sp -> channel_dead w' p sp.
Proof.
  intros E H.
  pose proof (getFor_confines cfg h (customerId w) q sq w res w' eq_refl E) as C.
  destruct (decide (mapKey p sp = mapKey q sq)) as [Heq|Hne].
  - apply mapKey_inj in Heq. destruct Heq as [Hs ->].
    apply (channel_dead_to_string w' q p sq (eq_sym Hs)).
    apply (channel_dead_to_string w p q sq Hs) in H.
    destruct (getFor_outcome q sq w) as (res1 & w1 & E1 & O).
    rewrite E in E1. injection E1 as -> <-.
    destruct H as [Hc Hd]. unfold channel_dead.
    rewrite (confined_customerId _ _ _ C).
    inversion O as [r0 w0 Hc0 Hl0 A [L K]|r0 w0 Hd0 Hf0 Hr0 Hl0 A [L K]
                   |w0 Hd0 Hwhy A [L K]|v w0 Hd0 Hc0 Hf0 Hr0 Hv0 A R]; subst.
    + exfalso. specialize (Hc r0 Hc0). congruence.
    + exfalso. specialize (Hd r0 Hr0). congruence.
    + split.
      * intros d Hd'. rewrite A, lookup_delete_eq in Hd'. discriminate Hd'.
      * intros r Hr. apply Hd. rewrite <- Hr. symmetry.
        apply durable_read_ext; assumption.
    + split.
      * intros d Hd'. rewrite A, lookup_delete_eq in Hd'. discriminate Hd'.
      * intros r Hr. destruct (durable_read_removed _ _ _ R) as [N|N];
          rewrite N in Hr; discriminate Hr.
  - destruct (confined_channel _ w w' p sp C) as [A D].
    + simpl. set_solver.
    + simpl. pose proof (storageKey_ne (customerId w) p q sp sq Hne).
      set_solver.
    + exact (channel_dead_ext w w' p sp A D H).
Qed.

(** *** [_getAttributionData] *)

Lemma get_skipped (p : value) (w : World) :
  truthy (customerId w) && truthy p = false ->
  _getAttributionData cfg h p w = (Ok None, w).
Proof.
  intros Hg. unfold _getAttributionData. rewrite bind_gets.
  destruct (truthy (customerId w)), (truthy p); try discriminate Hg;
    reflexivity.
Qed.

Lemma get_sponsored_first (p : value) (w : World) :
  truthy (customerId w) = true -> truthy p = true ->
  _getAttributionData cfg h p w
  = bind (_getAttributionDataFor cfg h p true)
      (fun sponsored =>
         match sponsored with
         | Some data => ret (Some data)
         | None => _getAttributionDataFor cfg h p false
         end) w.
Proof.
  intros Hc Hp. unfold _getAttributionData. rewrite bind_gets, Hc, Hp.
  reflexivity.
Qed.

Lemma get_preserves_live (q : value) (w w' : World)
    (res : result (option obj)) (p : value) (sp : bool) (r : obj) :
  _getAttributionData cfg h q w = (res, w') ->
  holds_live w p sp r -> holds_live w' p sp r.
Proof.
  intros E H. destruct (truthy (customerId w) && truthy q) eqn:Hg.
  - apply andb_true_iff in Hg. destruct Hg as [Hc Hq].
    rewrite get_sponsored_first in E by assumption. unfold bind in E.
    destruct (_getAttributionDataFor cfg h q true w) as [[[d|]|e] w1] eqn:E1.
    + injection E as _ <-. eapply getFor_preserves_live; eauto.
    + eapply getFor_preserves_live; [exact E|].
      eapply getFor_preserves_live; eauto.
    + injection E as _ <-. eapply getFor_preserves_live; eauto.
  - rewrite get_skipped in E by exact Hg. now injection E as _ <-.
Qed.

Lemma get_preserves_dead (q : value) (w w' : World)
    (res : result (option obj)) (p : value) (sp : bool) :
  _getAttributionData cfg h q w = (res, w') ->
  channel_dead w p sp -> channel_dead w' p sp.
Proof.
  intros E H. destruct (truthy (customerId w) && truthy q) eqn:Hg.
  - apply andb_true_iff in Hg. destruct Hg as [Hc Hq].
    rewrite get_sponsored_first in E by assumption. unfold bind in E.
    destruct (_getAttributionDataFor cfg h q true w) as [[[d|]|e] w1] eqn:E1.
    + injection E as _ <-. eapply getFor_preserves_dead; eauto.
    + eapply getFor_preserves_dead; [exact E|].
      eapply getFor_preserves_dead; eauto.
    + injection E as _ <-. eapply getFor_preserves_dead; eauto.
  - rewrite get_skipped in E by exact Hg. now injection E as _ <-.
Qed.

(** The record [_getAttributionData] comes back with is live. *)
Lemma get_some_live (p : value) (w w' : World) (r : obj) :
  _getAttributionData cfg h p w = (Ok (Some r), w') -> is_live h r = true.
Proof.
  intros E. destruct (truthy (customerId w) && truthy p) eqn:Hg.
  - apply andb_true_iff in Hg. destruct Hg as [Hc Hp].
    rewrite get_sponsored_first in E by assumption. unfold bind in E.
    destruct (_getAttributionDataFor cfg h p true w) as [[[d|]|e] w1] eqn:E1.
    + injection E as <- <-. eapply getFor_some_live; eauto.
    + eapply getFor_some_live; eauto.
    + discriminate E.
  - rewrite get_skipped in E by exact Hg. discriminate E.
Qed.

(** With a live sponsored record the resolution is the sponsored read. *)
Lemma get_sponsored (p : value) (w : World) (r : obj) :
  truthy (customerId w) = true -> truthy p = true ->
  storage_fault h <> Unavailable ->
  holds_live w p true r ->
  exists w',
    _getAttributionData cfg h p w = (Ok (Some r), w')
    /\ _getAttributionDataFor cfg h p true w = (Ok (Some r), w')
    /\ attributionData w' = <[mapKey p true := r]> (attributionData w)
    /\ same_durable w w'.
Proof.
  intros Hc Hp Hf H.
  destruct (getFor_holds p true w r Hf H) as (w' & E & A & D).
  exists w'. split; [|auto].
  rewrite get_sponsored_first by assumption.
  erewrite bind_ok by exact E. reflexivity.
Qed.

(** With nothing live on the sponsored channel it is the organic read. *)
Lemma get_organic (p : value) (w : World) (r : obj) :
  truthy (customerId w) = true -> truthy p = true ->
  storage_fault h <> Unavailable ->
  channel_dead w p true -> holds_live w p false r ->
  exists w',
    _getAttributionData cfg h p w = (Ok (Some r), w')
    /\ channel_dead w' p true
    /\ holds_live w' p false r.
Proof.
  intros Hc Hp Hf Hs Ho.
  destruct (getFor_none p true w Hs) as (w1 & E1 & _).
  pose proof (getFor_preserves_live _ _ _ _ _ p false r E1 Ho) as Ho1.
  pose proof (getFor_preserves_dead _ _ _ _ _ p true E1 Hs) as Hs1.
  destruct (getFor_holds p false w1 r Hf Ho1) as (w' & E & _).
  exists w'. split; [|split].
  - rewrite get_sponsored_first by assumption.
    erewrite bind_ok by exact E1. exact E.
  - eapply getFor_preserves_dead; eauto.
  - eapply getFor_preserves_live; eauto.
Qed.

(** With nothing live on either channel there is nothing to resolve. *)
Lemma get_none (p : value) (w : World) :
  channel_dead w p true -> channel_dead w p false ->
  exists w', _getAttributionData cfg h p w = (Ok None, w').
Proof.
  intros Hs Ho. destruct (truthy (customerId w) && truthy p) eqn:Hg.
  - apply andb_true_iff in Hg. destruct Hg as [Hc Hp].
    destruct (getFor_none p true w Hs) as (w1 & E1 & _).
    pose proof (getFor_preserves_dead _ _ _ _ _ p false E1 Ho) as Ho1.
    destruct (getFor_none p false w1 Ho1) as (w' & E & _).
    exists w'. rewrite get_sponsored_first by assumption.
    erewrite bind_ok by exact E1. exact E.
  - exists w. now apply get_skipped.
Qed.

End Resolving.

(** ** Priority of the sponsored channel *)

Section Priority.

Context (cfg : Config) (h : Host).

(** No access is to both channels of a product. *)
Lemma channels_disjoint (c p : value) (a : access) :
  access_within (channel_footprint cfg c p true) a ->
  ~ access_within (channel_footprint cfg c p false) a.
Proof.
  pose proof (mapKey_channel_ne p true) as Hm.
  pose proof (storageKey_channel_ne cfg c p true) as Hs.
  destruct a; simpl; set_solver.
Qed.

(** C1 (priority).  When a product has a live sponsored record and a live
    organic record under the current customer, [_getAttributionData]
    returns the sponsored record and makes no access to the organic
    channel, whose record stays as it was.  In general, a resolution that
    accessed the organic channel is one whose sponsored read came back
    with nothing. *)
Theorem sponsored_record_wins (p : value) (sponsored organic : obj)
    (w : World) :
  truthy (customerId w) = true ->
  truthy p = true ->
  storage_fault h <> Unavailable ->
  holds_live cfg h w p true sponsored ->
  holds_live cfg h w p false organic ->
  (exists w',
     _getAttributionData cfg h p w = (Ok (Some sponsored), w')
     /\ (exists new,
           trace w' = (new ++ trace w)%list
           /\ Forall (fun a =>
                        ~ access_within
                            (channel_footprint cfg (customerId w) p false) a)
                new)
     /\ holds_live cfg h w' p false organic)
  /\ (forall (q : value) (w0 w1 : World) (found : option obj) (new : list access),
        _getAttributionData cfg h q w0 = (Ok found, w1) ->
        trace w1 = (new ++ trace w0)%list ->
        Exists (access_within (channel_footprint cfg (customerId w0) q false))
          new ->
        exists wm, _getAttributionDataFor cfg h q true w0 = (Ok None, wm)).
Proof.
  intros Hc Hp Hf Hs Ho. split.
  - destruct (get_sponsored cfg h p w sponsored Hc Hp Hf Hs)
      as (w' & E & EF & _ & _).
    exists w'. split; [exact E|]. split.
    + destruct (confined_trace _ _ _
                  (getFor_confines cfg h (customerId w) p true w _ w' eq_refl EF))
        as (new & T & F).
      exists new. split; [exact T|].
      eapply Forall_impl; [exact F|]. intros a. apply channels_disjoint.
    + eapply get_preserves_live; eauto.
  - intros q w0 w1 found new E T X.
    destruct (truthy (customerId w0) && truthy q) eqn:Hg.
    + apply andb_true_iff in Hg. destruct Hg as [Hc0 Hq].
      destruct (returns_getFor cfg h q true w0) as ([d|] & wm & EF);
        [|now exists wm].
      exfalso. rewrite get_sponsored_first in E by assumption.
      erewrite bind_ok in E by exact EF. injection E as _ <-.
      destruct (confined_trace _ _ _
                  (getFor_confines cfg h (customerId w0) q true w0 _ wm
                     eq_refl EF)) as (n & Tn & F).
      rewrite Tn in T. apply app_inv_tail in T. subst n.
      apply Exists_exists in X. destruct X as (a & Ha & Hw).
      rewrite Forall_forall in F.
      exact (channels_disjoint _ _ _ (F a Ha) Hw).
    + exfalso. rewrite get_skipped in E by exact Hg. injection E as _ <-.
      assert (new = []) as ->.
      { apply (app_inv_tail (trace w0)). simpl. now symmetry. }
      now apply Exists_nil in X.
Qed.

End Priority.

(** ** Expiry *)

Section Expiry.

Context (cfg : Config) (h : Host).

(** A record whose [expiresAt] has come. *)
Definition expired (r : obj) : Prop :=
  exists e, obj_get r "expiresAt" = VNum e /\ e <= Date_now h.

Lemma expired_compares (r : obj) : expired r -> expiry_compares r = true.
Proof. intros (e & He & _). unfold expiry_compares. now rewrite He. Qed.

Lemma expired_not_live (r : obj) : expired r -> is_live h r = false.
Proof.
  intros (e & He & Hle). unfold is_live, expiry_compares, js_gt.
  rewrite He. simpl.
  destruct (Z.ltb_spec (Date_now h) e); [lia|reflexivity].
Qed.

Lemma expired_reads_expired (r : obj) :
  expired r -> reads_expired h (VObj r).
Proof.
  intros H. split; [now apply expired_compares|now apply expired_not_live].
Qed.

(** A channel holds the expired record [r] and nothing live: the cache or
    the durable backend has [r], and neither has anything but an expired
    record. *)
Definition holds_expired (w : World) (p : value) (sp : bool) (r : obj)
  : Prop :=
  expired r
  /\ (attributionData w !! mapKey p sp = Some r
      \/ durable_read cfg h w (storageKey cfg (customerId w) p sp)
         = Some (TJson (VObj r)))
  /\ (forall d, attributionData w !! mapKey p sp = Some d -> expired d)
  /\ (forall t, durable_read cfg h w (storageKey cfg (customerId w) p sp)
                = Some t ->
                exists r', t = TJson (VObj r') /\ expired r').

Lemma durable_read_removed_now (sk : string) (w w' : World) :
  0 <= Date_now h ->
  durable_removed cfg h sk w w' -> durable_read cfg h w' sk = None.
Proof.
  intros Hnow [L K]. unfold durable_read. rewrite L, K.
  destruct (use_localStorage cfg h).
  - apply lookup_delete_eq.
  - rewrite cookie_read_remove. unfold epoch.
    destruct (Z.ltb_spec (Date_now h) 0); [lia|reflexivity].
Qed.

(** The read that reaches an expired record of the durable backend, the
    cache holding nothing live before it, removes it. *)
Lemma getFor_stored_expired (p : value) (sp : bool) (r : obj) (w : World) :
  truthy (customerId w) = true ->
  storage_fault h <> Unavailable ->
  0 <= Date_now h ->
  expired r ->
  cache_dead h w (mapKey p sp) ->
  durable_read cfg h w (storageKey cfg (customerId w) p sp)
  = Some (TJson (VObj r)) ->
  exists w',
    _getAttributionDataFor cfg h p sp w = (Ok None, w')
    /\ attributionData w' !! mapKey p sp = None
    /\ durable_read cfg h w' (storageKey cfg (customerId w') p sp) = None.
Proof.
  intros Hc Hf Hnow Hr Hdead Hread.
  destruct (getFor_expired cfg h p sp w (VObj r) Hc Hdead Hf Hread
              (expired_reads_expired r Hr)) as (w' & E & A & L & K & _).
  exists w'. split; [exact E|]. split.
  - rewrite A. apply lookup_delete_eq.
  - rewrite (confined_customerId _ _ _
               (getFor_confines cfg h (customerId w) p sp w _ w' eq_refl E)).
    apply (durable_read_removed_now _ w w' Hnow). now split.
Qed.

(** Reading a channel that holds only expired data empties it. *)
Lemma getFor_holds_expired (p : value) (sp : bool) (r : obj) (w : World) :
  truthy (customerId w) = true ->
  storage_fault h <> Unavailable ->
  0 <= Date_now h ->
  holds_expired w p sp r ->
  exists w',
    _getAttributionDataFor cfg h p sp w = (Ok None, w')
    /\ attributionData w' !! mapKey p sp = None
    /\ durable_read cfg h w' (storageKey cfg (customerId w') p sp) = None.
Proof.
  intros Hc Hf Hnow (Hr & Hheld & Hcache & Hdur).
  assert (Hdead : cache_dead h w (mapKey p sp)).
  { intros d Hd. apply expired_not_live. now apply Hcache. }
  destruct (durable_read cfg h w (storageKey cfg (customerId w) p sp))
    as [t|] eqn:Hread.
  - destruct (Hdur t eq_refl) as (r' & -> & Hr').
    now apply (getFor_stored_expired p sp r' w).
  - destruct (getFor_absent cfg h p sp w Hdead Hf) as (w' & E & A & L & K & _).
    { now rewrite Hread. }
    exists w'. split; [exact E|]. split.
    + rewrite A. apply lookup_delete_eq.
    + rewrite (confined_customerId _ _ _
                 (getFor_confines cfg h (customerId w) p sp w _ w' eq_refl E)).
      rewrite (durable_read_ext cfg h w w') by assumption.
      exact Hread.
Qed.

(** The read that finds an expired record in the cache removes it from
    the cache, whatever the durable backend holds or does. *)
Lemma getFor_cached_expired (p : value) (sp : bool) (r : obj) (w : World) :
  expired r ->
  attributionData w !! mapKey p sp = Some r ->
  exists res w',
    _getAttributionDataFor cfg h p sp w = (Ok res, w')
    /\ res <> Some r
    /\ attributionData w' !! mapKey p sp <> Some r
    /\ (res = None -> attributionData w' !! mapKey p sp = None).
Proof.
  intros Hr Hm. pose proof (expired_not_live r Hr) as Hnl.
  destruct (getFor_outcome cfg h p sp w) as (res & w' & E & O).
  exists res, w'. split; [exact E|].
  inversion O as [r0 w0 Hc0 Hl0 A D|r0 w0 Hd0 Hf0 Hr0 Hl0 A D
                 |w0 Hd0 Hwhy A D|v w0 Hd0 Hc0 Hf0 Hr0 Hv0 A R]; subst.
  - exfalso. congruence.
  - assert (Hne : r0 <> r) by (intros ->; congruence).
    split; [congruence|]. rewrite A, lookup_insert_eq.
    split; [congruence|discriminate].
  - rewrite A, lookup_delete_eq. repeat split; discriminate || reflexivity.
  - rewrite A, lookup_delete_eq. repeat split; discriminate || reflexivity.
Qed.

(** A live record in the cache answers the read, which then leaves the
    durable backend alone, an expired record there included. *)
Lemma getFor_live_before_stored (p : value) (sp : bool) (c : obj)
    (w : World) :
  attributionData w !! mapKey p sp = Some c ->
  is_live h c = true ->
  exists w',
    _getAttributionDataFor cfg h p sp w = (Ok (Some c), w')
    /\ attributionData w' = attributionData w
    /\ localStorage w' = localStorage w
    /\ cookie w' = cookie w
    /\ durable_read cfg h w' (storageKey cfg (customerId w') p sp)
       = durable_read cfg h w (storageKey cfg (customerId w) p sp).
Proof.
  intros Hm Hl.
  destruct (getFor_hit cfg h p sp w c Hm Hl) as (w' & E & A & L & K & _).
  exists w'. split; [exact E|]. split; [exact A|].
  split; [exact L|]. split; [exact K|].
  rewrite (confined_customerId _ _ _
             (getFor_confines cfg h (customerId w) p sp w _ w' eq_refl E)).
  now apply durable_read_ext.
Qed.

Lemma holds_expired_ext (w w' : World) (p : value) (sp : bool) (r : obj) :
  attributionData w' !! mapKey p sp = attributionData w !! mapKey p sp ->
  durable_read cfg h w' (storageKey cfg (customerId w') p sp)
  = durable_read cfg h w (storageKey cfg (customerId w) p sp) ->
  holds_expired w p sp r -> holds_expired w' p sp r.
Proof. unfold holds_expired. intros -> ->. tauto. Qed.

(** What a read of one channel leaves of the other channel of the
    product: all. *)
Lemma getFor_other_channel (p : value) (sp : bool) (w w' : World)
    (res : result (option obj)) :
  _getAttributionDataFor cfg h p sp w = (res, w') ->
  attributionData w' !! mapKey p (negb sp)
  = attributionData w !! mapKey p (negb sp)
  /\ durable_read cfg h w' (storageKey cfg (customerId w') p (negb sp))
     = durable_read cfg h w (storageKey cfg (customerId w) p (negb sp)).
Proof.
  intros E.
  apply (confined_channel cfg h _ w w' p (negb sp)
           (getFor_confines cfg h (customerId w) p sp w res w' eq_refl E));
    simpl; intros Hin; apply list_elem_of_singleton in Hin.
  - exact (mapKey_channel_ne p sp (eq_sym Hin)).
  - exact (storageKey_channel_ne cfg _ p sp (eq_sym Hin)).
Qed.

(** C2, as the code has it.  Let [r] be a record whose [expiresAt] has
    come, under a session, for a customer id and a product reference that
    print, with a backend within reach and a clock not before the epoch.  No resolution ever
    returns a record that is not live, so never [r].  A read of the
    channel that finds [r] in the cache removes it from the cache.  A
    read that gets as far as the durable backend, the cache holding
    nothing live under the key, and finds [r] there removes it: the cache
    then has no entry under the key and the durable backend shows none,
    and a following read finds the key absent and returns nothing again.
    So a channel that holds [r] and nothing live is emptied by its read,
    and [_getAttributionData] makes that read when it consults the
    channel: always for the sponsored one, for the organic one when the
    sponsored channel holds nothing live.  But a live record in the
    cache, as a click leaves one whose durable write failed, answers the
    read before the durable backend is looked at: an expired record
    stored behind it is not removed. *)
Theorem expired_record_is_deleted_on_read (p : value) (sp : bool) (r : obj)
    (w : World) :
  truthy (customerId w) = true ->
  keys_print (customerId w) p = true ->
  storage_fault h <> Unavailable ->
  0 <= Date_now h ->
  expired r ->
  let mk := mapKey p sp in
  let sk := fun w0 => storageKey cfg (customerId w0) p sp in
  (forall (q : value) (w0 w1 : World) (found : obj),
     _getAttributionData cfg h q w0 = (Ok (Some found), w1) ->
     is_live h found = true /\ found <> r)
  /\ (attributionData w !! mk = Some r ->
      exists res w',
        _getAttributionDataFor cfg h p sp w = (Ok res, w')
        /\ res <> Some r
        /\ attributionData w' !! mk <> Some r
        /\ (res = None -> attributionData w' !! mk = None))
  /\ (cache_dead h w mk ->
      durable_read cfg h w (sk w) = Some (TJson (VObj r)) ->
      exists w',
        _getAttributionDataFor cfg h p sp w = (Ok None, w')
        /\ attributionData w' !! mk = None
        /\ durable_read cfg h w' (sk w') = None
        /\ exists w'',
             _getAttributionDataFor cfg h p sp w' = (Ok None, w'')
             /\ attributionData w'' !! mk = None
             /\ durable_read cfg h w'' (sk w'') = None)
  /\ (holds_expired w p sp r ->
      (exists w',
         _getAttributionDataFor cfg h p sp w = (Ok None, w')
         /\ attributionData w' !! mk = None
         /\ durable_read cfg h w' (sk w') = None)
      /\ (truthy p = true ->
          (sp = false -> channel_dead cfg h w p true) ->
          exists found w',
            _getAttributionData cfg h p w = (Ok found, w')
            /\ found <> Some r
            /\ attributionData w' !! mk = None
            /\ durable_read cfg h w' (sk w') = None))
  /\ (forall c,
        attributionData w !! mk = Some c ->
        is_live h c = true ->
        durable_read cfg h w (sk w) = Some (TJson (VObj r)) ->
        exists w',
          _getAttributionDataFor cfg h p sp w = (Ok (Some c), w')
          /\ durable_read cfg h w' (sk w') = Some (TJson (VObj r))).
Proof.
  intros Hc _ Hf Hnow Hr mk sk.
  assert (Hnever : forall (q : value) (w0 w1 : World) (found : obj),
            _getAttributionData cfg h q w0 = (Ok (Some found), w1) ->
            is_live h found = true /\ found <> r).
  { intros q w0 w1 found E.
    pose proof (get_some_live cfg h q w0 w1 found E) as Hl.
    split; [exact Hl|]. intros ->.
    apply expired_not_live in Hr. congruence. }
  split; [exact Hnever|].
  split; [now apply getFor_cached_expired|].
  split; [|split].
  - intros Hdead Hread.
    destruct (getFor_stored_expired p sp r w Hc Hf Hnow Hr Hdead Hread)
      as (w' & E & A & D).
    exists w'. split; [exact E|]. split; [exact A|]. split; [exact D|].
    assert (Hdead' : cache_dead h w' mk).
    { intros d Hd. unfold mk in Hd. rewrite A in Hd. discriminate Hd. }
    destruct (getFor_absent cfg h p sp w' Hdead' Hf)
      as (w'' & E' & A' & L' & K' & _).
    { unfold sk in D. now rewrite D. }
    exists w''. split; [exact E'|]. split.
    + rewrite A'. apply lookup_delete_eq.
    + unfold sk.
      rewrite (confined_customerId _ _ _
                 (getFor_confines cfg h (customerId w') p sp w' _ w'' eq_refl E')).
      rewrite (durable_read_ext cfg h w' w'') by assumption. exact D.
  - intros H. split; [now apply (getFor_holds_expired p sp r w)|].
    intros Hp Hsp.
    assert (Hfound : forall found w',
              _getAttributionData cfg h p w = (Ok found, w') ->
              found <> Some r).
    { intros [d|] w' E; [|discriminate].
      intros Heq. injection Heq as ->.
      now destruct (Hnever p w w' r E). }
    rewrite get_sponsored_first by assumption.
    destruct sp.
    + destruct (getFor_holds_expired p true r w Hc Hf Hnow H)
        as (w1 & E1 & A1 & D1).
      destruct (returns_getFor cfg h p false w1) as (found & w' & E2).
      destruct (getFor_other_channel p false w1 w' _ E2) as [A2 D2].
      simpl negb in A2, D2.
      exists found, w'.
      assert (E : bind (_getAttributionDataFor cfg h p true)
                    (fun sponsored =>
                       match sponsored with
                       | Some data => ret (Some data)
                       | None => _getAttributionDataFor cfg h p false
                       end) w = (Ok found, w'))
        by (erewrite bind_ok by exact E1; exact E2).
      split; [exact E|]. split.
      * apply (Hfound found w'). now rewrite get_sponsored_first by assumption.
      * unfold mk, sk. split; congruence.
    + destruct (getFor_none cfg h p true w (Hsp eq_refl)) as (w1 & E1 & _).
      destruct (getFor_other_channel p true w w1 _ E1) as [A1 D1].
      simpl negb in A1, D1.
      pose proof (holds_expired_ext w w1 p false r A1 D1 H) as H1.
      assert (Hc1 : truthy (customerId w1) = true).
      { now rewrite (confined_customerId _ _ _
                       (getFor_confines cfg h (customerId w) p true w _ w1
                          eq_refl E1)). }
      destruct (getFor_holds_expired p false r w1 Hc1 Hf Hnow H1)
        as (w' & E2 & A2 & D2).
      exists None, w'. split; [|split; [discriminate|split; assumption]].
      erewrite bind_ok by exact E1. exact E2.
  - intros c Hm Hl Hread.
    destruct (getFor_live_before_stored p sp c w Hm Hl)
      as (w' & E & _ & _ & _ & D).
    exists w'. split; [exact E|]. unfold sk. now rewrite D.
Qed.

End Expiry.

(** ** Add to cart *)

Section MandatoryAttribution.

Context (cfg : Config) (h : Host).

(** C4 (mandatory attribution).  A [trackAddToCart] call whose event data
    has no truthy [clickId], for a product neither channel of which holds
    a live record, throws the missing-attribution error; the error is
    logged and no event joins the queue. *)
Theorem addToCart_without_click_throws (eventData : obj) (w : World) :
  truthy (obj_get eventData "clickId") = false ->
  obj_get eventData "product" <> VUndefined ->
  obj_get eventData "product" <> VNull ->
  let productRefId := member (obj_get eventData "product") "refId" in
  channel_dead cfg h w productRefId true ->
  channel_dead cfg h w productRefId false ->
  exists w',
    trackAddToCart cfg h eventData w = (Throw MissingAttributionError, w')
    /\ pendingEvents w' = pendingEvents w
    /\ exists log,
         console_error w'
         = "Add to Cart requires clickId. Generate a Click event first." :: log.
Proof.
  intros Hclick Hu Hn p Hs Ho.
  destruct (get_none cfg h p w Hs Ho) as (w1 & E).
  pose proof (confined_pendingEvents _ _ _
                (get_confines cfg h (customerId w) p w _ w1 eq_refl E)) as Hp.
  assert (Hprop : prop (obj_get eventData "product") "refId" w = (Ok p, w)).
  { unfold p. destruct (obj_get eventData "product"); try contradiction;
      reflexivity. }
  unfold trackAddToCart. erewrite bind_ok by exact Hprop.
  rewrite Hclick. simpl negb. cbv iota.
  rewrite bind_bind. erewrite bind_ok by exact E.
  eexists. split; [reflexivity|]. simpl. split; [exact Hp|].
  eexists. reflexivity.
Qed.

End MandatoryAttribution.

(** ** Corrupt entries *)

Section Corrupt.

Context (cfg : Config) (h : Host).

(** C8, as the code has it, for a read that gets as far as the durable
    backend (the cache holds nothing live under the key, the backend can
    be reached, and the customer id and the product reference print).  A
    stored text that [JSON.parse] rejects, the JSON text [null], and an
    object whose [expiresAt] does not compare (the comparison throws)
    read as not found: the read returns nothing and logs the error, and
    the entry stays in the durable backend.  The empty string is not even
    parsed: the read returns nothing, logs nothing and leaves the entry.
    A stored text that parses to anything else without a live
    [expiresAt] reads as an expired record: the read returns nothing and,
    under a session, removes the entry. *)
Theorem corrupt_entry_reads_as_not_found (p : value) (sp : bool) (w : World) :
  keys_print (customerId w) p = true ->
  storage_fault h <> Unavailable ->
  cache_dead h w (mapKey p sp) ->
  let sk := storageKey cfg (customerId w) p sp in
  (forall t, durable_read cfg h w sk = Some t -> unreadable t ->
     exists w',
       _getAttributionDataFor cfg h p sp w = (Ok None, w')
       /\ localStorage w' = localStorage w
       /\ cookie w' = cookie w
       /\ durable_read cfg h w' sk = Some t
       /\ console_error w'
          = "Failed to retrieve attribution data:" :: console_error w)
  /\ (forall r, durable_read cfg h w sk = Some (TJson (VObj r)) ->
        printable (obj_get r "expiresAt") = false ->
        exists w',
          _getAttributionDataFor cfg h p sp w = (Ok None, w')
          /\ durable_read cfg h w' sk = Some (TJson (VObj r))
          /\ console_error w'
             = "Failed to retrieve attribution data:" :: console_error w)
  /\ (durable_read cfg h w sk = Some TEmpty ->
      exists w',
        _getAttributionDataFor cfg h p sp w = (Ok None, w')
        /\ localStorage w' = localStorage w
        /\ cookie w' = cookie w
        /\ durable_read cfg h w' sk = Some TEmpty
        /\ console_error w' = console_error w)
  /\ (forall v, durable_read cfg h w sk = Some (TJson v) ->
        reads_expired h v -> truthy (customerId w) = true ->
        exists w',
          _getAttributionDataFor cfg h p sp w = (Ok None, w')
          /\ durable_removed cfg h sk w w'
          /\ console_error w' = console_error w).
Proof.
  intros _ Hf Hdead sk.
  assert (Hun : forall t, durable_read cfg h w sk = Some t -> unreadable t ->
            exists w',
              _getAttributionDataFor cfg h p sp w = (Ok None, w')
              /\ localStorage w' = localStorage w
              /\ cookie w' = cookie w
              /\ durable_read cfg h w' sk = Some t
              /\ console_error w'
                 = "Failed to retrieve attribution data:" :: console_error w).
  { intros t Hr Ht.
    destruct (getFor_unreadable cfg h p sp w t Hdead Hf Hr Ht)
      as (w' & E & A & L & K & Err).
    exists w'. split; [exact E|]. split; [exact L|]. split; [exact K|].
    split; [|exact Err].
    rewrite (durable_read_ext cfg h w w') by assumption. exact Hr. }
  split; [exact Hun|]. split; [|split].
  - intros r Hr Hcmp.
    destruct (Hun (TJson (VObj r)) Hr) as (w' & E & _ & _ & D & Err).
    { right. right. right. exists r. split; [reflexivity|exact Hcmp]. }
    exists w'. split; [exact E|]. split; [exact D|exact Err].
  - intros Hr.
    destruct (getFor_absent cfg h p sp w Hdead Hf)
      as (w' & E & A & L & K & Err).
    { fold sk. now rewrite Hr. }
    exists w'. split; [exact E|]. split; [exact L|]. split; [exact K|].
    split; [|exact Err].
    rewrite (durable_read_ext cfg h w w') by assumption. exact Hr.
  - intros v Hr Hv Hc.
    destruct (getFor_expired cfg h p sp w v Hc Hdead Hf Hr Hv)
      as (w' & E & A & L & K & Err).
    exists w'. split; [exact E|]. split; [now split|exact Err].
Qed.

End Corrupt.

(** ** Purchases *)

Section Purchase.

Context (cfg : Config) (h : Host).

Hypothesis Hfault : storage_fault h <> Unavailable.

(** The record a resolution would use, and the channel it comes from: a
    live record of that channel, the sponsored channel holding nothing
    live when the channel is the organic one. *)
Definition resolves_from (w : World) (p : value) (sp : bool) (r : obj)
  : Prop :=
  holds_live cfg h w p sp r /\ (sp = false -> channel_dead cfg h w p true).

Lemma resolves_from_to_string (w : World) (p q : value) (sp : bool) (r : obj) :
  to_string p = to_string q -> resolves_from w p sp r -> resolves_from w q sp r.
Proof.
  intros Hs [Hl Hd]. split.
  - now apply (holds_live_to_string cfg h w p q).
  - intros Hsp. now apply (channel_dead_to_string cfg h w p q), Hd.
Qed.

Lemma get_preserves_resolves (q : value) (w w' : World)
    (res : result (option obj)) (p : value) (sp : bool) (r : obj) :
  _getAttributionData cfg h q w = (res, w') ->
  resolves_from w p sp r -> resolves_from w' p sp r.
Proof.
  intros E [Hl Hd]. split.
  - eapply get_preserves_live; eauto.
  - intros Hsp. eapply get_preserves_dead; eauto.
Qed.

Lemma get_resolves (p : value) (sp : bool) (r : obj) (w : World) :
  truthy (customerId w) = true -> truthy p = true ->
  resolves_from w p sp r ->
  exists w', _getAttributionData cfg h p w = (Ok (Some r), w').
Proof.
  intros Hc Hp [Hl Hd]. destruct sp.
  - destruct (get_sponsored cfg h p w r Hc Hp Hfault Hl) as (w' & E & _).
    now exists w'.
  - destruct (get_organic cfg h p w r Hc Hp Hfault (Hd eq_refl) Hl)
      as (w' & E & _).
    now exists w'.
Qed.

(** A product that prints like [p] resolves to the record [p] resolves
    to. *)
Lemma get_resolves_same (p q : value) (sp : bool) (r d : obj) (w w' : World) :
  truthy (customerId w) = true ->
  resolves_from w p sp r ->
  to_string q = to_string p ->
  _getAttributionData cfg h q w = (Ok (Some d), w') ->
  d = r.
Proof.
  intros Hc Hr Hs E. destruct (truthy q) eqn:Hq.
  - destruct (get_resolves q sp r w Hc Hq) as (w1 & E1).
    { now apply (resolves_from_to_string w p q). }
    congruence.
  - rewrite get_skipped in E; [discriminate E|].
    rewrite Hq. apply andb_false_r.
Qed.

(** A product of a purchase: anything but [null] and [undefined]. *)
Definition is_product (product : value) : Prop :=
  product <> VUndefined /\ product <> VNull.

(** The enriched product, by what the resolution found. *)
Definition enriched_with (product : value) (found : option obj) : obj :=
  match found with
  | Some data => _mergeAttributionData (_enrichProductData product) data
  | None => _enrichProductData product
  end.

Lemma prepare_spec (product : value) (w : World) :
  is_product product ->
  exists found w',
    _getAttributionData cfg h (member product "refId") w = (Ok found, w')
    /\ _prepareProductWithAttribution cfg h product w
       = (Ok (enriched_with product found, found), w').
Proof.
  intros [Hu Hn].
  destruct (returns_get cfg h (member product "refId") w) as (found & w' & E).
  exists found, w'. split; [exact E|].
  unfold _prepareProductWithAttribution.
  assert (Hprop : prop product "refId" w = (Ok (member product "refId"), w))
    by (destruct product; try contradiction; reflexivity).
  erewrite bind_ok by exact Hprop. erewrite bind_ok by exact E.
  destruct found; reflexivity.
Qed.

(** The first loop of [trackPurchase]. *)
Lemma purchase_products_spec (items : list value) :
  Forall is_product items ->
  forall w, truthy (customerId w) = true ->
  exists prepared w1,
    purchase_products cfg h items w = (Ok prepared, w1)
    /\ customerId w1 = customerId w
    /\ pendingEvents w1 = pendingEvents w
    /\ (forall p sp r, holds_live cfg h w p sp r -> holds_live cfg h w1 p sp r)
    /\ (forall p sp, channel_dead cfg h w p sp -> channel_dead cfg h w1 p sp)
    /\ (forall p sp r,
          resolves_from w p sp r ->
          Forall (fun item => to_string (fst item) = to_string p ->
                              snd item = obj_get r "isSponsored")
            (snd prepared)
          /\ (forall product,
                In product items -> member product "refId" = p ->
                truthy p = true ->
                In (p, obj_get r "isSponsored") (snd prepared)
                /\ In (_mergeAttributionData (_enrichProductData product) r)
                     (fst prepared))).
Proof.
  induction 1 as [|product items Hprod Hitems IH]; intros w Hc.
  - exists ([], []), w. simpl.
    split; [reflexivity|]. split; [reflexivity|]. split; [reflexivity|].
    split; [auto|]. split; [auto|].
    intros p sp r _. split; [constructor|]. intros product [].
  - destruct (prepare_spec product w Hprod) as (found & wa & Eg & Ep).
    pose proof (get_confines cfg h (customerId w) _ w _ wa eq_refl Eg) as Ca.
    assert (Hca : truthy (customerId wa) = true)
      by (now rewrite (confined_customerId _ _ _ Ca)).
    destruct (IH wa Hca) as (others & w1 & Eo & C1 & P1 & L1 & D1 & R1).
    eexists (_, _), w1. split.
    { simpl. erewrite bind_ok by exact Ep. erewrite bind_ok by exact Eo.
      reflexivity. }
    split; [now rewrite C1, (confined_customerId _ _ _ Ca)|].
    split; [now rewrite P1, (confined_pendingEvents _ _ _ Ca)|].
    split; [|split].
    + intros p sp r Hl. apply L1. eapply get_preserves_live; eauto.
    + intros p sp Hd. apply D1. eapply get_preserves_dead; eauto.
    + intros p sp r Hr.
      pose proof (get_preserves_resolves _ _ _ _ p sp r Eg Hr) as Hra.
      destruct (R1 p sp r Hra) as [F1 I1]. simpl. split.
      * apply Forall_app. split; [|exact F1].
        destruct found as [d|]; [|constructor].
        constructor; [|constructor]. simpl. intros Hs.
        now rewrite (get_resolves_same p _ sp r d w wa Hc Hr Hs Eg).
      * intros product' [<-|Hin] Hp Htruthy.
        -- destruct (get_resolves p sp r w Hc Htruthy Hr) as (wx & Ex).
           rewrite Hp in Eg. rewrite Ex in Eg. injection Eg as <- _.
           simpl. rewrite Hp. split; left; reflexivity.
        -- destruct (I1 product' Hin Hp Htruthy) as [Ic Ip]. split.
           ++ apply in_or_app. now right.
           ++ now right.
Qed.

(** *** Consumption *)

Hypothesis Hnow : 0 <= Date_now h.


(** Two worlds show the same under a channel. *)
Definition same_channel (w w' : World) (p : value) (sp : bool) : Prop :=
  attributionData w' !! mapKey p sp = attributionData w !! mapKey p sp
  /\ durable_read cfg h w' (storageKey cfg (customerId w') p sp)
     = durable_read cfg h w (storageKey cfg (customerId w) p sp).

Lemma same_channel_refl (w : World) (p : value) (sp : bool) :
  same_channel w w p sp.
Proof. split; reflexivity. Qed.










End Purchase.

(** ** Facts on strings *)

Lemma append_nil_r (s : string) : s +:+ "" = s.
Proof.
  induction s as [|a s IH]; [reflexivity|].
  change (String a (s +:+ "") = String a s). now rewrite IH.
Qed.

Lemma append_nil_l (s : string) : "" +:+ s = s.
Proof. reflexivity. Qed.

Lemma append_cons (a : ascii) (s t : string) :
  String a s +:+ t = String a (s +:+ t).
Proof. reflexivity. Qed.

Lemma append_assoc (a b c : string) : (a +:+ b) +:+ c = a +:+ (b +:+ c).
Proof.
  induction a as [|x a IH]; [reflexivity|].
  rewrite !append_cons. now rewrite IH.
Qed.

(** Appends to the right, characters in front. *)
Ltac str_norm :=
  repeat first
    [ rewrite append_assoc | rewrite append_cons | rewrite append_nil_l
    | rewrite append_nil_r ].

Lemma startsWith_append (s t : string) : startsWith (s +:+ t) s = true.
Proof.
  induction s as [|a s IH]; [reflexivity|].
  rewrite append_cons. simpl. now rewrite Ascii.eqb_refl.
Qed.

Lemma without_append (c : ascii) (s t : string) :
  without c (s +:+ t) = without c s && without c t.
Proof.
  induction s as [|a s IH]; [reflexivity|].
  rewrite append_cons. simpl. now rewrite IH, andb_assoc.
Qed.

(** ** Cleaning an event *)

Section Cleaning.

(** [_cleanObject], property by property. *)
Lemma cleanObject_nil : _cleanObject [] = [].
Proof. reflexivity. Qed.

Lemma cleanObject_cons (k : string) (x : value) (rest : obj) :
  _cleanObject ((k, x) :: rest)
  = match x with
    | VUndefined | VNull => _cleanObject rest
    | VObj nested =>
        match _cleanObject nested with
        | [] => _cleanObject rest
        | cleanedNested => (k, VObj cleanedNested) :: _cleanObject rest
        end
    | _ => (k, x) :: _cleanObject rest
    end.
Proof. destruct x; reflexivity. Qed.

(** The number of properties of an object, nested ones included. *)
Fixpoint properties (v : value) : nat :=
  match v with
  | VObj props =>
      (fix go (ps : list (string * value)) : nat :=
         match ps with
         | [] => O
         | (_, x) :: rest => S (properties x + go rest)
         end) props
  | _ => O
  end.

Lemma properties_cons (k : string) (x : value) (rest : obj) :
  properties (VObj ((k, x) :: rest))
  = S (properties x + properties (VObj rest)).
Proof. reflexivity. Qed.

(** Induction on an object and the objects nested in it. *)
Lemma obj_nested_ind (P : obj -> Prop) :
  P [] ->
  (forall k x rest,
     (forall nested, x = VObj nested -> P nested) -> P rest ->
     P ((k, x) :: rest)) ->
  forall o, P o.
Proof.
  intros Hnil Hcons o.
  assert (H : forall n (o : obj), (properties (VObj o) < n)%nat -> P o).
  { induction n as [|n IH]; intros o' Hn; [lia|].
    destruct o' as [|[k x] rest]; [exact Hnil|].
    rewrite properties_cons in Hn. apply Hcons.
    - intros nested ->. apply IH. lia.
    - apply IH. lia. }
  apply (H (S (properties (VObj o)))). lia.
Qed.

(** An object with nothing for [_cleanObject] to remove: no property is
    [undefined] or [null], and every nested object is non-empty and again
    such an object.  Arrays are not looked into. *)
Inductive clean : obj -> Prop :=
| clean_empty : clean []
| clean_nested (k : string) (nested rest : obj) :
    nested <> [] -> clean nested -> clean rest ->
    clean ((k, VObj nested) :: rest)
| clean_plain (k : string) (x : value) (rest : obj) :
    x <> VUndefined -> x <> VNull -> (forall nested, x <> VObj nested) ->
    clean rest ->
    clean ((k, x) :: rest).

Lemma cleanObject_clean (o : obj) : clean (_cleanObject o).
Proof.
  induction o as [|k x rest IHx IHrest] using obj_nested_ind.
  - constructor.
  - rewrite cleanObject_cons.
    destruct x as [| |b|n|s|nested|items]; try exact IHrest;
      try (apply clean_plain; [discriminate..|exact IHrest]).
    specialize (IHx nested eq_refl).
    destruct (_cleanObject nested) as [|kv c] eqn:E; [exact IHrest|].
    apply clean_nested; [discriminate|exact IHx|exact IHrest].
Qed.

Lemma clean_fixed (o : obj) : clean o -> _cleanObject o = o.
Proof.
  induction 1 as [|k nested rest Hne _ IHn _ IHr|k x rest Hu Hn Ho _ IHr].
  - reflexivity.
  - rewrite cleanObject_cons, IHn, IHr. destruct nested; [contradiction|reflexivity].
  - rewrite cleanObject_cons, IHr.
    destruct x; try reflexivity; try contradiction. now destruct (Ho props).
Qed.


(** X2.  Cleaning twice is cleaning once: an event that went through
    [_queueEvent] can go through it again unchanged. *)
Theorem cleanObject_idempotent (o : obj) :
  _cleanObject (_cleanObject o) = _cleanObject o.
Proof. apply clean_fixed, cleanObject_clean. Qed.

End Cleaning.

(** ** What a flush sends *)

Section Flush.

(** The events queued under a type, in the order they were queued. *)
Definition events_of (type : string) (pending : list (string * obj))
  : list obj :=
  map snd (List.filter (fun e => String.eqb (fst e) type) pending).

(** The events a group holds for a type. *)
Fixpoint group_of (eventGroups : list (string * list obj)) (type : string)
  : list obj :=
  match eventGroups with
  | [] => []
  | (t, events) :: rest =>
      if String.eqb t type then events else group_of rest type
  end.

Lemma push_event_keys (g : list (string * list obj)) (t : string) (d : obj)
    (t' : string) :
  In t' (map fst (push_event g t d)) <-> t' = t \/ In t' (map fst g).
Proof.
  induction g as [|[t0 evs] g IH]; simpl.
  - intuition.
  - destruct (String.eqb_spec t0 t) as [->|Hne]; simpl; [intuition|].
    rewrite IH. intuition.
Qed.

Lemma push_event_NoDup (g : list (string * list obj)) (t : string) (d : obj) :
  List.NoDup (map fst g) -> List.NoDup (map fst (push_event g t d)).
Proof.
  induction g as [|[t0 evs] g IH]; simpl; intros Hnd.
  - constructor; [intros []|constructor].
  - inversion Hnd as [|? ? Hnotin Hrest]; subst.
    destruct (String.eqb_spec t0 t) as [->|Hne]; simpl.
    + constructor; assumption.
    + constructor; [|now apply IH].
      rewrite push_event_keys. intros [Heq|Hin]; [congruence|contradiction].
Qed.

Lemma push_event_group (g : list (string * list obj)) (t : string) (d : obj)
    (t' : string) :
  group_of (push_event g t d) t'
  = if String.eqb t t' then (group_of g t ++ [d])%list else group_of g t'.
Proof.
  induction g as [|[t0 evs] g IH]; simpl.
  - destruct (String.eqb t t'); reflexivity.
  - destruct (String.eqb_spec t0 t) as [->|Hne]; simpl.
    + destruct (String.eqb_spec t t') as [->|Hne']; reflexivity.
    + destruct (String.eqb_spec t0 t') as [->|Hne'].
      * destruct (String.eqb_spec t t'); [congruence|reflexivity].
      * exact IH.
Qed.

Lemma push_event_nonempty (g : list (string * list obj)) (t : string) (d : obj) :
  Forall (fun group => snd group <> []) g ->
  Forall (fun group => snd group <> []) (push_event g t d).
Proof.
  induction 1 as [|[t0 evs] g H0 Hg IH]; simpl.
  - constructor; [discriminate|constructor].
  - destruct (String.eqb t0 t).
    + constructor; [|exact Hg]. simpl. now destruct evs.
    + constructor; [exact H0|exact IH].
Qed.

Lemma group_of_In (g : list (string * list obj)) (t : string) (evs : list obj) :
  List.NoDup (map fst g) -> In (t, evs) g -> group_of g t = evs.
Proof.
  induction g as [|[t0 evs0] g IH]; simpl; intros Hnd Hin; [contradiction|].
  inversion Hnd as [|? ? Hnotin Hrest]; subst.
  destruct Hin as [Heq|Hin].
  - injection Heq as -> ->. now rewrite String.eqb_refl.
  - destruct (String.eqb_spec t0 t) as [->|Hne]; [|now apply IH].
    exfalso. apply Hnotin. apply in_map_iff. now exists (t, evs).
Qed.

(** The groups of a queue: one per type queued, holding the events of that
    type in queue order. *)
Lemma group_events_spec (pending : list (string * obj)) :
  let g := group_events pending in
  List.NoDup (map fst g)
  /\ (forall t, In t (map fst g) <-> In t (map fst pending))
  /\ (forall t, group_of g t = events_of t pending)
  /\ Forall (fun group => snd group <> []) g.
Proof.
  unfold group_events.
  assert (H : forall (acc : list (string * list obj)),
            List.NoDup (map fst acc) ->
            Forall (fun group => snd group <> []) acc ->
            let g := fold_left
                       (fun eventGroups e =>
                          push_event eventGroups (fst e) (snd e)) pending acc in
            List.NoDup (map fst g)
            /\ (forall t, In t (map fst g)
                          <-> In t (map fst acc) \/ In t (map fst pending))
            /\ (forall t, group_of g t
                          = (group_of acc t ++ events_of t pending)%list)
            /\ Forall (fun group => snd group <> []) g).
  { induction pending as [|[t d] pending IH]; intros acc Hnd Hne; simpl.
    - split; [exact Hnd|]. split; [intuition|].
      split; [|exact Hne]. intros t. unfold events_of. simpl.
      now rewrite app_nil_r.
    - destruct (IH (push_event acc t d) (push_event_NoDup _ _ _ Hnd)
                  (push_event_nonempty _ _ _ Hne)) as (N & K & G & E).
      split; [exact N|]. split; [|split; [|exact E]].
      + intros t'. rewrite K, push_event_keys. intuition.
      + intros t'. rewrite G, push_event_group. unfold events_of. simpl.
        rewrite String.eqb_sym.
        destruct (String.eqb_spec t' t) as [->|Hne'].
        * simpl. now rewrite <- app_assoc.
        * reflexivity. }
  destruct (H [] (List.NoDup_nil _) (List.Forall_nil _)) as (N & K & G & E).
  split; [exact N|]. split; [|split; [exact G|exact E]].
  intros t. rewrite K. simpl. intuition.
Qed.

(** The request [_sendEvents] makes for a group. *)
Definition events_request (customer sessionId : value) (type : string)
    (events : list obj) : request :=
  ("/3.0/events/" +:+ type,
   [ ("customerId", customer); ("sessionId", sessionId);
     ("events", VArr (map VObj events)) ]).

Lemma send_groups_session (sessionId : value) (g : list (string * list obj))
    (w : World) :
  truthy (customerId w) = true -> truthy sessionId = true ->
  send_groups sessionId g w
  = (Ok (map (fun group =>
                events_request (customerId w) sessionId (fst group) (snd group))
           g), w).
Proof.
  intros Hc Hs. induction g as [|[t evs] g IH]; simpl; [reflexivity|].
  unfold _sendEvents. rewrite bind_bind, bind_gets, Hc, Hs. simpl.
  rewrite bind_ret. erewrite bind_ok by exact IH. reflexivity.
Qed.

Lemma send_groups_no_session (sessionId : value) (g : list (string * list obj))
    (w : World) :
  truthy (customerId w) && truthy sessionId = false ->
  send_groups sessionId g w
  = (Ok [],
     with_console_error
       (repeat "Cannot send events without session" (List.length g)
          ++ console_error w)%list w).
Proof.
  intros Hno. revert w Hno.
  induction g as [|[t evs] g IH]; intros w Hno; simpl.
  - now destruct w.
  - unfold _sendEvents. rewrite bind_bind, bind_gets.
    assert (Hg : negb (truthy (customerId w)) || negb (truthy sessionId) = true)
      by (destruct (truthy (customerId w)), (truthy sessionId);
          try discriminate Hno; reflexivity).
    rewrite Hg. unfold _error. rewrite bind_bind, bind_modify, bind_ret.
    erewrite bind_ok by (apply IH; exact Hno). simpl.
    unfold with_console_error, ret. simpl. f_equal. f_equal.
    change ("Cannot send events without session" :: console_error w)
      with (["Cannot send events without session"] ++ console_error w)%list.
    rewrite app_assoc, <- repeat_cons. reflexivity.
Qed.

Lemma flushEvents_run (sessionId : value) (w : World) :
  _flushEvents sessionId w
  = match pendingEvents w with
    | [] => (Ok [], w)
    | _ => send_groups sessionId (group_events (pendingEvents w))
             (with_pendingEvents [] w)
    end.
Proof.
  unfold _flushEvents. rewrite bind_gets.
  destruct (pendingEvents w); reflexivity.
Qed.

(** X3.  With a session, [_flushEvents] empties the queue and makes one
    request per event type queued; the request for a type carries the
    customer, the session and every event queued under that type, in
    queue order.  So every queued event is sent, once.  Nothing else of
    the instance changes.  The queue holds events of the seven types the
    [track...] methods queue: their names are no array indices, so that
    [Object.entries] lists the groups in the order they were made. *)
Theorem flush_sends_every_event_once (sessionId : value) (w : World) :
  truthy (customerId w) = true ->
  truthy sessionId = true ->
  Forall (fun e => In (fst e) event_types) (pendingEvents w) ->
  exists requests,
    _flushEvents sessionId w = (Ok requests, with_pendingEvents [] w)
    /\ List.NoDup (map fst requests)
    /\ (forall type,
          In type (map fst (pendingEvents w))
          <-> In ("/3.0/events/" +:+ type) (map fst requests))
    /\ (forall type body,
          In ("/3.0/events/" +:+ type, body) requests ->
          events_of type (pendingEvents w) <> []
          /\ body = [ ("customerId", customerId w);
                      ("sessionId", sessionId);
                      ("events",
                         VArr (map VObj (events_of type (pendingEvents w)))) ]).
Proof.
  intros Hc Hs _.
  destruct (group_events_spec (pendingEvents w)) as (N & K & G & E).
  set (g := group_events (pendingEvents w)) in *.
  exists (map (fun group =>
                 events_request (customerId w) sessionId (fst group) (snd group))
            g).
  assert (Hpaths : map fst
                     (map (fun group =>
                             events_request (customerId w) sessionId
                               (fst group) (snd group)) g)
                   = map (fun t => "/3.0/events/" +:+ t) (map fst g)).
  { rewrite !map_map. reflexivity. }
  split; [|split; [|split]].
  - rewrite flushEvents_run. fold g.
    destruct (pendingEvents w) as [|e pending] eqn:Hp.
    + subst g. simpl. destruct w; simpl in *. now subst.
    + now rewrite send_groups_session.
  - rewrite Hpaths. apply Finite.Injective_map_NoDup; [|exact N].
    intros a b Hab. now apply String.app_inj in Hab.
  - intros type. rewrite Hpaths, <- K. split.
    + intros Hin. apply in_map_iff. now exists type.
    + intros Hin. apply in_map_iff in Hin. destruct Hin as (t & Ht & Hin).
      apply String.app_inj in Ht. now subst.
  - intros type body Hin. apply in_map_iff in Hin.
    destruct Hin as ([t evs] & Heq & Hin). unfold events_request in Heq.
    simpl in Heq. injection Heq as Ht <-.
    apply String.app_inj in Ht. subst t.
    rewrite <- G, (group_of_In g type evs N Hin). split; [|reflexivity].
    rewrite List.Forall_forall in E. exact (E _ Hin).
Qed.

(** X4.  Without a session ([customerId] or [sessionId] missing)
    [_flushEvents] still empties the queue, makes no request and logs one
    error per event type: the events queued are dropped. *)
Theorem flush_without_session_drops_events (sessionId : value) (w : World) :
  truthy (customerId w) && truthy sessionId = false ->
  Forall (fun e => In (fst e) event_types) (pendingEvents w) ->
  pendingEvents w <> [] ->
  exists w',
    _flushEvents sessionId w = (Ok [], w')
    /\ pendingEvents w' = []
    /\ console_error w'
       = (repeat "Cannot send events without session"
            (List.length (group_events (pendingEvents w)))
            ++ console_error w)%list
    /\ In "Cannot send events without session" (console_error w').
Proof.
  intros Hno _ Hp.
  exists (with_console_error
            (repeat "Cannot send events without session"
               (List.length (group_events (pendingEvents w)))
               ++ console_error w)%list (with_pendingEvents [] w)).
  split; [|split; [|split]].
  - rewrite flushEvents_run.
    destruct (pendingEvents w) as [|e pending] eqn:Hpe; [contradiction|].
    now rewrite send_groups_no_session by exact Hno.
  - reflexivity.
  - reflexivity.
  - simpl. apply in_or_app. left.
    destruct (pendingEvents w) as [|[t d] pending] eqn:Hpe; [contradiction|].
    destruct (group_events_spec ((t, d) :: pending)) as (_ & K & _).
    destruct (group_events ((t, d) :: pending)) as [|g0 g] eqn:Hg.
    + exfalso. apply (proj2 (K t)). simpl. now left.
    + simpl. now left.
Qed.

End Flush.

(** ** The queue under the [track...] methods *)

Section Queue.

Context (cfg : Config) (h : Host).

(** A method that leaves the queue alone, however it ends. *)
Definition keeps_queue {A : Type} (m : M A) : Prop :=
  forall w r w', m w = (r, w') -> pendingEvents w' = pendingEvents w.

Lemma keeps_queue_bind {A B : Type} (m : M A) (f : A -> M B) :
  keeps_queue m -> (forall a, keeps_queue (f a)) -> keeps_queue (bind m f).
Proof.
  intros Hm Hf w r w' E. unfold bind in E.
  destruct (m w) as [[a|e] w1] eqn:Em.
  - rewrite (Hf a _ _ _ E). exact (Hm _ _ _ Em).
  - injection E as _ <-. exact (Hm _ _ _ Em).
Qed.

Lemma keeps_queue_ret {A : Type} (a : A) : keeps_queue (ret a).
Proof. intros w r w' E. now injection E as _ <-. Qed.

Lemma keeps_queue_throw {A : Type} (e : exn) : keeps_queue (@throw A e).
Proof. intros w r w' E. now injection E as _ <-. Qed.

Lemma keeps_queue_error (message : string) : keeps_queue (_error message).
Proof. intros w r w' E. now injection E as _ <-. Qed.

Lemma keeps_queue_prop (v : value) (k : string) : keeps_queue (prop v k).
Proof. destruct v; (apply keeps_queue_throw || apply keeps_queue_ret). Qed.

Lemma keeps_queue_get (p : value) : keeps_queue (_getAttributionData cfg h p).
Proof.
  intros w r w' E.
  exact (confined_pendingEvents _ _ _
           (get_confines cfg h (customerId w) p w r w' eq_refl E)).
Qed.

Lemma keeps_queue_store (p : value) (clickData : obj) :
  keeps_queue (_storeAttributionData cfg h p clickData).
Proof.
  intros w r w' E.
  exact (confined_pendingEvents _ _ _
           (store_confines cfg h (customerId w) p clickData w r w' eq_refl E)).
Qed.

Lemma keeps_queue_cleanup (p flag : value) :
  keeps_queue (_cleanupExpiredAttributionData cfg h p flag).
Proof.
  intros w r w' E.
  exact (confined_pendingEvents _ _ _
           (cleanup_confines cfg h (customerId w) p flag w r w' eq_refl E)).
Qed.

Lemma keeps_queue_forEach {A : Type} (l : list A) (f : A -> M unit) :
  (forall x, keeps_queue (f x)) -> keeps_queue (forEach l f).
Proof.
  intros Hf. induction l as [|x l IH]; simpl.
  - apply keeps_queue_ret.
  - apply keeps_queue_bind; [apply Hf|intros _; exact IH].
Qed.

Lemma keeps_queue_prepare (product : value) :
  keeps_queue (_prepareProductWithAttribution cfg h product).
Proof.
  unfold _prepareProductWithAttribution.
  apply keeps_queue_bind; [apply keeps_queue_prop|intros refId].
  apply keeps_queue_bind; [apply keeps_queue_get|intros found].
  apply keeps_queue_ret.
Qed.

Lemma keeps_queue_purchase_products (items : list value) :
  keeps_queue (purchase_products cfg h items).
Proof.
  induction items as [|product items IH]; simpl.
  - apply keeps_queue_ret.
  - apply keeps_queue_bind; [apply keeps_queue_prepare|intros prepared].
    apply keeps_queue_bind; [exact IH|intros others]. apply keeps_queue_ret.
Qed.

Lemma keeps_queue_checkout_products (items : list value) :
  keeps_queue (checkout_products cfg h items).
Proof.
  induction items as [|product items IH]; simpl.
  - apply keeps_queue_ret.
  - apply keeps_queue_bind.
    + unfold _enrichProductDataWithAttribution.
      apply keeps_queue_bind; [apply keeps_queue_prepare|intros prepared].
      apply keeps_queue_ret.
    + intros enriched.
      apply keeps_queue_bind; [exact IH|intros others]. apply keeps_queue_ret.
Qed.

(** A method that queues one event: it throws and leaves the queue as it
    was, or it returns the event it has put last in the queue, under
    [type], cleaned. *)
Definition queues_one (type : string) (m : M obj) : Prop :=
  forall w r w',
    m w = (r, w') ->
    (exists e, r = Throw e /\ pendingEvents w' = pendingEvents w)
    \/ (exists event,
          r = Ok event
          /\ pendingEvents w' = (pendingEvents w ++ [(type, event)])%list
          /\ clean event).

Lemma queueEvent_queues_one (type : string) (eventData : obj) :
  queues_one type (_queueEvent type eventData).
Proof.
  intros w r w' E. right. exists (_cleanObject eventData).
  unfold _queueEvent, bind, modify, ret in E.
  injection E as <- <-. split; [reflexivity|]. split; [reflexivity|].
  apply cleanObject_clean.
Qed.

Lemma queues_one_after {A : Type} (type : string) (m : M A) (f : A -> M obj) :
  keeps_queue m -> (forall a, queues_one type (f a)) ->
  queues_one type (bind m f).
Proof.
  intros Hm Hf w r w' E. unfold bind in E.
  destruct (m w) as [[a|e] w1] eqn:Em.
  - rewrite <- (Hm _ _ _ Em). exact (Hf a _ _ _ E).
  - injection E as <- <-. left. exists e. split; [reflexivity|].
    exact (Hm _ _ _ Em).
Qed.

Lemma queues_one_throw (type : string) (e : exn) : queues_one type (throw e).
Proof.
  intros w r w' E. injection E as <- <-. left. now exists e.
Qed.

(** X5.  Each of the seven [track...] methods either throws and leaves
    the queue as it was, or returns the event it has appended to the
    queue under its own type; the event is cleaned, and no event already
    queued is removed, changed or moved. *)
Theorem track_methods_only_append (eventData : obj) :
  queues_one "view-products" (trackViewProduct h eventData)
  /\ queues_one "clicks" (trackClick cfg h eventData)
  /\ queues_one "add-to-carts" (trackAddToCart cfg h eventData)
  /\ queues_one "checkouts" (trackCheckout cfg h eventData)
  /\ queues_one "purchases" (trackPurchase cfg h eventData)
  /\ queues_one "search-terms" (trackSearch h eventData)
  /\ queues_one "slot-impressions" (trackSlotImpression h eventData).
Proof.
  repeat split.
  - apply queueEvent_queues_one.
  - unfold trackClick. apply queues_one_after.
    + destruct (truthy _ && _); [|apply keeps_queue_ret].
      destruct (negb _); [apply keeps_queue_throw|apply keeps_queue_store].
    + intros _. apply queueEvent_queues_one.
  - unfold trackAddToCart.
    apply queues_one_after; [apply keeps_queue_prop|intros productRefId].
    apply queues_one_after; [|intros found; apply queueEvent_queues_one].
    destruct (negb _); [|apply keeps_queue_ret].
    apply keeps_queue_bind; [apply keeps_queue_get|intros [data|]].
    + destruct (truthy _); [apply keeps_queue_ret|].
      apply keeps_queue_bind; [apply keeps_queue_error|intros _].
      apply keeps_queue_throw.
    + apply keeps_queue_bind; [apply keeps_queue_error|intros _].
      apply keeps_queue_throw.
  - unfold trackCheckout.
    destruct (obj_get eventData "products"); try apply queues_one_throw.
    apply queues_one_after; [apply keeps_queue_checkout_products|intros products].
    apply queueEvent_queues_one.
  - unfold trackPurchase.
    destruct (obj_get eventData "products"); try apply queues_one_throw.
    apply queues_one_after; [apply keeps_queue_purchase_products|].
    intros prepared w r w' E.
    unfold _queueEvent in E.
    rewrite !bind_bind, bind_modify, bind_ret in E.
    match type of E with bind ?m ?k ?w0 = _ =>
      destruct (returns_forEach (snd prepared)
                  (fun item => _cleanupExpiredAttributionData cfg h
                                 (fst item) (snd item))
                  (fun item => returns_cleanup cfg h (fst item) (snd item)) w0)
        as ([] & w1 & Ec);
      pose proof (keeps_queue_forEach (snd prepared) _
                    (fun item => keeps_queue_cleanup (fst item) (snd item))
                    _ _ _ Ec) as Hq
    end.
    erewrite bind_ok in E by exact Ec. injection E as <- <-.
    right. eexists. split; [reflexivity|]. split; [exact Hq|].
    apply cleanObject_clean.
  - apply queueEvent_queues_one.
  - apply queueEvent_queues_one.
Qed.

End Queue.

(** ** More on objects *)

Section MoreObjects.

Lemma obj_has_set (o : obj) (k k' : string) (v : value) :
  obj_has (obj_set o k v) k' = String.eqb k k' || obj_has o k'.
Proof.
  induction o as [|[k0 v0] o IH]; simpl.
  - now destruct (String.eqb k k').
  - destruct (String.eqb_spec k0 k) as [->|Hne]; simpl.
    + now destruct (String.eqb k k').
    + rewrite IH. destruct (String.eqb_spec k0 k') as [->|Hne'].
      * now rewrite orb_true_r.
      * reflexivity.
Qed.

Lemma obj_has_spread (o props : obj) (k : string) :
  obj_has (spread o props) k = obj_has o k || obj_has props k.
Proof.
  unfold spread. revert o.
  induction props as [|[k' v'] props IH]; intros o; simpl.
  - now rewrite orb_false_r.
  - rewrite IH, obj_has_set. simpl.
    destruct (String.eqb k' k), (obj_has o k), (obj_has props k); reflexivity.
Qed.

(** Assigning a property the value it has changes nothing. *)
Lemma obj_set_same (o : obj) (k : string) (v : value) :
  obj_has o k = true -> obj_get o k = v -> obj_set o k v = o.
Proof.
  induction o as [|[k0 v0] o IH]; simpl; intros Hh Hg; [discriminate Hh|].
  destruct (String.eqb_spec k0 k) as [->|Hne].
  - now subst.
  - now rewrite IH.
Qed.

Lemma spread_same (o props : obj) :
  Forall (fun kv => obj_has o (fst kv) = true /\ obj_get o (fst kv) = snd kv)
    props ->
  spread o props = o.
Proof.
  unfold spread. induction 1 as [|[k v] props [Hh Hg] _ IH]; simpl.
  - reflexivity.
  - simpl in Hh, Hg. now rewrite obj_set_same.
Qed.

(** Cleaning keeps a property whose value is neither [undefined] nor
    [null] nor an object. *)
Definition plain (v : value) : Prop :=
  match v with
  | VUndefined | VNull | VObj _ => False
  | _ => True
  end.

Lemma cleanObject_keeps_plain (o : obj) (k : string) (v : value) :
  plain v -> obj_get o k = v -> obj_get (_cleanObject o) k = v.
Proof.
  intros Hv. induction o as [|[k' x] o IH]; intros H.
  - simpl in H. subst v. contradiction.
  - rewrite cleanObject_cons. simpl in H.
    destruct (String.eqb k' k) eqn:E.
    + subst x. destruct v; try contradiction; simpl; now rewrite E.
    + destruct x as [| |b|n|s|nested|items]; simpl; rewrite ?E; auto.
      destruct (_cleanObject nested); simpl; rewrite ?E; auto.
Qed.

(** Cleaning adds no property. *)
Lemma cleanObject_has (o : obj) (k : string) :
  obj_has (_cleanObject o) k = true -> obj_has o k = true.
Proof.
  induction o as [|[k' x] o IH]; [discriminate|].
  rewrite cleanObject_cons. simpl.
  destruct (String.eqb k' k) eqn:E; [reflexivity|].
  destruct x as [| |b|n|s|nested|items]; simpl; rewrite ?E; auto.
  destruct (_cleanObject nested); simpl; rewrite ?E; auto.
Qed.

(** Names that are all different. *)
Fixpoint distinct (names : list string) : bool :=
  match names with
  | [] => true
  | name :: rest => negb (existsb (String.eqb name) rest) && distinct rest
  end.

Lemma distinct_NoDup (names : list string) :
  distinct names = true -> List.NoDup names.
Proof.
  induction names as [|name rest IH]; intros H; [constructor|].
  simpl in H. apply andb_true_iff in H. destruct H as [Hn Hr].
  constructor; [|now apply IH].
  intros Hin. apply negb_true_iff in Hn.
  assert (Hex : existsb (String.eqb name) rest = true).
  { apply existsb_exists. exists name. split; [exact Hin|apply String.eqb_refl]. }
  congruence.
Qed.

(** A property read throws or gives the property. *)
Lemma prop_cases (v : value) (k : string) :
  prop v k = throw TypeError \/ prop v k = ret (member v k).
Proof. destruct v; auto. Qed.

End MoreObjects.

(** ** The merge, field by field *)

Section MergeFields.

Definition named (fields : list string) (k : string) : bool :=
  existsb (String.eqb k) fields.

Lemma named_In (fields : list string) (k : string) :
  named fields k = true <-> In k fields.
Proof.
  unfold named. rewrite existsb_exists. split.
  - intros (x & Hx & E). apply String.eqb_eq in E. now subst.
  - intros H. exists k. split; [exact H|apply String.eqb_refl].
Qed.

Lemma merge_sponsored_field (base record : obj) (k : string) :
  truthy (obj_get record "isSponsored") = true ->
  In k sponsored_fields ->
  obj_get (_mergeAttributionData base record) k = obj_get record k.
Proof.
  intros Hflag Hk. unfold _mergeAttributionData. rewrite Hflag.
  simpl in Hk.
  repeat (destruct Hk as [<-|Hk];
          [rewrite obj_get_spread_named;
           [reflexivity
           |simpl; repeat (apply NoDup_cons; split; [set_solver|]);
            apply NoDup_nil_2
           |reflexivity]|]).
  contradiction.
Qed.

Lemma obj_has_named (props : obj) (k : string) :
  obj_has props k = named (map fst props) k.
Proof.
  unfold named. induction props as [|[k' v'] props IH]; simpl; [reflexivity|].
  rewrite (String.eqb_sym k k'). now destruct (String.eqb k' k).
Qed.

Lemma merge_has (base record : obj) (k : string) :
  obj_has (_mergeAttributionData base record) k
  = obj_has base k
    || named core_fields k
    || (truthy (obj_get record "isSponsored") && named sponsored_fields k).
Proof.
  unfold _mergeAttributionData. rewrite !obj_has_spread, !obj_has_named.
  destruct (truthy (obj_get record "isSponsored")); [reflexivity|].
  simpl. now rewrite orb_false_r.
Qed.

(** [_mergeAttributionData], read property by property. *)
Lemma merge_get (base record : obj) (k : string) :
  obj_get (_mergeAttributionData base record) k
  = (if named core_fields k then obj_get record k
     else if truthy (obj_get record "isSponsored") && named sponsored_fields k
          then obj_get record k
          else obj_get base k).
Proof.
  destruct (named core_fields k) eqn:Hcore.
  - apply merge_core_field. now apply named_In.
  - assert (Hnc : ~ In k core_fields).
    { intros H. apply named_In in H. congruence. }
    destruct (named sponsored_fields k) eqn:Hsp.
    + apply named_In in Hsp.
      destruct (truthy (obj_get record "isSponsored")) eqn:Hflag; simpl.
      * now apply merge_sponsored_field.
      * now apply merge_organic_field.
    + rewrite andb_false_r. apply merge_other_field; [exact Hnc|].
      intros H. apply named_In in H. congruence.
Qed.

(** X6.  [_mergeAttributionData], read property by property: the nine core
    attribution fields of the merged event are the record's, whatever the
    event carried (a field the record lacks becomes [undefined]); the nine
    retail-media fields are the record's when the record is sponsored, and
    the event's own otherwise; every other property is the event's own.
    The merged event has the event's properties, the core fields and, for
    a sponsored record, the retail-media fields, and no other. *)
Theorem merge_reads (base record : obj) (k : string) :
  obj_get (_mergeAttributionData base record) k
  = (if named core_fields k then obj_get record k
     else if truthy (obj_get record "isSponsored") && named sponsored_fields k
          then obj_get record k
          else obj_get base k)
  /\ obj_has (_mergeAttributionData base record) k
     = obj_has base k
       || named core_fields k
       || (truthy (obj_get record "isSponsored") && named sponsored_fields k).
Proof. split; [apply merge_get|apply merge_has]. Qed.

(** X7.  Merging a record twice is merging it once. *)
Theorem merge_idempotent (base record : obj) :
  _mergeAttributionData (_mergeAttributionData base record) record
  = _mergeAttributionData base record.
Proof.
  set (m := _mergeAttributionData base record).
  assert (Hfield : forall k,
            named core_fields k
            || (truthy (obj_get record "isSponsored")
                && named sponsored_fields k) = true ->
            obj_has m k = true /\ obj_get m k = obj_get record k).
  { intros k Hk. split.
    - unfold m. rewrite merge_has.
      destruct (obj_has base k); [reflexivity|exact Hk].
    - unfold m. rewrite merge_get.
      destruct (named core_fields k); [reflexivity|].
      rewrite orb_false_l in Hk. now rewrite Hk. }
  unfold _mergeAttributionData at 1.
  rewrite (spread_same m).
  - destruct (truthy (obj_get record "isSponsored")) eqn:Hflag;
      [|reflexivity].
    apply spread_same.
    repeat (constructor; [apply Hfield; reflexivity|]).
    constructor.
  - repeat (constructor; [apply Hfield; reflexivity|]). constructor.
Qed.

End MergeFields.

(** ** Add to cart from a stored click *)

Section AttributedAddToCart.

Context (cfg : Config) (h : Host).

(** The event [trackAddToCart] builds from the record of a click. *)
Definition addToCart_attributed_event (eventData record : obj) : obj :=
  _mergeAttributionData (addToCart_baseEvent h eventData (Some record)) record.

Lemma addToCart_attributed_run (eventData : obj) (record : obj) (w w1 : World) :
  truthy (obj_get eventData "clickId") = false ->
  is_product (obj_get eventData "product") ->
  _getAttributionData cfg h (member (obj_get eventData "product") "refId") w
  = (Ok (Some record), w1) ->
  truthy (obj_get record "clickId") = true ->
  trackAddToCart cfg h eventData w
  = (Ok (_cleanObject (addToCart_attributed_event eventData record)),
     with_pendingEvents
       (pendingEvents w1
          ++ [("add-to-carts",
               _cleanObject (addToCart_attributed_event eventData record))])%list
       w1).
Proof.
  intros Hclick [Hu Hn] E Hid.
  assert (Hprop : prop (obj_get eventData "product") "refId" w
                  = (Ok (member (obj_get eventData "product") "refId"), w)).
  { destruct (obj_get eventData "product"); try contradiction; reflexivity. }
  unfold trackAddToCart. erewrite bind_ok by exact Hprop.
  rewrite Hclick. simpl negb. cbv iota.
  rewrite bind_bind. erewrite bind_ok by exact E.
  cbv beta iota. rewrite Hid. reflexivity.
Qed.

(** X8.  A [trackAddToCart] call without a [clickId], for a product whose
    resolution finds the record [r] of an earlier click, queues the event
    built from that record: its [clickId] is the record's, its product is
    the caller's, and its attribution fields read as
    [_mergeAttributionData] leaves them.  The record is not consumed: the
    product resolves to [r] afterwards as before. *)
Theorem addToCart_uses_stored_click (eventData : obj) (sp : bool) (r : obj)
    (w : World) :
  truthy (obj_get eventData "clickId") = false ->
  is_product (obj_get eventData "product") ->
  let p := member (obj_get eventData "product") "refId" in
  truthy (customerId w) = true ->
  truthy p = true ->
  storage_fault h <> Unavailable ->
  resolves_from cfg h w p sp r ->
  truthy (obj_get r "clickId") = true ->
  let event := addToCart_attributed_event eventData r in
  exists w',
    trackAddToCart cfg h eventData w = (Ok (_cleanObject event), w')
    /\ pendingEvents w'
       = (pendingEvents w ++ [("add-to-carts", _cleanObject event)])%list
    /\ obj_get event "clickId" = obj_get r "clickId"
    /\ (plain (obj_get r "clickId") ->
        obj_get (_cleanObject event) "clickId" = obj_get r "clickId")
    /\ resolves_from cfg h w' p sp r
    /\ exists w'', _getAttributionData cfg h p w' = (Ok (Some r), w'').
Proof.
  intros Hclick Hprod p Hc Hp Hf Hr Hid event.
  destruct (get_resolves cfg h Hf p sp r w Hc Hp Hr) as (w1 & E).
  pose proof (get_confines cfg h (customerId w) p w _ w1 eq_refl E) as C.
  pose proof (get_preserves_resolves cfg h p w w1 _ p sp r E Hr) as Hr1.
  assert (Hkey : obj_get event "clickId" = obj_get r "clickId").
  { unfold event, addToCart_attributed_event. rewrite merge_get.
    simpl. rewrite andb_false_r. unfold js_or. now rewrite Hclick. }
  eexists. split.
  { exact (addToCart_attributed_run eventData r w w1 Hclick Hprod E Hid). }
  split; [simpl; now rewrite (confined_pendingEvents _ _ _ C)|].
  split; [exact Hkey|].
  split; [intros Hplain; now apply cleanObject_keeps_plain|].
  assert (Hr' : resolves_from cfg h
                  (with_pendingEvents
                     (pendingEvents w1
                        ++ [("add-to-carts", _cleanObject event)])%list w1)
                  p sp r).
  { destruct Hr1 as [Hl Hd]. split.
    - apply (holds_live_ext cfg h w1 _ p sp r); [reflexivity..|exact Hl].
    - intros Hsp.
      apply (channel_dead_ext cfg h w1 _ p true); [reflexivity..|now apply Hd]. }
  split; [exact Hr'|].
  apply (get_resolves cfg h Hf p sp r); [|exact Hp|exact Hr'].
  simpl. now rewrite (confined_customerId _ _ _ C).
Qed.

End AttributedAddToCart.

(** ** From the click to the cart *)

Section ClickToCart.

Context (cfg : Config).

(** A click whose identifiers print and whose [adSetId.length] compares
    does not throw. *)
Lemma click_prints_no_throw (eventData : obj) (w : World) :
  keys_print (customerId w) (obj_get eventData "refId") = true ->
  adSetId_compares eventData = true ->
  click_throws w eventData = false.
Proof.
  intros Hk Ha. unfold click_throws, store_throws.
  rewrite Hk, Ha. cbn [negb orb]. now rewrite !andb_false_r.
Qed.

(** X9.  Under a session (a truthy customer id), a click on a product
    with a truthy [refId] and a widget or an ad set, whose customer id and
    [refId] print and whose [adSetId.length] compares (so that the click
    does not throw), and whose click event carries the non-empty string
    [id] as its [clickId]; then an add-to-cart without a [clickId] for a
    product object with the same [refId], at a time before the click's
    record expires; and, where the click is organic, no live sponsored
    record of the product left from before the click.  Then the click is
    queued with [id] as its [clickId], the add-to-cart returns its event,
    and that event carries [id] as its [clickId] and the core attribution
    fields the click carried as strings. *)
Theorem click_then_addToCart (h1 h2 : Host) (click cart : obj) (id : string)
    (w : World) :
  truthy (customerId w) = true ->
  let p := obj_get click "refId" in
  truthy p = true ->
  truthy (obj_get click "widgetId") || truthy (obj_get click "adSetId") = true ->
  keys_print (customerId w) p = true ->
  adSetId_compares click = true ->
  obj_get (click_event h1 click) "clickId" = VStr id ->
  id <> "" ->
  truthy (obj_get cart "clickId") = false ->
  is_product (obj_get cart "product") ->
  member (obj_get cart "product") "refId" = p ->
  Date_now h2 < Date_now h1 + attributionWindow cfg ->
  (click_isSponsored h1 click = false -> channel_dead cfg h2 w p true) ->
  let w1 := snd (trackClick cfg h1 click w) in
  exists event w2,
    trackAddToCart cfg h2 cart w1 = (Ok event, w2)
    /\ In ("clicks", _cleanObject (click_event h1 click)) (pendingEvents w1)
    /\ obj_get (_cleanObject (click_event h1 click)) "clickId" = VStr id
    /\ obj_get event "clickId" = VStr id
    /\ (forall k s, In k core_fields -> obj_get click k = VStr s ->
          obj_get event k = VStr s).
Proof.
  intros Hc p Hp Hcom Hkp Hcmp Hid Hne Hnoclick Hprod Hrefid Hwin Hprior w1.
  set (sponsored := click_isSponsored h1 click).
  set (record := click_record cfg h1 click).
  (* the click *)
  destruct (trackClick_queues cfg h1 click w
              (click_prints_no_throw click w Hkp Hcmp)) as (wa & Ea & Et).
  fold p in Ea. rewrite Hp, Hcom in Ea. cbn [andb] in Ea.
  destruct (store_effect cfg h1 p
              (spread (click_event h1 click)
                 [("isSponsored", VBool (click_isSponsored h1 click))])
              w Hc Hp Hkp) as (x & Ex & A & _).
  rewrite Ea in Ex. injection Ex as <-.
  change (truthy (obj_get (spread (click_event h1 click)
                             [("isSponsored",
                               VBool (click_isSponsored h1 click))])
                    "isSponsored")) with sponsored in A.
  fold record in A. fold (click_record cfg h1 click) in A. fold record in A.
  pose proof (store_confines cfg h1 (customerId w) p _ w _ wa eq_refl Ea) as Ca.
  change (truthy (obj_get (spread (click_event h1 click)
                             [("isSponsored",
                               VBool (click_isSponsored h1 click))])
                    "isSponsored")) with sponsored in Ca.
  assert (Hw1 : w1 = with_pendingEvents
                       (pendingEvents wa
                          ++ [("clicks", _cleanObject (click_event h1 click))])%list
                       wa)
    by (unfold w1; now rewrite Et).
  (* the record is live at the add-to-cart *)
  assert (Hlive : is_live h2 record = true).
  { unfold is_live, js_gt. simpl.
    destruct (Z.ltb_spec (Date_now h2) (Date_now h1 + attributionWindow cfg));
      [reflexivity|lia]. }
  assert (Hheld : holds_live cfg h2 w1 p sponsored record).
  { split; [exact Hlive|]. left. rewrite Hw1. simpl. rewrite A.
    apply lookup_insert_eq. }
  assert (Hres : resolves_from cfg h2 w1 p sponsored record).
  { split; [exact Hheld|]. intros Hsp.
    destruct (confined_channel cfg h2 _ w wa p true Ca) as [Am Dm].
    - simpl. rewrite Hsp. intros Hin. apply list_elem_of_singleton in Hin.
      exact (mapKey_channel_ne p true Hin).
    - simpl. rewrite Hsp. intros Hin. apply list_elem_of_singleton in Hin.
      exact (storageKey_channel_ne cfg _ p true Hin).
    - apply (channel_dead_ext cfg h2 wa w1 p true);
        [rewrite Hw1; reflexivity..|].
      apply (channel_dead_ext cfg h2 w wa p true Am Dm). now apply Hprior. }
  assert (Hc1 : truthy (customerId w1) = true).
  { rewrite Hw1. simpl. now rewrite (confined_customerId _ _ _ Ca). }
  (* the resolution at the add-to-cart *)
  assert (Hget : exists wb,
            _getAttributionData cfg h2 p w1 = (Ok (Some record), wb)).
  { destruct sponsored eqn:Hsp.
    - rewrite get_sponsored_first by assumption.
      destruct Hheld as [_ [Hcache|[Hdead _]]].
      + destruct (getFor_hit cfg h2 p true w1 record Hcache Hlive)
          as (wb & E & _).
        exists wb. erewrite bind_ok by exact E. reflexivity.
      + exfalso. specialize (Hdead record). rewrite Hw1 in Hdead. simpl in Hdead.
        rewrite A, lookup_insert_eq in Hdead. specialize (Hdead eq_refl).
        congruence.
    - destruct Hres as [_ Hd]. specialize (Hd eq_refl).
      destruct (getFor_none cfg h2 p true w1 Hd) as (wm & Em & _).
      pose proof (getFor_preserves_live cfg h2 _ _ _ _ _ p false record Em Hheld)
        as [_ [Hcache|[Hdead _]]].
      + destruct (getFor_hit cfg h2 p false wm record Hcache Hlive)
          as (wb & E & _).
        exists wb. rewrite get_sponsored_first by assumption.
        erewrite bind_ok by exact Em. exact E.
      + exfalso.
        destruct (getFor_other_channel cfg h2 p true w1 wm _ Em) as [Ao _].
        simpl negb in Ao. specialize (Hdead record).
        rewrite Ao, Hw1 in Hdead. simpl in Hdead.
        rewrite A, lookup_insert_eq in Hdead. specialize (Hdead eq_refl).
        congruence. }
  destruct Hget as (wb & Eg).
  assert (Hrid : obj_get record "clickId" = VStr id) by exact Hid.
  assert (Htruthy : truthy (obj_get record "clickId") = true).
  { rewrite Hrid. simpl. destruct (String.eqb_spec id ""); [contradiction|reflexivity]. }
  rewrite <- Hrefid in Eg.
  eexists _, _. split.
  { apply (addToCart_attributed_run cfg h2 cart record w1 wb); assumption. }
  split.
  { rewrite Hw1. simpl. apply in_or_app. right. now left. }
  split.
  { apply cleanObject_keeps_plain; [exact I|exact Hid]. }
  split.
  { apply cleanObject_keeps_plain; [exact I|].
    unfold addToCart_attributed_event. rewrite merge_get. simpl.
    rewrite andb_false_r. unfold js_or. now rewrite Hnoclick. }
  intros k s Hk Hs. apply cleanObject_keeps_plain; [exact I|].
  unfold addToCart_attributed_event. rewrite merge_get.
  apply named_In in Hk. rewrite Hk. rewrite <- Hs.
  apply named_In in Hk. simpl in Hk.
  repeat (destruct Hk as [<-|Hk]; [reflexivity|]). contradiction.
Qed.

End ClickToCart.

(** ** Add to cart with the caller's click *)

Section ManualAddToCart.

Context (cfg : Config) (h : Host).

(** X10.  In the event of a [trackAddToCart] call that gives its own
    [clickId], the retail-media fields are taken from the caller's data
    only when that data has a truthy [isSponsored]; otherwise (as with
    data of the declared type [PAAddToCartEvent], which has no such
    property) the queued event has none of them, whatever the caller
    passed for them. *)
Theorem manual_addToCart_sponsored_fields (eventData : obj) (w : World) (k : string) :
  truthy (obj_get eventData "clickId") = true ->
  is_product (obj_get eventData "product") ->
  In k sponsored_fields ->
  exists event w',
    trackAddToCart cfg h eventData w = (Ok event, w')
    /\ (truthy (obj_get eventData "isSponsored") = false ->
        obj_has event k = false)
    /\ (truthy (obj_get eventData "isSponsored") = true ->
        plain (obj_get eventData k) ->
        obj_get event k = obj_get eventData k).
Proof.
  intros Hclick [Hu Hn] Hk.
  exists (_cleanObject (addToCart_manual_event h eventData)).
  eexists. split; [|split].
  - unfold trackAddToCart. rewrite Hclick. simpl negb. cbv iota.
    destruct (obj_get eventData "product") eqn:Hp; try contradiction;
      unfold addToCart_manual_event; rewrite ?Hp; reflexivity.
  - intros Hflag.
    destruct (obj_has (_cleanObject (addToCart_manual_event h eventData)) k)
      eqn:Hhas; [|reflexivity].
    apply cleanObject_has in Hhas. unfold addToCart_manual_event in Hhas.
    rewrite merge_has, Hflag in Hhas.
    simpl in Hk.
    repeat (destruct Hk as [<-|Hk]; [discriminate Hhas|]). contradiction.
  - intros Hflag Hplain. apply cleanObject_keeps_plain; [exact Hplain|].
    unfold addToCart_manual_event. rewrite merge_get, Hflag.
    simpl in Hk.
    repeat (destruct Hk as [<-|Hk]; [reflexivity|]). contradiction.
Qed.

End ManualAddToCart.

(** ** Checkout *)

Section Checkout.

Context (cfg : Config) (h : Host).

(** The products of a checkout are enriched as those of a purchase are:
    the two loops make the same reads and build the same products. *)
Lemma checkout_products_as_purchase (items : list value) (w : World) :
  checkout_products cfg h items w
  = match purchase_products cfg h items w with
    | (Ok prepared, w1) => (Ok (fst prepared), w1)
    | (Throw e, w1) => (Throw e, w1)
    end.
Proof.
  revert w. induction items as [|product items IH]; intros w; simpl.
  - reflexivity.
  - unfold _enrichProductDataWithAttribution. rewrite bind_bind.
    destruct (_prepareProductWithAttribution cfg h product w)
      as [[prepared|e] w1] eqn:Ep.
    + erewrite bind_ok by exact Ep. rewrite bind_ret.
      unfold bind. rewrite IH, Ep.
      destruct (purchase_products cfg h items w1) as [[others|e] w2];
        reflexivity.
    + erewrite bind_throw by exact Ep. unfold bind. now rewrite Ep.
Qed.

(** X11.  [trackCheckout] enriches its products from the stored clicks as
    [trackPurchase] does, and consumes nothing: for a checkout of
    well-formed products that includes a product whose resolution uses
    the record [r], the event carries that product merged with [r], the
    queue gains the event, and afterwards the product resolves to [r] as
    before, so that the purchase that follows still finds it. *)
Theorem checkout_keeps_attribution (eventData : obj) (items : list value)
    (product : value) (sp : bool) (r : obj) (w : World) :
  storage_fault h <> Unavailable ->
  truthy (customerId w) = true ->
  obj_get eventData "products" = VArr items ->
  Forall is_product items ->
  In product items ->
  let p := member product "refId" in
  truthy p = true ->
  resolves_from cfg h w p sp r ->
  exists event w',
    trackCheckout cfg h eventData w = (Ok event, w')
    /\ pendingEvents w' = (pendingEvents w ++ [("checkouts", event)])%list
    /\ (exists products,
          obj_get event "products" = VArr (map VObj products)
          /\ List.length products = List.length items
          /\ In (_mergeAttributionData (_enrichProductData product) r)
               products)
    /\ resolves_from cfg h w' p sp r
    /\ exists w'', _getAttributionData cfg h p w' = (Ok (Some r), w'').
Proof.
  intros Hf Hc Hitems Hwf Hin p Hp Hr.
  destruct (purchase_products_spec cfg h Hf items Hwf w Hc)
    as ([products consumed] & w1 & E1 & C1 & P1 & L1 & D1 & R1).
  destruct (R1 p sp r Hr) as [_ Iprod]. simpl in Iprod.
  destruct (Iprod product Hin eq_refl Hp) as [_ Ienr].
  assert (Hlen : forall (l : list value) (w0 w0' : World) prepared,
            purchase_products cfg h l w0 = (Ok prepared, w0') ->
            List.length (fst prepared) = List.length l).
  { induction l as [|x l IH]; intros w0 w0' prepared E; simpl in E.
    - now injection E as <- _.
    - unfold bind in E.
      destruct (_prepareProductWithAttribution cfg h x w0) as [[pr|e] wa];
        [|discriminate E].
      destruct (purchase_products cfg h l wa) as [[others|e] wb] eqn:Eo;
        [|discriminate E].
      injection E as <- _. simpl. f_equal. exact (IH _ _ _ Eo). }
  set (event := checkout_event h eventData products).
  assert (Hr1 : resolves_from cfg h w1 p sp r).
  { destruct Hr as [Hl Hd]. split; [now apply L1|].
    intros Hsp. now apply D1, Hd. }
  assert (Hr' : resolves_from cfg h
                  (with_pendingEvents
                     (pendingEvents w1 ++ [("checkouts", _cleanObject event)])%list
                     w1) p sp r).
  { destruct Hr1 as [Hl Hd]. split.
    - apply (holds_live_ext cfg h w1 _ p sp r); [reflexivity..|exact Hl].
    - intros Hsp.
      apply (channel_dead_ext cfg h w1 _ p true); [reflexivity..|now apply Hd]. }
  exists (_cleanObject event). eexists. split.
  { unfold trackCheckout. rewrite Hitems.
    erewrite bind_ok
      by (rewrite checkout_products_as_purchase, E1; reflexivity).
    reflexivity. }
  split; [simpl; now rewrite P1|].
  split.
  { exists products. split; [|split; [|exact Ienr]].
    - apply cleanObject_keeps_plain; [exact I|reflexivity].
    - exact (Hlen _ _ _ _ E1). }
  split; [exact Hr'|].
  apply (get_resolves cfg h Hf p sp r); [|exact Hp|exact Hr'].
  simpl. now rewrite C1.
Qed.

End Checkout.

(** ** Removing a product's records *)

Section Cleanup.

Context (cfg : Config) (h : Host).




End Cleanup.

(** ** Reading through the cache *)

Section Caching.

Context (cfg : Config) (h : Host).

(** X13.  A channel read that finds a live record only in the durable
    backend puts it in the cache; the next read of that channel returns
    the same record from the cache and makes no access to the durable
    backend. *)
Theorem second_read_is_served_from_cache (p : value) (sp : bool) (r : obj)
    (w : World) :
  cache_dead h w (mapKey p sp) ->
  storage_fault h <> Unavailable ->
  durable_read cfg h w (storageKey cfg (customerId w) p sp)
  = Some (TJson (VObj r)) ->
  is_live h r = true ->
  exists w1,
    _getAttributionDataFor cfg h p sp w = (Ok (Some r), w1)
    /\ attributionData w1 !! mapKey p sp = Some r
    /\ _getAttributionDataFor cfg h p sp w1
       = (Ok (Some r),
          touch (MapGet (mapKey p sp)) (touch (MapHas (mapKey p sp)) w1)).
Proof.
  intros Hdead Hf Hr Hl.
  destruct (getFor_load cfg h p sp w r Hdead Hf Hr Hl) as (w1 & E & A & _).
  assert (Hc : attributionData w1 !! mapKey p sp = Some r)
    by (rewrite A; apply lookup_insert_eq).
  exists w1. split; [exact E|]. split; [exact Hc|].
  unfold _getAttributionDataFor. rewrite bind_gets.
  erewrite bind_ok by (apply check_memory_cache_hit; eassumption).
  reflexivity.
Qed.

End Caching.

(** ** Reading a cleaned event *)

Section CleanReads.

Lemma obj_get_absent (o : obj) (k : string) :
  obj_has o k = false -> obj_get o k = VUndefined.
Proof.
  induction o as [|[k' v] o IH]; simpl; [reflexivity|].
  destruct (String.eqb k' k); [discriminate|exact IH].
Qed.

Lemma obj_has_key (o : obj) (k : string) :
  obj_has o k = true <-> In k (map fst o).
Proof.
  induction o as [|[k' v] o IH]; simpl; [intuition discriminate|].
  destruct (String.eqb_spec k' k) as [->|Hne]; [intuition|].
  rewrite IH. intuition.
Qed.



End CleanReads.

(** ** Storage keys *)

Section StorageKeys.

Context (cfg : Config).

Lemma underscore_split (a b x y : string) :
  without "_" a = true -> without "_" b = true ->
  a +:+ "_" +:+ x = b +:+ "_" +:+ y -> a = b /\ x = y.
Proof.
  revert b. induction a as [|c a IH]; intros [|d b] Ha Hb H.
  - change (String "_" x = String "_" y) in H. injection H as ->. auto.
  - exfalso. change (String "_" x = String d (b +:+ "_" +:+ y)) in H.
    injection H as <- _. discriminate Hb.
  - exfalso. change (String c (a +:+ "_" +:+ x) = String "_" y) in H.
    injection H as -> _. discriminate Ha.
  - simpl in Ha, Hb.
    apply andb_true_iff in Ha. apply andb_true_iff in Hb.
    change (String c (a +:+ "_" +:+ x) = String d (b +:+ "_" +:+ y)) in H.
    injection H as -> H.
    destruct (IH b (proj2 Ha) (proj2 Hb) H) as [-> ->]. auto.
Qed.

(** X15.  Under customer ids without an underscore, the storage key
    determines the customer, the product (as it prints) and the channel:
    no two of them share a durable entry.  The condition is needed: the
    key joins its parts with underscores, so that customer [a_b] with
    product [x] and customer [a] with product [b_x] have one key. *)
Theorem storageKey_separates (c c' p p' : value) (sp sp' : bool) :
  without "_" (to_string c) = true ->
  without "_" (to_string c') = true ->
  (storageKey cfg c p sp = storageKey cfg c' p' sp'
   <-> to_string c = to_string c' /\ to_string p = to_string p' /\ sp = sp')
  /\ (forall a b x : string,
        storageKey cfg (VStr (a +:+ "_" +:+ b)) (VStr x) sp
        = storageKey cfg (VStr a) (VStr (b +:+ "_" +:+ x)) sp).
Proof.
  intros Hc Hc'. split; [split|].
  - intros H. unfold storageKey in H.
    do 2 apply String.app_inj in H.
    apply underscore_split in H; [|assumption..].
    destruct H as [Hcc H]. split; [exact Hcc|].
    exact (mapKey_inj p p' sp sp' H).
  - intros (H1 & H2 & ->). unfold storageKey. now rewrite H1, H2.
  - intros a b x. unfold storageKey. simpl to_string.
    now rewrite !append_assoc.
Qed.

End StorageKeys.

(** ** The channel of a click *)

Section ClickChannel.

Context (cfg : Config) (h : Host).

(** X16.  A click is sponsored when its [adSetId] has a positive
    [length]; a number has no [length].  So, under a session (a truthy
    customer id), a click with a truthy [refId], for a customer id and a
    [refId] that print, whose [adSetId] is a number other than 0, as an id
    arrives when it was read from a number in JSON, is recorded, for it
    has an [adSetId], but on the organic channel: the sponsored channel of
    the product is left as it was, and what is later merged from the
    record takes no retail-media field from it. *)
Theorem click_with_numeric_adSetId_is_organic (eventData : obj) (n : Z)
    (w : World) :
  truthy (customerId w) = true ->
  truthy (obj_get eventData "refId") = true ->
  keys_print (customerId w) (obj_get eventData "refId") = true ->
  obj_get eventData "adSetId" = VNum n ->
  n <> 0 ->
  let refId := obj_get eventData "refId" in
  let record := click_record cfg h eventData in
  let w' := snd (trackClick cfg h eventData w) in
  click_isSponsored h eventData = false
  /\ attributionData w' !! mapKey refId false = Some record
  /\ attributionData w' !! mapKey refId true
     = attributionData w !! mapKey refId true
  /\ obj_get record "adSetId" = VNum n
  /\ obj_get record "isSponsored" = VBool false
  /\ (forall base k, In k sponsored_fields ->
        obj_get (_mergeAttributionData base record) k = obj_get base k).
Proof.
  intros Hc Hp Hkp Had Hn refId record w'.
  assert (Hcmp : adSetId_compares eventData = true).
  { unfold adSetId_compares. rewrite Had. apply orb_true_r. }
  assert (Hsp : click_isSponsored h eventData = false).
  { unfold click_isSponsored. rewrite Had. simpl. apply andb_false_r. }
  assert (Hflag : obj_get record "isSponsored" = VBool false).
  { unfold record. rewrite click_record_isSponsored. now rewrite Hsp. }
  assert (Hcom : truthy (obj_get eventData "refId")
                 && (truthy (obj_get eventData "widgetId")
                     || truthy (obj_get eventData "adSetId")) = true).
  { rewrite Hp, Had. simpl.
    destruct (Z.eqb_spec n 0); [contradiction|]. apply orb_true_r. }
  destruct (trackClick_queues cfg h eventData w
              (click_prints_no_throw eventData w Hkp Hcmp)) as (wa & Ea & Et).
  rewrite Hcom in Ea.
  destruct (store_effect cfg h refId
              (spread (click_event h eventData)
                 [("isSponsored", VBool (click_isSponsored h eventData))])
              w Hc Hp Hkp) as (x & Ex & A & _).
  fold refId in Ea. rewrite Ea in Ex. injection Ex as <-.
  change (truthy (obj_get (spread (click_event h eventData)
                             [("isSponsored",
                               VBool (click_isSponsored h eventData))])
                    "isSponsored")) with (click_isSponsored h eventData) in A.
  fold (click_record cfg h eventData) in A. fold record in A.
  rewrite Hsp in A.
  assert (Hw' : attributionData w' = <[mapKey refId false := record]>
                                       (attributionData w)).
  { unfold w'. rewrite Et. cbn [snd]. exact A. }
  split; [exact Hsp|]. split; [|split; [|split; [|split]]].
  - rewrite Hw'. apply lookup_insert_eq.
  - rewrite Hw'. apply lookup_insert_ne. apply (mapKey_channel_ne refId false).
  - exact Had.
  - exact Hflag.
  - intros base k Hk. apply merge_organic_field; [|exact Hk].
    now rewrite Hflag.
Qed.

End ClickChannel.

(** ** Other products *)

Section OtherProducts.

Context (cfg : Config) (h : Host).

(** A method that leaves a channel of product [q] as it was, however it
    ends. *)
Definition leaves_channel {A : Type} (q : value) (sq : bool) (m : M A) : Prop :=
  forall w r w', m w = (r, w') -> same_channel cfg h w w' q sq.


Lemma leaves_channel_ret {A : Type} (q : value) (sq : bool) (a : A) :
  leaves_channel q sq (ret a).
Proof. intros w r w' E. injection E as _ <-. apply same_channel_refl. Qed.

Lemma leaves_channel_throw {A : Type} (q : value) (sq : bool) (e : exn) :
  leaves_channel q sq (@throw A e).
Proof. intros w r w' E. injection E as _ <-. apply same_channel_refl. Qed.


Lemma leaves_channel_prop (q : value) (sq : bool) (v : value) (k : string) :
  leaves_channel q sq (prop v k).
Proof. destruct v; (apply leaves_channel_throw || apply leaves_channel_ret). Qed.












End OtherProducts.

(** ** Cookies as the browser lists them *)

Section CookieString.

(** *** [split] *)

Lemma split_skip (sep t s piece : string) :
  split_from sep (String.length t) piece (t +:+ s) = split_from sep 0 piece s.
Proof.
  induction t as [|a t IH]; [reflexivity|].
  rewrite append_cons. simpl. exact IH.
Qed.

(** Where the separator does not start the piece goes on. *)
Lemma split_no_match (sep piece : string) (c : ascii) (s : string) :
  startsWith (String c s) sep = false ->
  split_from sep 0 piece (String c s)
  = split_from sep 0 (piece +:+ String c "") s.
Proof. intros H. cbn [split_from]. now rewrite H. Qed.

(** At a separator the piece ends. *)
Lemma split_separator (a : ascii) (sep' s piece : string) :
  split_from (String a sep') 0 piece (String a sep' +:+ s)
  = piece :: split_from (String a sep') 0 "" s.
Proof.
  rewrite append_cons.
  change (split_from (String a sep') 0 piece (String a (sep' +:+ s)))
    with (if startsWith (String a (sep' +:+ s)) (String a sep')
          then piece :: split_from (String a sep')
                          (String.length (String a sep') - 1) ""
                          (sep' +:+ s)
          else split_from (String a sep') 0 (piece +:+ String a "")
                 (sep' +:+ s)).
  rewrite <- append_cons, startsWith_append.
  replace (String.length (String a sep') - 1)%nat with (String.length sep')
    by (simpl; lia).
  now rewrite split_skip.
Qed.

(** Through a stretch without the first character of the separator the
    piece goes on. *)
Lemma split_run (a : ascii) (sep' t s piece : string) :
  without a t = true ->
  split_from (String a sep') 0 piece (t +:+ s)
  = split_from (String a sep') 0 (piece +:+ t) s.
Proof.
  revert piece. induction t as [|c t IH]; intros piece Ht.
  - now rewrite append_nil_r.
  - simpl in Ht. apply andb_true_iff in Ht. destruct Ht as [Hc Ht].
    rewrite append_cons.
    change (split_from (String a sep') 0 piece (String c (t +:+ s)))
      with (if startsWith (String c (t +:+ s)) (String a sep')
            then piece :: split_from (String a sep')
                            (String.length (String a sep') - 1) "" (t +:+ s)
            else split_from (String a sep') 0 (piece +:+ String c "")
                   (t +:+ s)).
    assert (Hs : startsWith (String c (t +:+ s)) (String a sep') = false).
    { simpl. rewrite Ascii.eqb_sym.
      now destruct (Ascii.eqb c a). }
    rewrite Hs, IH by exact Ht.
    now rewrite append_assoc.
Qed.

(** *** The cookies *)

(** [document.cookie] for a list of cookies, each a name and a value:
    [name=value] pairs joined by a semicolon and a space. *)
Fixpoint cookie_string (cookies : list (string * string)) : string :=
  match cookies with
  | [] => ""
  | [(n, v)] => n +:+ "=" +:+ v
  | (n, v) :: rest => n +:+ "=" +:+ v +:+ "; " +:+ cookie_string rest
  end.

(** The same, every cookie led by the semicolon and the space. *)
Fixpoint cookie_chunks (cookies : list (string * string)) : string :=
  match cookies with
  | [] => ""
  | (n, v) :: rest => "; " +:+ n +:+ "=" +:+ v +:+ cookie_chunks rest
  end.

Lemma cookie_string_chunks (c : string * string)
    (cookies : list (string * string)) :
  "; " +:+ cookie_string (c :: cookies) = cookie_chunks (c :: cookies).
Proof.
  revert c. induction cookies as [|c' cookies IH]; intros [n v].
  - simpl. now rewrite append_nil_r.
  - change (cookie_string ((n, v) :: c' :: cookies))
      with (n +:+ "=" +:+ v +:+ "; " +:+ cookie_string (c' :: cookies)).
    rewrite IH. reflexivity.
Qed.

(** A cookie as a browser keeps it: no semicolon in its name or its
    value, no equals sign in its name. *)
Definition cookie_ok (c : string * string) : bool :=
  without ";" (fst c) && without "=" (fst c) && without ";" (snd c).

Definition name_ok (name : string) : bool :=
  without ";" name && without "=" name.

Lemma chunks_start (cookies : list (string * string)) :
  cookie_chunks cookies = ""
  \/ exists t, cookie_chunks cookies = String ";" t.
Proof. destruct cookies as [|[n v] rest]; [now left|right]. now eexists. Qed.

(** Names without an equals sign: one followed by an equals sign starts
    the other followed by one only if they are the same name. *)
Lemma startsWith_name (n name t : string) :
  without "=" n = true -> without "=" name = true ->
  startsWith (n +:+ String "=" t) (name +:+ "=") = String.eqb n name.
Proof.
  revert name. induction n as [|a n IH]; intros [|b name] Hn Hname.
  - reflexivity.
  - simpl in Hname. apply andb_true_iff in Hname. destruct Hname as [Hb _].
    change (startsWith (String "=" t) (String b (name +:+ "=")) = false).
    cbn [startsWith]. destruct (Ascii.eqb b "="); [discriminate Hb|reflexivity].
  - simpl in Hn. apply andb_true_iff in Hn. destruct Hn as [Ha _].
    change (startsWith (String a (n +:+ String "=" t)) (String "=" "") = false).
    cbn [startsWith]. rewrite Ascii.eqb_sym.
    destruct (Ascii.eqb a "="); [discriminate Ha|reflexivity].
  - simpl in Hn, Hname.
    apply andb_true_iff in Hn. apply andb_true_iff in Hname.
    rewrite !append_cons. cbn [startsWith String.eqb].
    rewrite (Ascii.eqb_sym b a).
    destruct (Ascii.eqb a b); [|reflexivity].
    simpl. apply IH; tauto.
Qed.

Section Lookup.

Context (name : string).

Let separator : string := "; " +:+ name +:+ "=".

(** The pieces the first [split] of [_getCookie] cuts the cookies into. *)
Fixpoint pieces (cookies : list (string * string)) (piece : string)
  : list string :=
  match cookies with
  | [] => [piece]
  | (n, v) :: rest =>
      if String.eqb n name then piece :: pieces rest v
      else pieces rest (piece +:+ "; " +:+ n +:+ "=" +:+ v)
  end.

Lemma split_chunks (cookies : list (string * string)) (piece : string) :
  name_ok name = true ->
  forallb cookie_ok cookies = true ->
  split_from separator 0 piece (cookie_chunks cookies) = pieces cookies piece.
Proof.
  intros Hname. apply andb_true_iff in Hname. destruct Hname as [Hn1 Hn2].
  revert piece. induction cookies as [|[n v] rest IH]; intros piece Hok.
  - reflexivity.
  - simpl in Hok. apply andb_true_iff in Hok. destruct Hok as [Hc Hrest].
    unfold cookie_ok in Hc. simpl in Hc.
    apply andb_true_iff in Hc. destruct Hc as [Hc Hv].
    apply andb_true_iff in Hc. destruct Hc as [Hns Hne].
    simpl pieces. simpl cookie_chunks.
    destruct (String.eqb_spec n name) as [->|Hdiff].
    + transitivity (split_from separator 0 piece
                      (separator +:+ (v +:+ cookie_chunks rest))).
      { f_equal. unfold separator. str_norm. reflexivity. }
      etransitivity;
        [exact (split_separator ";" (String " " (name +:+ "="))
                  (v +:+ cookie_chunks rest) piece)|].
      f_equal.
      etransitivity;
        [exact (split_run ";" (String " " (name +:+ "=")) v
                  (cookie_chunks rest) "" Hv)|].
      exact (IH v Hrest).
    + assert (Hs : startsWith
                     (String ";"
                        (String " " (n +:+ "=" +:+ v +:+ cookie_chunks rest)))
                     separator = false).
      { unfold separator. str_norm. cbn [startsWith]. rewrite !Ascii.eqb_refl.
        cbn [andb].
        rewrite startsWith_name by assumption.
        now apply String.eqb_neq. }
      etransitivity; [exact (split_no_match separator piece ";" _ Hs)|].
      transitivity (split_from separator 0 (piece +:+ ";")
                      ((" " +:+ n +:+ "=" +:+ v) +:+ cookie_chunks rest)).
      { f_equal. str_norm. reflexivity. }
      etransitivity;
        [refine (split_run ";" (String " " (name +:+ "="))
                   (" " +:+ n +:+ "=" +:+ v) (cookie_chunks rest)
                   (piece +:+ ";") _)|].
      { str_norm. cbn [without]. rewrite without_append, Hns.
        cbn [without]. rewrite Hv. reflexivity. }
      etransitivity; [exact (IH _ Hrest)|].
      f_equal. str_norm. reflexivity.
Qed.

(** The cookies of the name sought. *)
Definition named_cookies (cookies : list (string * string))
  : list (string * string) :=
  List.filter (fun c => String.eqb (fst c) name) cookies.

Lemma pieces_length (cookies : list (string * string)) (piece : string) :
  List.length (pieces cookies piece) = S (List.length (named_cookies cookies)).
Proof.
  revert piece. induction cookies as [|[n v] rest IH]; intros piece;
    [reflexivity|].
  simpl. destruct (String.eqb n name); simpl; now rewrite IH.
Qed.

Lemma pieces_none (cookies : list (string * string)) (piece : string) :
  named_cookies cookies = [] ->
  pieces cookies piece = [piece +:+ cookie_chunks cookies].
Proof.
  revert piece. induction cookies as [|[n v] rest IH]; intros piece Hnone.
  - simpl. now rewrite append_nil_r.
  - simpl in *. destruct (String.eqb n name); [discriminate Hnone|].
    rewrite IH by exact Hnone. f_equal. now rewrite !append_assoc.
Qed.

Lemma pieces_one (cookies : list (string * string)) (piece : string)
    (c : string * string) :
  named_cookies cookies = [c] ->
  exists before after,
    pieces cookies piece = [before; snd c +:+ cookie_chunks after].
Proof.
  revert piece. induction cookies as [|[n v] rest IH]; intros piece Hone.
  - discriminate Hone.
  - simpl in *. destruct (String.eqb n name).
    + injection Hone as <- Hrest. simpl.
      exists piece, rest. now rewrite pieces_none.
    + apply IH. exact Hone.
Qed.

(** The second [split] of [_getCookie]: the value ends where the next
    cookie starts. *)
Lemma split_value (v : string) (after : list (string * string)) :
  without ";" v = true ->
  hd "" (split (v +:+ cookie_chunks after) ";") = v.
Proof.
  intros Hv. unfold split. rewrite split_run by exact Hv.
  destruct (chunks_start after) as [-> | [t ->]]; reflexivity.
Qed.

End Lookup.

(** X18.  [_getCookie] reads [document.cookie] right: for cookies as a
    browser lists them (no semicolon in a name or a value, no equals sign
    in a name) and such a name, it returns the value of the cookie of
    that name, whole and nothing else, whatever the other cookies are
    (one whose name ends in the name sought is not taken for it), and
    [null] when there is none.  It also returns [null] when the browser
    lists two cookies of the name. *)
Theorem getCookie_finds_the_cookie (cookies : list (string * string))
    (name : string) :
  name_ok name = true ->
  forallb cookie_ok cookies = true ->
  DocumentCookie._getCookie (cookie_string cookies) name
  = match named_cookies name cookies with
    | [c] => Some (snd c)
    | _ => None
    end.
Proof.
  intros Hname Hok. unfold DocumentCookie._getCookie, split.
  destruct cookies as [|c0 cookies].
  - simpl named_cookies. cbv iota.
    set (sep := "; " +:+ name +:+ "=").
    assert (Hs1 : startsWith (String ";" (String " " "")) sep = false)
      by (destruct name; reflexivity).
    assert (Hs2 : startsWith (String " " "") sep = false) by reflexivity.
    assert (E : split_from sep 0 "" (String ";" (String " " ""))
                = [("" +:+ ";") +:+ " "]).
    { etransitivity; [exact (split_no_match sep "" ";" _ Hs1)|].
      etransitivity; [exact (split_no_match sep _ " " _ Hs2)|].
      reflexivity. }
    change ("; " +:+ cookie_string []) with (String ";" (String " " "")).
    rewrite E. reflexivity.
  - rewrite cookie_string_chunks, (split_chunks name) by assumption.
    rewrite pieces_length.
    destruct (named_cookies name (c0 :: cookies)) as [|c [|c' more]] eqn:Hf.
    + reflexivity.
    + destruct (pieces_one name (c0 :: cookies) "" c Hf)
        as (before & after & ->).
      simpl. f_equal. apply split_value.
      assert (Hin : In c (c0 :: cookies)).
      { apply (proj1 (filter_In (fun c => String.eqb (fst c) name) c
                         (c0 :: cookies))).
        unfold named_cookies in Hf. rewrite Hf. now left. }
      rewrite forallb_forall in Hok. specialize (Hok c Hin).
      unfold cookie_ok in Hok. apply andb_true_iff in Hok. tauto.
    + reflexivity.
Qed.

End CookieString.

(** ** Detecting the product of a page *)

Section Detection.

(** An id as [_detectProductId] returns it: [null] or a truthy value. *)
Definition null_or_truthy (id : value) : Prop :=
  id = VNull \/ truthy id = true.

Definition found_truthy (found : option value) : Prop :=
  match found with
  | Some id => truthy id = true
  | None => True
  end.

(** A valid pattern, a valid selector: [match], [document.querySelector]
    return. *)
Definition pattern_ok (matched : result (option (list value))) : Prop :=
  exists m, matched = Ok m.

Definition selector_ok (queried : result value) : Prop :=
  exists element, queried = Ok element.

(** A page whose patterns and selectors are valid. *)
Definition page_ok (page : Page) : Prop :=
  Forall pattern_ok (productUrlMatches page)
  /\ Forall selector_ok (productMetaElements page).

Lemma first_url_match_spec (matches : list (result (option (list value))))
    (w : World) :
  Forall pattern_ok matches ->
  exists found,
    first_url_match matches w = (Ok found, w) /\ found_truthy found.
Proof.
  induction 1 as [|matched rest [m ->] _ IH]; simpl.
  - now exists None.
  - unfold bind. destruct m as [groups|]; [|exact IH].
    destruct (truthy (nth 1 groups VUndefined)) eqn:E; [|exact IH].
    eexists. split; [reflexivity|exact E].
Qed.

Lemma first_meta_spec (elements : list (result value)) (w : World) :
  Forall selector_ok elements ->
  exists found,
    first_meta elements w = (Ok found, w) /\ found_truthy found.
Proof.
  induction 1 as [|queried rest [element ->] _ IH]; simpl.
  - now exists None.
  - unfold bind.
    destruct (truthy element && truthy (member element "content")) eqn:E.
    + eexists. split; [reflexivity|]. simpl.
      apply andb_true_iff in E. tauto.
    + exact IH.
Qed.

Lemma first_product_spec (items : list value) (w : World) :
  exists r,
    first_product items w = (r, w)
    /\ match r with
       | Ok found => found_truthy found
       | Throw _ => True
       end.
Proof.
  induction items as [|item rest IH]; simpl.
  - now exists (Ok None).
  - destruct (prop_cases item "@type") as [Hp|Hp]; rewrite Hp.
    + now exists (Throw TypeError).
    + rewrite bind_ret.
      destruct (is_Product (member item "@type") && truthy (member item "sku"))
        eqn:E1.
      { eexists (Ok (Some _)). split; [reflexivity|]. simpl.
        apply andb_true_iff in E1. tauto. }
      destruct (is_Product (member item "@type")
                && truthy (member item "productID")) eqn:E2.
      { eexists (Ok (Some _)). split; [reflexivity|]. simpl.
        apply andb_true_iff in E2. tauto. }
      exact IH.
Qed.

Lemma first_ld_json_spec (scripts : list text) (w : World) :
  exists found,
    first_ld_json scripts w = (Ok found, w) /\ found_truthy found.
Proof.
  induction scripts as [|textContent rest IH]; simpl.
  - now exists None.
  - assert (Hscript :
      exists found,
        try_catch
          (data <- JSON_parse textContent ;;
           first_product match data with
                         | VArr items => items
                         | _ => [data]
                         end)
          (fun e => ret None) w = (Ok found, w)
        /\ found_truthy found).
    { unfold try_catch, bind.
      destruct textContent as [| |data]; simpl;
        try (now exists None).
      match goal with |- context [first_product ?l w] =>
        destruct (first_product_spec l w) as ([found|e] & -> & Hf)
      end.
      - now exists found.
      - now exists None. }
    destruct Hscript as ([id|] & E & Hf).
    + exists (Some id). split; [|exact Hf].
      rewrite (bind_ok _ _ _ _ _ E). reflexivity.
    + destruct IH as (found & E' & Hf').
      exists found. split; [|exact Hf'].
      rewrite (bind_ok _ _ _ _ _ E). exact E'.
Qed.

(** What the detection does after the custom extractor. *)
Definition detect_from_page (page : Page) : M value :=
  _detectProductId (mkPage None (productUrlMatches page)
                      (productMetaElements page) (ldJsonElements page)).

Lemma detect_from_page_spec (page : Page) (w : World) :
  page_ok page ->
  exists id,
    detect_from_page page w = (Ok id, w) /\ null_or_truthy id.
Proof.
  intros [Hpat Hsel]. unfold detect_from_page, _detectProductId. simpl.
  rewrite bind_ret.
  destruct (first_url_match_spec (productUrlMatches page) w Hpat)
    as ([id|] & Eu & Hu).
  { exists id. split; [|now right].
    rewrite (bind_ok _ _ _ _ _ Eu). reflexivity. }
  destruct (first_meta_spec (productMetaElements page) w Hsel)
    as ([id|] & Em & Hm).
  { exists id. split; [|now right].
    rewrite (bind_ok _ _ _ _ _ Eu). rewrite (bind_ok _ _ _ _ _ Em).
    reflexivity. }
  destruct (first_ld_json_spec (ldJsonElements page) w) as ([id|] & El & Hl).
  - exists id. split; [|now right].
    rewrite (bind_ok _ _ _ _ _ Eu). rewrite (bind_ok _ _ _ _ _ Em).
    rewrite (bind_ok _ _ _ _ _ El). reflexivity.
  - exists VNull. split; [|now left].
    rewrite (bind_ok _ _ _ _ _ Eu). rewrite (bind_ok _ _ _ _ _ Em).
    rewrite (bind_ok _ _ _ _ _ El). reflexivity.
Qed.

Lemma detect_custom_value (page : Page) (w : World) (id : value) :
  customProductIdExtractor page = Some (Ok id) ->
  _detectProductId page w
  = if truthy id then (Ok id, w) else detect_from_page page w.
Proof.
  intros Hc. unfold detect_from_page, _detectProductId. rewrite Hc.
  simpl. unfold try_catch, bind. simpl. now destruct (truthy id).
Qed.

Lemma detect_custom_throws (page : Page) (w : World) (e : exn) :
  customProductIdExtractor page = Some (Throw e) ->
  _detectProductId page w
  = detect_from_page page
      (with_console_error
         ("Custom product ID extractor failed:" :: console_error w) w).
Proof.
  intros Hc. unfold detect_from_page, _detectProductId. rewrite Hc.
  reflexivity.
Qed.

Lemma detect_custom_none (page : Page) (w : World) :
  customProductIdExtractor page = None ->
  _detectProductId page w = detect_from_page page w.
Proof.
  intros Hc. unfold detect_from_page, _detectProductId. now rewrite Hc.
Qed.

Lemma detect_run (page : Page) (w : World) :
  page_ok page ->
  exists id w',
    _detectProductId page w = (Ok id, w')
    /\ null_or_truthy id
    /\ pendingEvents w' = pendingEvents w.
Proof.
  intros Hsel.
  destruct (customProductIdExtractor page) as [[id|e]|] eqn:Hc.
  - rewrite (detect_custom_value page w id Hc). destruct (truthy id) eqn:Ht.
    + exists id, w. split; [reflexivity|]. split; [now right|reflexivity].
    + destruct (detect_from_page_spec page w Hsel) as (id' & E & H').
      now exists id', w.
  - rewrite (detect_custom_throws page w e Hc).
    destruct (detect_from_page_spec page
                (with_console_error
                   ("Custom product ID extractor failed:" :: console_error w) w)
                Hsel) as (id' & E & H').
    eexists id', _. split; [exact E|]. split; [exact H'|reflexivity].
  - rewrite (detect_custom_none page w Hc).
    destruct (detect_from_page_spec page w Hsel) as (id' & E & H').
    now exists id', w.
Qed.

(** X19.  On a page whose url patterns and meta selectors are valid,
    [_detectProductId] never throws, and what it returns is [null] or a truthy value.  A
    truthy result of the custom extractor is the answer, and nothing else
    is consulted; an extractor that throws is logged and the detection
    then goes on as if there were none, as it does after a falsy
    result. *)
Theorem detectProductId_answers (page : Page) (w : World) :
  page_ok page ->
  (exists id w',
     _detectProductId page w = (Ok id, w') /\ null_or_truthy id)
  /\ (forall id,
        customProductIdExtractor page = Some (Ok id) ->
        _detectProductId page w
        = if truthy id then (Ok id, w) else detect_from_page page w)
  /\ (forall e,
        customProductIdExtractor page = Some (Throw e) ->
        _detectProductId page w
        = detect_from_page page
            (with_console_error
               ("Custom product ID extractor failed:" :: console_error w) w))
  /\ (customProductIdExtractor page = None ->
      _detectProductId page w = detect_from_page page w).
Proof.
  intros Hsel.
  split; [|split; [|split]].
  - destruct (detect_run page w Hsel) as (id & w' & E & Hid & _).
    now exists id, w'.
  - intros id. apply detect_custom_value.
  - intros e. apply detect_custom_throws.
  - apply detect_custom_none.
Qed.

(** X20.  [_detectAndTrackProductView] queues a product view exactly when
    the detection found a product: then one [view-products] event for
    the id found joins the queue, and otherwise the queue is as it was.
    It never throws on a page whose url patterns and meta selectors are
    valid. *)
Theorem detected_product_is_viewed (h : Host) (page : Page) (w : World) :
  page_ok page ->
  exists id w1 w',
    _detectProductId page w = (Ok id, w1)
    /\ _detectAndTrackProductView h page w = (Ok tt, w')
    /\ pendingEvents w'
       = (if truthy id
          then (pendingEvents w
                  ++ [("view-products",
                       _cleanObject (viewProduct_event h [("refId", id)]))])%list
          else pendingEvents w)
    /\ (id = VNull -> w' = w1).
Proof.
  intros Hsel.
  destruct (detect_run page w Hsel) as (id & w1 & E & Hid & Hq).
  exists id, w1.
  unfold _detectAndTrackProductView. rewrite (bind_ok _ _ _ _ _ E).
  destruct Hid as [-> | Ht].
  - exists w1. simpl. repeat split; auto.
  - rewrite Ht. eexists. split; [exact E|].
    split; [reflexivity|]. split.
    + simpl. now rewrite Hq.
    + intros ->. discriminate Ht.
Qed.

End Detection.

(** ** Impressions of a recommendations response *)

Section RecommendationImpressions.

Context (h : Host).

(** Neither [null] nor [undefined]. *)
Definition present (v : value) : Prop := v <> VUndefined /\ v <> VNull.

(** An optional list: absent, or an array whose elements satisfy [P]. *)
Definition optional_list (P : value -> Prop) (v : value) : Prop :=
  v = VUndefined \/ v = VNull \/ exists items, v = VArr items /\ Forall P items.

(** The elements of an optional list. *)
Definition elements (v : value) : list value :=
  match v with
  | VArr items => items
  | _ => []
  end.

(** A slot and a widget of a response as the recommendations API
    documents it. *)
Definition slot_ok (slot : value) : Prop :=
  present slot /\ optional_list present (member slot "products").

Definition widget_ok (widget : value) : Prop :=
  present widget /\ optional_list slot_ok (member widget "slots").

(** The route and the widgets of a response. *)
Definition response_route (response : value) : value :=
  optional_member (member response "recommendations") "route".

Definition response_widgets (response : value) : value :=
  optional_member (response_route response) "widgets".

Definition response_ok (response : value) : Prop :=
  present response
  /\ (truthy (response_widgets response) = false
      \/ exists widgets,
           response_widgets response = VArr widgets
           /\ Forall widget_ok widgets).

(** The impressions of a response: one for every product of every slot of
    every widget, widget by widget, slot by slot. *)
Definition slot_impressions (route widget slot : value) : list obj :=
  map (fun product =>
         _cleanObject
           (slotImpression_event h
              (recommendation_impression route widget slot
                 (member product "refId"))))
    (elements (member slot "products")).

Definition widget_impressions (route widget : value) : list obj :=
  flat_map (slot_impressions route widget) (elements (member widget "slots")).

Definition response_impressions (response : value) : list obj :=
  flat_map (widget_impressions (response_route response))
    (elements (response_widgets response)).

(** The queue with more events of one type. *)
Definition queue_more (type : string) (events : list obj) (w : World) : World :=
  with_pendingEvents
    (pendingEvents w ++ map (fun event => (type, event)) events)%list w.

Lemma queue_more_nil (type : string) (w : World) : queue_more type [] w = w.
Proof.
  unfold queue_more. simpl. rewrite app_nil_r. now destruct w.
Qed.

Lemma queue_more_app (type : string) (e1 e2 : list obj) (w : World) :
  queue_more type e2 (queue_more type e1 w) = queue_more type (e1 ++ e2)%list w.
Proof.
  unfold queue_more. simpl. now rewrite map_app, app_assoc.
Qed.

Lemma prop_present (v : value) (k : string) (w : World) :
  present v -> prop v k w = (Ok (member v k), w).
Proof. intros [Hu Hn]. destruct v; try contradiction; reflexivity. Qed.

Lemma forEach_queues {A : Type} (l : list A) (f : A -> M unit)
    (g : A -> list obj) (P : A -> Prop) :
  (forall x w, P x -> f x w = (Ok tt, queue_more "slot-impressions" (g x) w)) ->
  Forall P l ->
  forall w,
    forEach l f w = (Ok tt, queue_more "slot-impressions" (flat_map g l) w).
Proof.
  intros Hf. induction 1 as [|x l Hx _ IH]; intros w; simpl.
  - now rewrite queue_more_nil.
  - rewrite (bind_ok _ _ _ _ _ (Hf x w Hx)), IH. now rewrite queue_more_app.
Qed.

Lemma optional_forEach_queues (v : value) (f : value -> M unit)
    (g : value -> list obj) (P : value -> Prop) :
  (forall x w, P x -> f x w = (Ok tt, queue_more "slot-impressions" (g x) w)) ->
  optional_list P v ->
  forall w,
    optional_forEach v f w
    = (Ok tt, queue_more "slot-impressions" (flat_map g (elements v)) w).
Proof.
  intros Hf [-> | [-> | (items & -> & Hitems)]] w; simpl.
  - now rewrite queue_more_nil.
  - now rewrite queue_more_nil.
  - now apply (forEach_queues items f g P).
Qed.

Lemma flat_map_singleton {A B : Type} (f : A -> B) (l : list A) :
  flat_map (fun x => [f x]) l = map f l.
Proof. induction l as [|x l IH]; simpl; [reflexivity|now rewrite IH]. Qed.

(** X21.  For a response as the recommendations API documents it,
    [_trackRecommendationImpressions] never throws and queues one
    [slot-impressions] event for every product of every slot of every
    widget, in the order of the response, each with the product's
    [refId], the widget's id, the route's id and the slot's attribution
    fields; nothing else of the instance changes.  So the queue grows by
    the number of products recommended. *)
Theorem recommendations_queue_their_impressions (response : value) (w : World) :
  response_ok response ->
  _trackRecommendationImpressions h response w
  = (Ok tt, queue_more "slot-impressions" (response_impressions response) w)
  /\ List.length (response_impressions response)
     = list_sum
         (map (fun widget =>
                 list_sum
                   (map (fun slot =>
                           List.length (elements (member slot "products")))
                      (elements (member widget "slots"))))
            (elements (response_widgets response))).
Proof.
  intros [Hresp Hwidgets]. split.
  - unfold _trackRecommendationImpressions.
    rewrite (bind_ok _ _ _ _ _ (prop_present response "recommendations" w Hresp)).
    fold (response_route response). fold (response_widgets response).
    unfold response_impressions.
    destruct Hwidgets as [Hnone | (widgets & Hw & Hok)].
    + rewrite Hnone. simpl.
      destruct (response_widgets response); try discriminate Hnone;
        simpl; now rewrite queue_more_nil.
    + rewrite Hw. simpl truthy. cbn [negb value_forEach elements].
      apply (forEach_queues widgets _ _ widget_ok); [|exact Hok].
      intros widget w0 [Hpw Hslots].
      rewrite (bind_ok _ _ _ _ _ (prop_present widget "slots" w0 Hpw)).
      unfold widget_impressions.
      apply (optional_forEach_queues _ _ _ slot_ok); [|exact Hslots].
      intros slot w1 [Hps Hproducts].
      rewrite (bind_ok _ _ _ _ _ (prop_present slot "products" w1 Hps)).
      unfold slot_impressions. rewrite <- flat_map_singleton.
      apply (optional_forEach_queues _ _ _ present); [|exact Hproducts].
      intros product w2 Hpp.
      rewrite (bind_ok _ _ _ _ _ (prop_present product "refId" w2 Hpp)).
      reflexivity.
  - unfold response_impressions, widget_impressions, slot_impressions.
    induction (elements (response_widgets response)) as [|widget ws IHw];
      [reflexivity|].
    simpl. rewrite length_app, IHw. f_equal.
    induction (elements (member widget "slots")) as [|slot ss IHs];
      [reflexivity|].
    simpl. rewrite length_app, IHs, length_map. reflexivity.
Qed.

End RecommendationImpressions.

(** ** Tracking data from attributes *)

Section TrackingData.

(** Words joined by hyphens after a first word, and the same in camel
    case. *)
Fixpoint kebab_tail (words : list string) : string :=
  match words with
  | [] => ""
  | word :: rest => "-" +:+ word +:+ kebab_tail rest
  end.

Definition kebab (first : string) (words : list string) : string :=
  first +:+ kebab_tail words.

Definition capitalize (word : string) : string :=
  match word with
  | EmptyString => EmptyString
  | String c rest => String (toUpperCase c) rest
  end.

Fixpoint camel_tail (words : list string) : string :=
  match words with
  | [] => ""
  | word :: rest => capitalize word +:+ camel_tail rest
  end.

Definition camelCase (first : string) (words : list string) : string :=
  first +:+ camel_tail words.

(** A word: no hyphen in it. *)
Definition word_ok (word : string) : bool := without "-" word.

(** A word that follows a hyphen: it starts with a letter of [[a-z]]. *)
Definition next_word_ok (word : string) : bool :=
  match word with
  | EmptyString => false
  | String c rest => is_lower c && without "-" rest
  end.

Lemma camel_word (word s : string) :
  without "-" word = true -> camel (word +:+ s) = word +:+ camel s.
Proof.
  induction word as [|a word IH]; intros Hw; [reflexivity|].
  simpl in Hw. apply andb_true_iff in Hw. destruct Hw as [Ha Hw].
  rewrite !append_cons.
  assert (Hstep : forall t, camel (String a t) = String a (camel t)).
  { intros [|c t]; [reflexivity|]. cbn [camel].
    destruct (Ascii.eqb a "-"); [discriminate Ha|reflexivity]. }
  now rewrite Hstep, IH.
Qed.

Lemma camel_hyphen (c : ascii) (s : string) :
  is_lower c = true ->
  camel (String "-" (String c s)) = String (toUpperCase c) (camel s).
Proof. intros Hc. cbn [camel]. now rewrite Ascii.eqb_refl, Hc. Qed.

Lemma camel_kebab_tail (words : list string) :
  forallb next_word_ok words = true ->
  camel (kebab_tail words) = camel_tail words.
Proof.
  induction words as [|word rest IH]; intros Hw; [reflexivity|].
  simpl in Hw. apply andb_true_iff in Hw. destruct Hw as [Hword Hrest].
  destruct word as [|c word]; [discriminate Hword|].
  simpl in Hword. apply andb_true_iff in Hword. destruct Hword as [Hc Hword].
  cbn [kebab_tail camel_tail capitalize]. str_norm.
  rewrite camel_hyphen by exact Hc.
  rewrite camel_word by exact Hword. now rewrite IH.
Qed.

(** X22.  The key [_extractTrackingData] files an attribute under: for
    an attribute [data-pa-] followed by words joined by hyphens, each word
    after the first starting with a letter of [[a-z]], it is the words in
    camel case, as [refId] for [data-pa-ref-id]. *)
Theorem attribute_key_is_camelCase (first : string) (words : list string) :
  word_ok first = true ->
  forallb next_word_ok words = true ->
  startsWith ("data-pa-" +:+ kebab first words) "data-pa-" = true
  /\ attribute_key ("data-pa-" +:+ kebab first words) = camelCase first words.
Proof.
  intros Hf Hw. split; [reflexivity|].
  unfold attribute_key.
  assert (Hr : replace_first ("data-pa-" +:+ kebab first words) "data-pa-" ""
               = kebab first words).
  { str_norm. cbn [replace_first startsWith]. rewrite !Ascii.eqb_refl.
    reflexivity. }
  rewrite Hr. unfold kebab, camelCase.
  rewrite camel_word by exact Hf. now rewrite camel_kebab_tail.
Qed.

(** [[A-Z]] *)
Definition is_upper (c : ascii) : bool :=
  Nat.leb 65 (nat_of_ascii c) && Nat.leb (nat_of_ascii c) 90.

Fixpoint has_upper (s : string) : bool :=
  match s with
  | EmptyString => false
  | String c rest => is_upper c || has_upper rest
  end.

Lemma toUpperCase_upper (c : ascii) :
  is_lower c = true -> is_upper (toUpperCase c) = true.
Proof.
  unfold is_lower, is_upper, toUpperCase. intros H.
  apply andb_true_iff in H. destruct H as [Hlo Hhi].
  apply Nat.leb_le in Hlo, Hhi.
  rewrite nat_ascii_embedding by lia.
  apply andb_true_iff. split; apply Nat.leb_le; lia.
Qed.

Lemma camel_step (a c : ascii) (rest : string) :
  camel (String a (String c rest))
  = if Ascii.eqb a "-" && is_lower c
    then String (toUpperCase c) (camel rest)
    else String a (camel (String c rest)).
Proof. reflexivity. Qed.

(** The camel case of a name is the name, or has a capital in it. *)
Lemma camel_same_or_upper (s : string) :
  camel s = s \/ has_upper (camel s) = true.
Proof.
  assert (H : forall n s, (String.length s <= n)%nat ->
              camel s = s \/ has_upper (camel s) = true).
  { clear s. induction n as [|n IH]; intros s Hlen.
    - destruct s; [now left|simpl in Hlen; lia].
    - destruct s as [|a rest]; [now left|].
      destruct rest as [|c rest']; [now left|].
      rewrite camel_step. destruct (Ascii.eqb a "-" && is_lower c) eqn:E.
      + right. apply andb_true_iff in E. destruct E as [_ Hc].
        cbn [has_upper]. now rewrite (toUpperCase_upper c Hc).
      + destruct (IH (String c rest')) as [Hs|Hu];
          [simpl in Hlen |- *; lia| |].
        * left. now rewrite Hs.
        * right. cbn [has_upper]. rewrite Hu. apply orb_true_r. }
  exact (H (String.length s) s (Nat.le_refl _)).
Qed.

Lemma startsWith_split (s prefix : string) :
  startsWith s prefix = true ->
  s = prefix +:+ drop_chars (String.length prefix) s.
Proof.
  revert s. induction prefix as [|a prefix IH]; intros s H; [reflexivity|].
  destruct s as [|b s]; [discriminate H|].
  cbn [startsWith] in H. apply andb_true_iff in H. destruct H as [Hab H].
  apply Ascii.eqb_eq in Hab. subst b.
  rewrite append_cons. cbn [String.length drop_chars]. f_equal. now apply IH.
Qed.

Lemma replace_first_prefix (s prefix : string) :
  startsWith s prefix = true ->
  replace_first s prefix "" = drop_chars (String.length prefix) s.
Proof.
  intros H. destruct s; cbn [replace_first]; rewrite H; apply append_nil_l.
Qed.

(** One attribute alone is filed under [__proto__]. *)
Lemma attribute_key_proto (name : string) :
  startsWith name "data-pa-" = true ->
  attribute_key name = "__proto__" ->
  name = "data-pa-__proto__".
Proof.
  intros Hs Hk. unfold attribute_key in Hk.
  rewrite (replace_first_prefix name "data-pa-" Hs) in Hk.
  rewrite (startsWith_split name "data-pa-" Hs).
  destruct (camel_same_or_upper (drop_chars (String.length "data-pa-") name))
    as [Hc|Hu].
  - rewrite Hc in Hk. now rewrite Hk.
  - rewrite Hk in Hu. discriminate Hu.
Qed.

Section Extraction.

Context (JSON_parse_string : string -> option value).

#[local] Arguments startsWith : simpl never.

(** One round of the loop of [_extractTrackingData]. *)
Definition tracking_step (data : TrackingData) (attr : string * string)
  : TrackingData :=
  if startsWith (fst attr) "data-pa-"
  then assign data (attribute_key (fst attr))
         (attribute_value JSON_parse_string (snd attr))
  else data.

(** The object the loop of [_extractTrackingData] builds. *)
Definition tracking_data (attributes : list (string * string))
    (data : TrackingData) : TrackingData :=
  fold_left tracking_step attributes data.

(** An attribute the loop passes over, or the one filed under
    [__proto__]. *)
Definition files_nothing (attr : string * string) : bool :=
  negb (startsWith (fst attr) "data-pa-")
  || String.eqb (fst attr) "data-pa-__proto__".

Lemma extract_run (attributes : list (string * string)) :
  _extractTrackingData JSON_parse_string attributes
  = (let data := tracking_data attributes (mkTrackingData [] None) in
     if Nat.ltb 0 (List.length (own_properties data))
     then Some data else None).
Proof. reflexivity. Qed.

Lemma obj_set_nonempty (o : obj) (k : string) (v : value) :
  obj_set o k v <> [].
Proof. destruct o as [|[k' v'] o]; simpl; [|destruct (String.eqb k' k)]; discriminate. Qed.

Lemma assign_nonempty (data : TrackingData) (k : string) (v : value) :
  own_properties data <> [] -> own_properties (assign data k v) <> [].
Proof.
  intros Hd. unfold assign.
  destruct (String.eqb k "__proto__" && reaches_proto_setter data);
    [destruct v; exact Hd|apply obj_set_nonempty].
Qed.

Lemma assign_files (data : TrackingData) (k : string) (v : value) :
  k <> "__proto__" ->
  own_properties (assign data k v) = obj_set (own_properties data) k v.
Proof.
  intros Hk. unfold assign.
  destruct (String.eqb_spec k "__proto__"); [contradiction|reflexivity].
Qed.

Lemma assign_other (data : TrackingData) (k k' : string) (v : value) :
  k <> k' ->
  obj_get (own_properties (assign data k v)) k'
  = obj_get (own_properties data) k'.
Proof.
  intros Hk. unfold assign.
  destruct (String.eqb k "__proto__" && reaches_proto_setter data);
    [now destruct v|apply obj_get_set_ne; exact Hk].
Qed.

Lemma tracking_data_cons (attr : string * string)
    (attributes : list (string * string)) (data : TrackingData) :
  tracking_data (attr :: attributes) data
  = tracking_data attributes (tracking_step data attr).
Proof. reflexivity. Qed.

Lemma tracking_data_nonempty (attributes : list (string * string))
    (data : TrackingData) :
  own_properties data <> [] ->
  own_properties (tracking_data attributes data) <> [].
Proof.
  revert data. induction attributes as [|attr rest IH]; intros data Hd;
    [exact Hd|].
  rewrite tracking_data_cons. apply IH. unfold tracking_step.
  destruct (startsWith (fst attr) "data-pa-"); [|exact Hd].
  now apply assign_nonempty.
Qed.

Lemma tracking_data_passes (attributes : list (string * string))
    (data : TrackingData) :
  forallb (fun attr => negb (startsWith (fst attr) "data-pa-")) attributes
  = true ->
  tracking_data attributes data = data.
Proof.
  revert data. induction attributes as [|attr l IH]; intros data Hl;
    [reflexivity|].
  simpl in Hl. apply andb_true_iff in Hl. destruct Hl as [Ha Hl].
  rewrite tracking_data_cons. unfold tracking_step.
  destruct (startsWith (fst attr) "data-pa-"); [discriminate Ha|].
  now apply IH.
Qed.

(** The attributes that file under another key than [k] leave what is
    filed under [k]. *)
Lemma tracking_data_other (attributes : list (string * string))
    (data : TrackingData) (k : string) :
  Forall (fun attr => startsWith (fst attr) "data-pa-" = true ->
                      attribute_key (fst attr) <> k) attributes ->
  obj_get (own_properties (tracking_data attributes data)) k
  = obj_get (own_properties data) k.
Proof.
  intros H. revert data. induction H as [|attr l Ha _ IH]; intros data;
    [reflexivity|].
  rewrite tracking_data_cons, IH. unfold tracking_step.
  destruct (startsWith (fst attr) "data-pa-"); [|reflexivity].
  apply assign_other. now apply Ha.
Qed.

Lemma files_nothing_split (attributes : list (string * string)) :
  NoDup (map fst attributes) ->
  forallb files_nothing attributes = true ->
  forallb (fun attr => negb (startsWith (fst attr) "data-pa-")) attributes
  = true
  \/ exists before raw after,
       attributes = (before ++ ("data-pa-__proto__", raw) :: after)%list
       /\ forallb (fun attr => negb (startsWith (fst attr) "data-pa-")) before
          = true
       /\ forallb (fun attr => negb (startsWith (fst attr) "data-pa-")) after
          = true.
Proof.
  induction attributes as [|[name raw] l IH]; intros Hnd Hall; [now left|].
  simpl in Hnd, Hall. apply NoDup_cons in Hnd. destruct Hnd as [Hnot Hnd].
  apply andb_true_iff in Hall. destruct Hall as [Ha Hall].
  unfold files_nothing in Ha. cbn [fst] in Ha.
  destruct (startsWith name "data-pa-") eqn:Hs; cbn [negb orb] in Ha.
  - apply String.eqb_eq in Ha. subst name. right.
    exists [], raw, l. split; [reflexivity|]. split; [reflexivity|].
    apply forallb_forall. intros [n r] Hin.
    assert (Hf := proj1 (forallb_forall _ _) Hall (n, r) Hin).
    unfold files_nothing in Hf. cbn [fst] in Hf |- *.
    destruct (startsWith n "data-pa-"); [|reflexivity].
    cbn [negb orb] in Hf. apply String.eqb_eq in Hf. subst n.
    exfalso. apply Hnot. apply list_elem_of_In.
    change "data-pa-__proto__" with (fst ("data-pa-__proto__", r)).
    now apply in_map.
  - destruct (IH Hnd Hall) as [Hl|(before & raw' & after & -> & Hb & Hafter)].
    + left. simpl. now rewrite Hs.
    + right. exists ((name, raw) :: before), raw', after.
      split; [reflexivity|]. split; [|exact Hafter].
      simpl. now rewrite Hs.
Qed.

(** X23.  [_extractTrackingData] files each attribute whose name starts
    with [data-pa-] under its key, but for [data-pa-__proto__], which
    sets the prototype of the object or nothing and adds no property.  So
    it returns [null] only for an element each of whose attributes is
    passed over or is [data-pa-__proto__], and it does return [null] for
    such an element when the names of its attributes are distinct.  When
    an attribute starts with [data-pa-], is not [data-pa-__proto__], and
    no attribute after it is filed under the same key, the object
    returned has, as a property of its own under the attribute's key, the
    attribute's value: as [JSON.parse] reads it when the value is JSON
    (so that [42] is a number and [true] a boolean) and as the string it
    is when not. *)
Theorem extractTrackingData_reads_attributes
    (attributes : list (string * string)) :
  (_extractTrackingData JSON_parse_string attributes = None ->
   forallb files_nothing attributes = true)
  /\ (NoDup (map fst attributes) ->
      forallb files_nothing attributes = true ->
      _extractTrackingData JSON_parse_string attributes = None)
  /\ (forall before name raw after,
        attributes = (before ++ (name, raw) :: after)%list ->
        startsWith name "data-pa-" = true ->
        name <> "data-pa-__proto__" ->
        Forall (fun attr => startsWith (fst attr) "data-pa-" = true ->
                            attribute_key (fst attr) <> attribute_key name)
          after ->
        exists data,
          _extractTrackingData JSON_parse_string attributes = Some data
          /\ obj_get (own_properties data) (attribute_key name)
             = match JSON_parse_string raw with
               | Some parsed => parsed
               | None => VStr raw
               end).
Proof.
  assert (Hfiled : forall before name raw after,
            startsWith name "data-pa-" = true ->
            name <> "data-pa-__proto__" ->
            own_properties
              (tracking_data (before ++ (name, raw) :: after)
                 (mkTrackingData [] None)) <> []).
  { intros before name raw after Hs Hn.
    unfold tracking_data. rewrite fold_left_app. cbn [fold_left].
    apply tracking_data_nonempty. unfold tracking_step at 1. cbn [fst snd].
    rewrite Hs, assign_files; [apply obj_set_nonempty|].
    intros Hk. apply Hn. now apply attribute_key_proto. }
  split; [|split].
  - rewrite extract_run. cbv zeta. intros H.
    apply forallb_forall. intros [name raw] Hin.
    unfold files_nothing. cbn [fst].
    destruct (startsWith name "data-pa-") eqn:Hs; [|reflexivity].
    cbn [negb orb]. destruct (String.eqb_spec name "data-pa-__proto__") as [|Hn];
      [reflexivity|exfalso].
    apply in_split in Hin. destruct Hin as (before & after & ->).
    pose proof (Hfiled before name raw after Hs Hn) as Hne.
    destruct (own_properties _); [contradiction|discriminate H].
  - intros Hnd Hall. rewrite extract_run. cbv zeta.
    destruct (files_nothing_split attributes Hnd Hall)
      as [Hpass|(before & raw & after & -> & Hb & Ha)].
    + now rewrite tracking_data_passes.
    + unfold tracking_data. rewrite fold_left_app. cbn [fold_left].
      fold (tracking_data before (mkTrackingData [] None)).
      rewrite (tracking_data_passes before _ Hb).
      match goal with |- context [fold_left tracking_step after ?d] =>
        change (fold_left tracking_step after d) with (tracking_data after d);
        rewrite (tracking_data_passes after d Ha)
      end.
      unfold tracking_step. cbn [fst snd].
      change (startsWith "data-pa-__proto__" "data-pa-") with true. cbv iota.
      change (attribute_key "data-pa-__proto__") with "__proto__".
      unfold assign. cbn [String.eqb Ascii.eqb Bool.eqb andb
                          reaches_proto_setter own_properties prototype
                          obj_has negb].
      now destruct (attribute_value JSON_parse_string raw).
  - intros before name raw after -> Hs Hn Hafter.
    pose proof (Hfiled before name raw after Hs Hn) as Hne.
    rewrite extract_run. cbv zeta.
    destruct (own_properties
                (tracking_data (before ++ (name, raw) :: after)
                   (mkTrackingData [] None))) eqn:E; [contradiction|].
    cbn [List.length Nat.ltb Nat.leb]. eexists. split; [reflexivity|].
    unfold tracking_data. rewrite fold_left_app. cbn [fold_left].
    match goal with |- context [fold_left tracking_step after ?d] =>
      change (fold_left tracking_step after d) with (tracking_data after d)
    end.
    rewrite (tracking_data_other after _ _ Hafter).
    unfold tracking_step. cbn [fst snd]. rewrite Hs, assign_files.
    + apply obj_get_set_eq.
    + intros Hk. apply Hn. now apply attribute_key_proto.
Qed.

End Extraction.

End TrackingData.

(** ** Events that carry no attribution *)

Section PlainEvents.

Context (h : Host).

(** An event that is queued as it is built: the call returns the cleaned
    event, which joins the queue under [type], and nothing else of the
    instance changes. *)
Definition queues_plainly (type : string) (event : obj) (m : M obj) : Prop :=
  forall w,
    m w = (Ok (_cleanObject event),
           with_pendingEvents
             (pendingEvents w ++ [(type, _cleanObject event)])%list w).

(** [currentUrl] as an event has it after cleaning, for a caller's value
    of the declared type [string | undefined]. *)
Lemma event_currentUrl (eventData event : obj) :
  optional_string (obj_get eventData "currentUrl") ->
  obj_get event "currentUrl"
  = js_or (obj_get eventData "currentUrl") (VStr (location_href h)) ->
  obj_get (_cleanObject event) "currentUrl"
  = match obj_get eventData "currentUrl" with
    | VStr "" | VUndefined => VStr (location_href h)
    | given => given
    end.
Proof.
  intros Hopt Hev. apply cleanObject_keeps_plain.
  - destruct Hopt as [-> | [s ->]]; [exact I|]. now destruct s.
  - rewrite Hev. destruct Hopt as [-> | [s ->]]; [reflexivity|].
    now destruct s.
Qed.

(** X24.  [trackViewProduct], [trackSearch] and [trackSlotImpression]
    never throw and never touch the attribution store: each returns the
    cleaned event and appends it to the queue, and that is all it does.
    The event always carries its [eventTime]; for a caller's
    [currentUrl] of the declared type it carries that url when it is a
    non-empty string, and [window.location.href] otherwise. *)
Theorem plain_events_are_only_queued (eventData : obj) :
  (queues_plainly "view-products" (viewProduct_event h eventData)
     (trackViewProduct h eventData)
   /\ queues_plainly "search-terms" (search_event h eventData)
        (trackSearch h eventData)
   /\ queues_plainly "slot-impressions" (slotImpression_event h eventData)
        (trackSlotImpression h eventData))
  /\ Forall (fun event =>
               obj_get (_cleanObject event) "eventTime"
               = VStr (Date_toISOString h)
               /\ (optional_string (obj_get eventData "currentUrl") ->
                   obj_get (_cleanObject event) "currentUrl"
                   = match obj_get eventData "currentUrl" with
                     | VStr "" | VUndefined => VStr (location_href h)
                     | given => given
                     end))
       [ viewProduct_event h eventData; search_event h eventData;
         slotImpression_event h eventData ].
Proof.
  split; [repeat split|].
  repeat (constructor;
          [split;
           [apply cleanObject_keeps_plain; [exact I|reflexivity]
           |intros Hopt; now apply event_currentUrl]|]).
  constructor.
Qed.

End PlainEvents.

(** ** The two channels of a product *)

Section TwoChannels.

Context (cfg : Config) (h : Host).


End TwoChannels.

(** ** A record through the durable backend *)

Section Reload.

Context (cfg : Config).

Lemma json_value_obj (props : obj) :
  json_value (VObj props)
  = VObj ((fix go (ps : list (string * value)) : list (string * value) :=
             match ps with
             | [] => []
             | (k, x) :: rest =>
                 match x with
                 | VUndefined => go rest
                 | _ => (k, json_value x) :: go rest
                 end
             end) props).
Proof. reflexivity. Qed.

(** What [JSON.stringify] and then [JSON.parse] make of an object. *)
Definition json_props (props : obj) : obj :=
  match json_value (VObj props) with
  | VObj kept => kept
  | _ => []
  end.

Lemma json_props_cons (k : string) (x : value) (rest : obj) :
  json_props ((k, x) :: rest)
  = match x with
    | VUndefined => json_props rest
    | _ => (k, json_value x) :: json_props rest
    end.
Proof. destruct x; reflexivity. Qed.

Lemma JSON_stringify_props (props : obj) :
  JSON_stringify props = TJson (VObj (json_props props)).
Proof. unfold JSON_stringify, json_props. now rewrite json_value_obj. Qed.

Lemma json_props_has (props : obj) (k : string) :
  obj_has (json_props props) k = true -> obj_has props k = true.
Proof.
  induction props as [|[k' x] rest IH]; [discriminate|].
  rewrite json_props_cons. simpl.
  destruct (String.eqb k' k) eqn:E; [reflexivity|].
  destruct x; simpl; rewrite ?E; exact IH.
Qed.

(** The properties of the parsed object are those of the object written,
    as JSON has them. *)
Lemma json_props_get (props : obj) (k : string) :
  List.NoDup (map fst props) ->
  obj_get (json_props props) k = json_value (obj_get props k).
Proof.
  induction props as [|[k' x] rest IH]; intros Hnd; [reflexivity|].
  inversion Hnd as [|? ? Hnotin Hrest]; subst.
  rewrite json_props_cons. simpl obj_get.
  destruct (String.eqb_spec k' k) as [->|Hne].
  - destruct x; simpl; rewrite ?String.eqb_refl; try reflexivity.
    apply obj_get_absent.
    destruct (obj_has (json_props rest) k) eqn:E; [|reflexivity].
    exfalso. apply Hnotin. now apply obj_has_key, json_props_has.
  - apply String.eqb_neq in Hne.
    destruct x; simpl; rewrite ?Hne; now apply IH.
Qed.

(** A cookie that is taken whole is shown until it expires. *)
Lemma cookie_read_later (h1 h2 : Host) (jar : gmap string (text * Z))
    (k : string) (record : obj) (e : Z) :
  cookie_dropped h1 k = false ->
  semicolon_free (json_value (VObj record)) = true ->
  Date_now h1 < e ->
  Date_now h2 < e ->
  cookie_read h2 (cookie_write h1 jar k (JSON_stringify record) e) k
  = Some (JSON_stringify record).
Proof.
  intros Hdrop Hsemi H1 H2.
  unfold cookie_read, cookie_write, JSON_stringify. rewrite Hdrop.
  destruct (Z.leb_spec e (Date_now h1)) as [Hexp|Hexp]; [lia|].
  rewrite lookup_insert_eq. unfold cookie_value. rewrite Hsemi.
  destruct (Z.ltb_spec (Date_now h2) e); [reflexivity|lia].
Qed.

(** A write that keeps its text shows it to a later reader on the same
    backend until the record expires. *)
Lemma store_read_later (h1 h2 : Host) (p : value) (clickData : obj)
    (w : World) :
  truthy (customerId w) = true ->
  truthy p = true ->
  keys_print (customerId w) p = true ->
  write_keeps cfg h1
    (storageKey cfg (customerId w) p (truthy (obj_get clickData "isSponsored")))
    (attribution_record cfg h1 clickData) = true ->
  use_localStorage cfg h2 = use_localStorage cfg h1 ->
  Date_now h2 < (if use_localStorage cfg h1
                 then Date_now h1 + attributionWindow cfg
                 else toUTCString (Date_now h1 + attributionWindow cfg)) ->
  durable_read cfg h2 (snd (_storeAttributionData cfg h1 p clickData w))
    (storageKey cfg (customerId w) p (truthy (obj_get clickData "isSponsored")))
  = Some (JSON_stringify (attribution_record cfg h1 clickData)).
Proof.
  intros Hc Hp Hkp Hkeeps Hb Hnow.
  destruct (store_effect cfg h1 p clickData w Hc Hp Hkp)
    as (x & Ex & _ & L & K & _).
  rewrite Ex. cbn [snd].
  unfold durable_read. rewrite Hb.
  generalize dependent (attribution_record cfg h1 clickData). intros record.
  generalize (storageKey cfg (customerId w) p (truthy (obj_get clickData "isSponsored"))).
  intros sk Hkeeps L K.
  unfold write_keeps, write_lost in Hkeeps.
  apply andb_true_iff in Hkeeps. destruct Hkeeps as [Hlost Hkeeps].
  apply negb_true_iff, orb_false_iff in Hlost. destruct Hlost as [Hw Hdrop].
  rewrite Hw in L, K.
  destruct (use_localStorage cfg h1).
  - rewrite L. apply lookup_insert_eq.
  - cbn [negb orb andb] in Hkeeps, Hdrop, K.
    apply andb_true_iff in Hkeeps. destruct Hkeeps as [Hsemi Hborn].
    apply Z.ltb_lt in Hborn.
    rewrite K. now apply cookie_read_later.
Qed.

(** X26.  Under a session (a truthy customer id), for a truthy [refId],
    a customer id and a [refId] that print, a record whose durable write
    keeps its text (the write does not throw; with cookies, the browser
    does not drop the cookie, no string of the record holds a semicolon,
    which would cut the cookie's value, and the cookie is not born
    expired) is read back later by an instance on the same backend that
    starts with an empty cache (as after a reload of the page), while the
    backend can be reached and for as long as the record is live (with
    cookies: until the second in which it expires begins): the read
    returns the record as JSON keeps it, every property reading as it was
    written (a property that was [undefined] is absent and reads
    [undefined]), and puts it in the cache. *)
Theorem stored_record_survives_reload (h1 h2 : Host) (p : value)
    (clickData : obj) (w : World) :
  truthy (customerId w) = true ->
  truthy p = true ->
  keys_print (customerId w) p = true ->
  let sp := truthy (obj_get clickData "isSponsored") in
  let record := attribution_record cfg h1 clickData in
  write_keeps cfg h1 (storageKey cfg (customerId w) p sp) record = true ->
  use_localStorage cfg h2 = use_localStorage cfg h1 ->
  storage_fault h2 <> Unavailable ->
  Date_now h1 <= Date_now h2 ->
  Date_now h2 < (if use_localStorage cfg h1
                 then Date_now h1 + attributionWindow cfg
                 else toUTCString (Date_now h1 + attributionWindow cfg)) ->
  let stored := snd (_storeAttributionData cfg h1 p clickData w) in
  let reloaded := with_attributionData ∅ stored in
  exists w',
    _getAttributionDataFor cfg h2 p sp reloaded
    = (Ok (Some (json_props record)), w')
    /\ (forall k,
          obj_get (json_props record) k = json_value (obj_get record k))
    /\ attributionData w' !! mapKey p sp = Some (json_props record).
Proof.
  intros Hc Hp Hkp sp record Hkeeps Hb Hf Hlater Hnow stored reloaded.
  assert (Hcust : customerId reloaded = customerId w).
  { unfold reloaded, stored. cbn [customerId with_attributionData].
    apply store_customerId. }
  assert (Hnd : List.NoDup (map fst record)).
  { unfold record, attribution_record. simpl.
    apply distinct_NoDup. reflexivity. }
  assert (Hget : forall k,
            obj_get (json_props record) k = json_value (obj_get record k))
    by (intros k; now apply json_props_get).
  assert (Hle : toUTCString (Date_now h1 + attributionWindow cfg)
                <= Date_now h1 + attributionWindow cfg).
  { unfold toUTCString. apply Z.mul_div_le. lia. }
  assert (Hlive : is_live h2 (json_props record) = true).
  { unfold is_live, expiry_compares, js_gt. rewrite Hget. simpl.
    destruct (Z.ltb_spec (Date_now h2) (Date_now h1 + attributionWindow cfg));
      [reflexivity|].
    destruct (use_localStorage cfg h1); lia. }
  assert (Hread : durable_read cfg h2 reloaded
                    (storageKey cfg (customerId reloaded) p sp)
                  = Some (TJson (VObj (json_props record)))).
  { rewrite Hcust, <- JSON_stringify_props.
    exact (store_read_later h1 h2 p clickData w Hc Hp Hkp Hkeeps Hb Hnow). }
  assert (Hdead : cache_dead h2 reloaded (mapKey p sp)).
  { intros d Hd. unfold reloaded in Hd. simpl in Hd.
    rewrite lookup_empty in Hd. discriminate Hd. }
  destruct (getFor_load cfg h2 p sp reloaded (json_props record)
              Hdead Hf Hread Hlive) as (w' & E & A & _).
  exists w'. split; [exact E|]. split; [exact Hget|].
  rewrite A. apply lookup_insert_eq.
Qed.

End Reload.

(** ** The theorems at work on the shop page *)

(** C9 as the spec states it fails: with [localStorage] over quota the
    write is refused and logged, yet the call was no no-op: the product,
    unresolvable before, now resolves to the click's record. *)
Lemma record_failure_is_not_a_noop :
  let h := Scenario.page 0 QuotaExceeded in
  let clickData :=
    spread (click_event h Scenario.sponsored_click) [("isSponsored", VBool true)] in
  let w' :=
    snd (_storeAttributionData Scenario.config h (VStr "SKU1") clickData
           Scenario.session) in
  console_error w' = ["Failed to store attribution data:"]
  /\ localStorage w' = localStorage Scenario.session
  /\ fst (_getAttributionData Scenario.config h (VStr "SKU1") Scenario.session)
     = Ok None
  /\ fst (_getAttributionData Scenario.config h (VStr "SKU1") w')
     = Ok (Some (attribution_record Scenario.config h clickData)).
Proof. vm_compute. repeat split; reflexivity. Qed.

(** C7 as the spec states it fails: before the session exists, a click
    with a product and a widget stores nothing. *)
Lemma trackClick_without_session_stores_nothing :
  let h := Scenario.page 0 Healthy in
  let w' := snd (trackClick Scenario.config h Scenario.organic_click
                   Scenario.no_session) in
  truthy (obj_get Scenario.organic_click "refId")
  && (truthy (obj_get Scenario.organic_click "widgetId")
      || truthy (obj_get Scenario.organic_click "adSetId")) = true
  /\ attributionData w' = ∅
  /\ localStorage w' = ∅
  /\ cookie w' = ∅
  /\ trace w' = [].
Proof. vm_compute. repeat split; reflexivity. Qed.

(** C7 as the spec states it fails, a second way: an [adSetId] that is a
    number, not empty by any reading, makes the click organic. *)
Lemma numeric_adSetId_click_is_organic :
  let h := Scenario.page 0 Healthy in
  let eventData := [("refId", VStr "SKU1"); ("adSetId", VNum 42)] in
  let w' := snd (trackClick Scenario.config h eventData Scenario.session) in
  click_isSponsored h eventData = false
  /\ attributionData w' !! "SKU1_s" = None
  /\ attributionData w' !! "SKU1_o"
     = Some (click_record Scenario.config h eventData)
  /\ obj_get (click_record Scenario.config h eventData) "isSponsored"
     = VBool false.
Proof. vm_compute. repeat split; reflexivity. Qed.

Lemma trackClick_stores_commercial_clicks_witness :
  attributionData
    (snd (trackClick Scenario.config (Scenario.page 0 Healthy)
            Scenario.sponsored_click Scenario.session))
  = <[ "SKU1_s" := click_record Scenario.config (Scenario.page 0 Healthy)
                     Scenario.sponsored_click ]> ∅.
Proof.
  pose proof (trackClick_stores_commercial_clicks Scenario.config
                (Scenario.page 0 Healthy) Scenario.sponsored_click
                Scenario.session) as T.
  cbv zeta in T. destruct T as (_ & T & _).
  destruct T as (A & _); [reflexivity..|exact A].
Defined.

Lemma record_twice_keeps_second_only_witness :
  let h1 := Scenario.page 0 Healthy in
  let h2 := Scenario.page 10 Healthy in
  let first := spread (click_event h1 Scenario.organic_click)
                 [("isSponsored", VBool false)] in
  let second := spread (click_event h2 Scenario.organic_click)
                  [("isSponsored", VBool false)] in
  (truthy (customerId Scenario.session) = true
   /\ truthy (VStr "SKU1") = true
   /\ keys_print (customerId Scenario.session) (VStr "SKU1") = true
   /\ truthy (obj_get first "isSponsored") = truthy (obj_get second "isSponsored")
   /\ localStorage_defined h1 = localStorage_defined h2)
  /\ localStorage
       (snd (_storeAttributionData Scenario.config h2 (VStr "SKU1") second
               (snd (_storeAttributionData Scenario.config h1 (VStr "SKU1")
                       first Scenario.session))))
     = localStorage
         (snd (_storeAttributionData Scenario.config h2 (VStr "SKU1") second
                 Scenario.session)).
Proof.
  intros h1 h2 first second.
  split; [repeat split; reflexivity|].
  pose proof (record_twice_keeps_second_only Scenario.config h1 h2
                (VStr "SKU1") first second Scenario.session
                eq_refl eq_refl eq_refl eq_refl eq_refl) as T.
  cbv zeta in T. destruct T as (_ & _ & T & _).
  destruct T as (_ & L & _); [vm_compute; reflexivity|exact L].
Defined.

(** C6 as the spec states it fails: the first click of [SKU1] is written
    to [localStorage]; at the second click [localStorage] is over quota.
    The cache then holds the second click's record and [localStorage]
    still the first's. *)
Lemma failed_second_write_keeps_first_record :
  let h1 := Scenario.page 0 Healthy in
  let h2 := Scenario.page 10 QuotaExceeded in
  let first := spread (click_event h1 Scenario.organic_click)
                 [("isSponsored", VBool false)] in
  let second :=
    spread (click_event h2 [("refId", VStr "SKU1"); ("clickId", VStr "C9");
                            ("widgetId", VStr "W1")])
      [("isSponsored", VBool false)] in
  let record1 := attribution_record Scenario.config h1 first in
  let record2 := attribution_record Scenario.config h2 second in
  let w2 :=
    snd (_storeAttributionData Scenario.config h2 (VStr "SKU1") second
           (snd (_storeAttributionData Scenario.config h1 (VStr "SKU1") first
                   Scenario.session))) in
  obj_get record1 "clickId" = VStr "C0"
  /\ obj_get record2 "clickId" = VStr "C9"
  /\ attributionData w2 !! "SKU1_o" = Some record2
  /\ localStorage w2 !! "pa_attribution_CUST1_SKU1_o"
     = Some (JSON_stringify record1)
  /\ JSON_stringify record1 <> JSON_stringify record2.
Proof. vm_compute. repeat split; try reflexivity. discriminate. Qed.

(** C9 as the spec states it fails, a second way: a product reference
    that does not print makes the key templates throw; the error reaches
    the caller of [trackClick], and the click is not queued. *)
Lemma record_throws_on_unprintable_refId :
  let h := Scenario.page 0 Healthy in
  let refId := VObj [("toString", VNull)] in
  let eventData := [("refId", refId); ("widgetId", VStr "W1")] in
  let clickData := spread (click_event h eventData)
                     [("isSponsored", VBool false)] in
  _storeAttributionData Scenario.config h refId clickData Scenario.session
  = (Throw TypeError, Scenario.session)
  /\ trackClick Scenario.config h eventData Scenario.session
     = (Throw TypeError, Scenario.session)
  /\ pendingEvents Scenario.session = [].
Proof. vm_compute. repeat split; reflexivity. Qed.

(** C5 as the spec states it fails: a purchase product that arrives with
    an [adSetId] keeps it when it is enriched from an organic record. *)
Lemma organic_enrichment_keeps_caller_adSetId :
  let h := Scenario.page 0 Healthy in
  let w := snd (trackClick Scenario.config h Scenario.organic_click
                  Scenario.session) in
  let product := VObj [("refId", VStr "SKU1"); ("quantity", VNum 1);
                       ("price", VNum 20); ("adSetId", VStr "AS9")] in
  exists enriched record w',
    _prepareProductWithAttribution Scenario.config h product w
    = (Ok (enriched, Some record), w')
    /\ obj_get record "isSponsored" = VBool false
    /\ obj_has enriched "adSetId" = true
    /\ obj_get enriched "adSetId" = VStr "AS9".
Proof. vm_compute. eexists _, _, _. repeat split; reflexivity. Qed.

Lemma organic_enrichment_takes_no_sponsored_field_witness :
  let h := Scenario.page 0 Healthy in
  let w := snd (trackClick Scenario.config h Scenario.organic_click
                  Scenario.session) in
  let product := VObj [("refId", VStr "SKU1"); ("quantity", VNum 1);
                       ("price", VNum 20)] in
  let prepared := _prepareProductWithAttribution Scenario.config h product w in
  match fst prepared with
  | Ok (enriched, Some record) =>
      truthy (obj_get record "isSponsored") = false
      /\ obj_has enriched "supplierId" = false
  | _ => False
  end.
Proof.
  intros h w product prepared.
  destruct prepared as [[[enriched [record|]]|e] w'] eqn:E;
    try (exfalso; vm_compute in E; discriminate E).
  simpl.
  assert (Hflag : truthy (obj_get record "isSponsored") = false).
  { vm_compute in E. injection E as _ <- _. reflexivity. }
  split; [exact Hflag|].
  apply (organic_enrichment_takes_no_sponsored_field Scenario.config h product
           record w w' enriched E Hflag).
Defined.

Lemma addToCart_with_clickId_leaves_store_witness :
  let h := Scenario.page 5 Healthy in
  let w := snd (trackClick Scenario.config (Scenario.page 0 Healthy)
                  Scenario.sponsored_click Scenario.session) in
  let eventData :=
    [("product", VObj [("refId", VStr "SKU1"); ("quantity", VNum 1)]);
     ("clickId", VStr "manual-click"); ("widgetId", VStr "W7")] in
  truthy (obj_get eventData "clickId") = true
  /\ attributionData (snd (trackAddToCart Scenario.config h eventData w))
     = attributionData w
  /\ trace (snd (trackAddToCart Scenario.config h eventData w)) = trace w.
Proof.
  intros h w eventData. split; [reflexivity|].
  destruct (addToCart_with_clickId_leaves_store Scenario.config h eventData w
              eq_refl) as [(Ha & _ & _ & _ & Ht) _].
  split; [exact Ha|exact Ht].
Defined.

Lemma sponsored_record_wins_witness :
  let h := Scenario.page 5 Healthy in
  let sponsored :=
    click_record Scenario.config (Scenario.page 0 Healthy)
      Scenario.sponsored_click in
  fst (_getAttributionData Scenario.config h (VStr "SKU1")
         Scenario.both_clicked)
  = Ok (Some sponsored).
Proof.
  intros h sponsored.
  destruct (sponsored_record_wins Scenario.config h (VStr "SKU1") sponsored
              (click_record Scenario.config (Scenario.page 0 Healthy)
                 Scenario.organic_click)
              Scenario.both_clicked)
    as [(w' & E & _) _].
  - reflexivity.
  - reflexivity.
  - discriminate.
  - split; [reflexivity|left; reflexivity].
  - split; [reflexivity|left; reflexivity].
  - now rewrite E.
Defined.

Lemma expired_record_is_deleted_on_read_witness :
  let h := Scenario.page 2000 Healthy in
  let r := click_record Scenario.config (Scenario.page 0 Healthy)
             Scenario.sponsored_click in
  holds_expired Scenario.config h Scenario.sponsored_clicked (VStr "SKU1") true r
  /\ fst (_getAttributionDataFor Scenario.config h (VStr "SKU1") true
            Scenario.sponsored_clicked) = Ok None.
Proof.
  intros h r.
  assert (Hexp : expired h r) by (exists 1000; split; [reflexivity|vm_compute; discriminate]).
  assert (H : holds_expired Scenario.config h Scenario.sponsored_clicked
                (VStr "SKU1") true r).
  { split; [exact Hexp|]. split; [left; reflexivity|]. split.
    - intros d Hd. vm_compute in Hd. injection Hd as <-. exact Hexp.
    - intros t Ht. vm_compute in Ht. injection Ht as <-.
      eexists. split; [reflexivity|].
      exists 1000. split; [reflexivity|vm_compute; discriminate]. }
  split; [exact H|].
  pose proof (expired_record_is_deleted_on_read Scenario.config h
                (VStr "SKU1") true r Scenario.sponsored_clicked
                eq_refl eq_refl ltac:(discriminate)
                ltac:(vm_compute; discriminate) Hexp) as T.
  cbv zeta in T. destruct T as (_ & _ & _ & T & _).
  destruct (T H) as [(w' & E & _) _]. now rewrite E.
Defined.

(** C2 as the spec states it fails, a second way: the record of a click
    at instant 0 is in [localStorage]; at instant 1200, when it has
    expired, a second click finds [localStorage] over quota and leaves
    its record in the cache alone.  The read then returns the cached
    record and does not look at [localStorage]: the expired record is
    still there afterwards. *)
Lemma expired_record_behind_live_cache_stays :
  let h0 := Scenario.page 0 Healthy in
  let h := Scenario.page 1200 QuotaExceeded in
  let old := click_record Scenario.config h0 Scenario.organic_click in
  let new := click_record Scenario.config h Scenario.organic_click in
  let w :=
    snd (trackClick Scenario.config h Scenario.organic_click
           (snd (trackClick Scenario.config h0 Scenario.organic_click
                   Scenario.session))) in
  let read := _getAttributionDataFor Scenario.config h (VStr "SKU1") false w in
  obj_get old "expiresAt" = VNum 1000
  /\ localStorage w !! "pa_attribution_CUST1_SKU1_o" = Some (JSON_stringify old)
  /\ fst read = Ok (Some new)
  /\ localStorage (snd read) !! "pa_attribution_CUST1_SKU1_o"
     = Some (JSON_stringify old)
  /\ fst (_getAttributionData Scenario.config h (VStr "SKU1") (snd read))
     = Ok (Some new).
Proof. vm_compute. repeat split; reflexivity. Qed.

Lemma addToCart_without_click_throws_witness :
  let h := Scenario.page 0 Healthy in
  let eventData := [("product", VObj [("refId", VStr "SKU1"); ("quantity", VNum 1)])] in
  fst (trackAddToCart Scenario.config h eventData Scenario.session)
  = Throw MissingAttributionError.
Proof.
  intros h eventData.
  destruct (addToCart_without_click_throws Scenario.config h eventData
              Scenario.session) as (w' & E & _).
  - reflexivity.
  - discriminate.
  - discriminate.
  - split; intros d Hd; vm_compute in Hd; discriminate Hd.
  - split; intros d Hd; vm_compute in Hd; discriminate Hd.
  - now rewrite E.
Defined.

Lemma corrupt_entry_reads_as_not_found_witness :
  let h := Scenario.page 0 Healthy in
  fst (_getAttributionDataFor Scenario.config h (VStr "SKU1") true
         Scenario.corrupt_session) = Ok None.
Proof.
  intros h.
  destruct (corrupt_entry_reads_as_not_found Scenario.config h (VStr "SKU1")
              true Scenario.corrupt_session) as [H _].
  - reflexivity.
  - discriminate.
  - intros d Hd. vm_compute in Hd. discriminate Hd.
  - destruct (H TGarbage) as (w' & E & _).
    + reflexivity.
    + now left.
    + now rewrite E.
Defined.

(** C8 as the spec states it fails: the read of an entry that is not JSON
    returns nothing, and the entry is still there afterwards. *)
Lemma corrupt_entry_is_not_deleted :
  let h := Scenario.page 0 Healthy in
  let run := _getAttributionDataFor Scenario.config h (VStr "SKU1") true
               Scenario.corrupt_session in
  fst run = Ok None
  /\ localStorage (snd run) !! "pa_attribution_CUST1_SKU1_s" = Some TGarbage.
Proof. vm_compute. split; reflexivity. Qed.

(** The other entries that are no record: the empty string is passed
    over without a word, and a record whose [expiresAt] does not compare
    is logged; both stay in storage. *)
Lemma empty_and_uncomparable_entries_stay :
  let h := Scenario.page 0 Healthy in
  let odd := TJson (VObj [("expiresAt", VObj [("toString", VNull)])]) in
  let stored (t : text) :=
    mkWorld (VStr "CUST1") ∅ {[ "pa_attribution_CUST1_SKU1_s" := t ]} ∅
      [] [] [] in
  let run (t : text) :=
    _getAttributionDataFor Scenario.config h (VStr "SKU1") true (stored t) in
  (fst (run TEmpty) = Ok None
   /\ console_error (snd (run TEmpty)) = []
   /\ localStorage (snd (run TEmpty)) !! "pa_attribution_CUST1_SKU1_s"
      = Some TEmpty)
  /\ (fst (run odd) = Ok None
      /\ console_error (snd (run odd))
         = ["Failed to retrieve attribution data:"]
      /\ localStorage (snd (run odd)) !! "pa_attribution_CUST1_SKU1_s"
         = Some odd).
Proof. vm_compute. repeat split; reflexivity. Qed.


(** C2 as the spec states it fails: at instant 1200 the organic record of
    [SKU1] has expired and the sponsored one has not.  The resolution
    returns the sponsored record without a look at the organic channel:
    the expired record is still in the cache and in [localStorage]
    afterwards, and after a second resolution too. *)
Lemma expired_organic_behind_live_sponsored_stays :
  let h := Scenario.page 1200 Healthy in
  let organic := click_record Scenario.config (Scenario.page 0 Healthy)
                   Scenario.organic_click in
  let sponsored := click_record Scenario.config (Scenario.page 500 Healthy)
                     Scenario.sponsored_click in
  let first := _getAttributionData Scenario.config h (VStr "SKU1")
                 Scenario.clicked_apart in
  let second := _getAttributionData Scenario.config h (VStr "SKU1")
                  (snd first) in
  obj_get organic "expiresAt" = VNum 1000
  /\ fst first = Ok (Some sponsored)
  /\ attributionData (snd first) !! "SKU1_o" = Some organic
  /\ localStorage (snd first) !! "pa_attribution_CUST1_SKU1_o"
     = Some (JSON_stringify organic)
  /\ fst second = Ok (Some sponsored)
  /\ localStorage (snd second) !! "pa_attribution_CUST1_SKU1_o"
     = Some (JSON_stringify organic).
Proof. vm_compute. repeat split; reflexivity. Qed.

(** ** The other theorems at work on the shop page *)

Lemma flush_sends_every_event_once_witness :
  let w := Scenario.both_clicked in
  exists requests,
    _flushEvents (VStr "SESSION1") w = (Ok requests, with_pendingEvents [] w)
    /\ map fst requests = ["/3.0/events/clicks"].
Proof.
  intros w.
  destruct (flush_sends_every_event_once (VStr "SESSION1") w)
    as (requests & E & _).
  - reflexivity.
  - reflexivity.
  - vm_compute. repeat (apply List.Forall_cons; [simpl; tauto|]).
    apply List.Forall_nil.
  - exists requests. split; [exact E|].
    assert (R : fst (_flushEvents (VStr "SESSION1") w) = Ok requests)
      by now rewrite E.
    vm_compute in R. injection R as <-. reflexivity.
Defined.

Lemma flush_without_session_drops_events_witness :
  let w := Scenario.both_clicked in
  exists w',
    _flushEvents VUndefined w = (Ok [], w')
    /\ pendingEvents w' = []
    /\ In "Cannot send events without session" (console_error w').
Proof.
  intros w.
  destruct (flush_without_session_drops_events VUndefined w)
    as (w' & E & Hq & _ & Hin).
  - reflexivity.
  - vm_compute. repeat (apply List.Forall_cons; [simpl; tauto|]).
    apply List.Forall_nil.
  - vm_compute. discriminate.
  - now exists w'.
Defined.

Lemma addToCart_uses_stored_click_witness :
  let h := Scenario.page 5 Healthy in
  let eventData :=
    [("product", VObj [("refId", VStr "SKU1"); ("quantity", VNum 1)])] in
  let r := click_record Scenario.config (Scenario.page 0 Healthy)
             Scenario.sponsored_click in
  exists event w',
    trackAddToCart Scenario.config h eventData Scenario.both_clicked
    = (Ok event, w')
    /\ obj_get event "clickId" = VStr "C1"
    /\ resolves_from Scenario.config h w' (VStr "SKU1") true r.
Proof.
  intros h eventData r.
  destruct (addToCart_uses_stored_click Scenario.config h eventData true r
              Scenario.both_clicked)
    as (w' & E & _ & _ & Hc & Hr & _).
  - reflexivity.
  - split; discriminate.
  - reflexivity.
  - reflexivity.
  - discriminate.
  - split; [|discriminate]. split; [reflexivity|left; reflexivity].
  - reflexivity.
  - eexists. exists w'. split; [exact E|]. split; [|exact Hr].
    apply Hc. exact I.
Defined.

Lemma click_then_addToCart_witness :
  let h1 := Scenario.page 0 Healthy in
  let h2 := Scenario.page 5 Healthy in
  let cart :=
    [("product", VObj [("refId", VStr "SKU1"); ("quantity", VNum 1)])] in
  let w1 := snd (trackClick Scenario.config h1 Scenario.sponsored_click
                   Scenario.session) in
  exists event w2,
    trackAddToCart Scenario.config h2 cart w1 = (Ok event, w2)
    /\ obj_get event "clickId" = VStr "C1".
Proof.
  intros h1 h2 cart w1.
  destruct (click_then_addToCart Scenario.config h1 h2
              Scenario.sponsored_click cart "C1" Scenario.session)
    as (event & w2 & E & _ & _ & Hc & _).
  - reflexivity.
  - reflexivity.
  - reflexivity.
  - reflexivity.
  - reflexivity.
  - reflexivity.
  - discriminate.
  - reflexivity.
  - split; discriminate.
  - reflexivity.
  - vm_compute. reflexivity.
  - intros H. vm_compute in H. discriminate H.
  - exists event, w2. split; [exact E|exact Hc].
Defined.

Lemma manual_addToCart_sponsored_fields_witness :
  let h := Scenario.page 0 Healthy in
  let eventData :=
    [("product", VObj [("refId", VStr "SKU1"); ("quantity", VNum 1)]);
     ("clickId", VStr "manual-click"); ("adSetId", VStr "AS1")] in
  exists event w',
    trackAddToCart Scenario.config h eventData Scenario.session
    = (Ok event, w')
    /\ obj_has event "adSetId" = false.
Proof.
  intros h eventData.
  destruct (manual_addToCart_sponsored_fields Scenario.config h eventData
              Scenario.session "adSetId")
    as (event & w' & E & Hno & _).
  - reflexivity.
  - split; discriminate.
  - simpl; tauto.
  - exists event, w'. split; [exact E|]. apply Hno. reflexivity.
Defined.

Lemma checkout_keeps_attribution_witness :
  let h := Scenario.page 5 Healthy in
  let product := VObj [("refId", VStr "SKU1"); ("quantity", VNum 1);
                       ("price", VNum 20)] in
  let eventData := [("totalPrice", VNum 20); ("products", VArr [product])] in
  let r := click_record Scenario.config (Scenario.page 0 Healthy)
             Scenario.sponsored_click in
  exists event w',
    trackCheckout Scenario.config h eventData Scenario.both_clicked
    = (Ok event, w')
    /\ resolves_from Scenario.config h w' (VStr "SKU1") true r.
Proof.
  intros h product eventData r.
  destruct (checkout_keeps_attribution Scenario.config h eventData [product]
              product true r Scenario.both_clicked)
    as (event & w' & E & _ & _ & Hr & _).
  - discriminate.
  - reflexivity.
  - reflexivity.
  - repeat constructor; discriminate.
  - now left.
  - reflexivity.
  - split; [|discriminate]. split; [reflexivity|left; reflexivity].
  - exists event, w'. split; [exact E|exact Hr].
Defined.


Lemma second_read_is_served_from_cache_witness :
  let h := Scenario.page 5 Healthy in
  let reloaded := with_attributionData ∅ Scenario.sponsored_clicked in
  let r := json_props (click_record Scenario.config (Scenario.page 0 Healthy)
                         Scenario.sponsored_click) in
  exists w1,
    _getAttributionDataFor Scenario.config h (VStr "SKU1") true reloaded
    = (Ok (Some r), w1)
    /\ trace (snd (_getAttributionDataFor Scenario.config h (VStr "SKU1") true
                     w1))
       = (MapGet "SKU1_s" :: MapHas "SKU1_s" :: trace w1)%list.
Proof.
  intros h reloaded r.
  destruct (second_read_is_served_from_cache Scenario.config h (VStr "SKU1")
              true r reloaded)
    as (w1 & E & _ & E2).
  - intros d Hd. vm_compute in Hd. discriminate Hd.
  - discriminate.
  - vm_compute. reflexivity.
  - vm_compute. reflexivity.
  - exists w1. split; [exact E|]. rewrite E2. reflexivity.
Defined.


Lemma storageKey_separates_witness :
  storageKey Scenario.config (VStr "CUST1") (VStr "SKU1") true
  <> storageKey Scenario.config (VStr "CUST2") (VStr "SKU1") true.
Proof.
  intros H.
  destruct (storageKey_separates Scenario.config (VStr "CUST1") (VStr "CUST2")
              (VStr "SKU1") (VStr "SKU1") true true) as [[Hkey _] _].
  - reflexivity.
  - reflexivity.
  - destruct (Hkey H) as [Hc _]. discriminate Hc.
Defined.

Lemma click_with_numeric_adSetId_is_organic_witness :
  let h := Scenario.page 0 Healthy in
  let eventData := [("refId", VStr "SKU1"); ("adSetId", VNum 7)] in
  let w' := snd (trackClick Scenario.config h eventData Scenario.session) in
  attributionData w' !! "SKU1_o"
  = Some (click_record Scenario.config h eventData)
  /\ attributionData w' !! "SKU1_s" = None.
Proof.
  intros h eventData w'.
  destruct (click_with_numeric_adSetId_is_organic Scenario.config h eventData
              7 Scenario.session)
    as (_ & Ho & Hs & _).
  - reflexivity.
  - reflexivity.
  - reflexivity.
  - reflexivity.
  - discriminate.
  - split; [exact Ho|]. etransitivity; [exact Hs|]. reflexivity.
Defined.

Lemma getCookie_finds_the_cookie_witness :
  DocumentCookie._getCookie
    (cookie_string [("xpa_customer_id", "other"); ("pa_customer_id", "CUST1");
                    ("theme", "dark=1")])
    "pa_customer_id"
  = Some "CUST1".
Proof.
  rewrite (getCookie_finds_the_cookie
             [("xpa_customer_id", "other"); ("pa_customer_id", "CUST1");
              ("theme", "dark=1")] "pa_customer_id").
  - reflexivity.
  - reflexivity.
  - reflexivity.
Defined.

Lemma detectProductId_answers_witness :
  let page :=
    mkPage None [Ok None; Ok (Some [VStr "/product/42"; VStr "42"])]
      [Ok VNull; Ok (VObj [("content", VStr "SKU1")])] [] in
  exists id w',
    _detectProductId page Scenario.session = (Ok id, w')
    /\ null_or_truthy id.
Proof.
  intros page.
  destruct (detectProductId_answers page Scenario.session) as [H _].
  - split; repeat (apply List.Forall_cons; [eexists; reflexivity|]);
      apply List.Forall_nil.
  - exact H.
Defined.

Lemma detected_product_is_viewed_witness :
  let h := Scenario.page 0 Healthy in
  let page :=
    mkPage None [Ok None]
      [Ok VNull; Ok (VObj [("content", VStr "SKU1")])] [] in
  exists w',
    _detectAndTrackProductView h page Scenario.session = (Ok tt, w')
    /\ pendingEvents w'
       = [("view-products",
           _cleanObject (viewProduct_event h [("refId", VStr "SKU1")]))].
Proof.
  intros h page.
  destruct (detected_product_is_viewed h page Scenario.session)
    as (id & w1 & w' & Ed & E & Hq & _).
  - split; repeat (apply List.Forall_cons; [eexists; reflexivity|]);
      apply List.Forall_nil.
  - exists w'. split; [exact E|].
    assert (R : fst (_detectProductId page Scenario.session) = Ok id)
      by now rewrite Ed.
    vm_compute in R. injection R as <-. exact Hq.
Defined.

Lemma recommendations_queue_their_impressions_witness :
  let h := Scenario.page 0 Healthy in
  let slot := VObj [("products", VArr [VObj [("refId", VStr "SKU1")];
                                       VObj [("refId", VStr "SKU2")]]);
                    ("adSetId", VStr "AS1")] in
  let response :=
    VObj [("recommendations",
           VObj [("route",
                  VObj [("id", VStr "R1");
                        ("widgets",
                         VArr [VObj [("id", VStr "W1");
                                     ("slots", VArr [slot])]])])])] in
  exists w',
    _trackRecommendationImpressions h response Scenario.session = (Ok tt, w')
    /\ List.length (pendingEvents w') = 2%nat.
Proof.
  intros h slot response.
  destruct (recommendations_queue_their_impressions h response
              Scenario.session) as [E _].
  - split; [split; discriminate|]. right. eexists. split; [reflexivity|].
    apply List.Forall_cons; [|apply List.Forall_nil].
    split; [split; discriminate|]. right. right.
    eexists. split; [reflexivity|].
    apply List.Forall_cons; [|apply List.Forall_nil].
    split; [split; discriminate|]. right. right.
    eexists. split; [reflexivity|].
    repeat (apply List.Forall_cons; [split; discriminate|]).
    apply List.Forall_nil.
  - eexists. split; [exact E|]. reflexivity.
Defined.

Lemma attribute_key_is_camelCase_witness :
  attribute_key "data-pa-retail-boost-id" = "retailBoostId".
Proof.
  destruct (attribute_key_is_camelCase "retail" ["boost"; "id"]) as [_ H].
  - reflexivity.
  - reflexivity.
  - exact H.
Defined.

Lemma extractTrackingData_reads_attributes_witness :
  let parse := fun raw : string =>
                 if String.eqb raw "42" then Some (VNum 42)
                 else if String.eqb raw "{}" then Some (VObj [])
                 else None in
  _extractTrackingData parse [("class", "card"); ("data-pa-__proto__", "{}")]
  = None
  /\ exists data,
       _extractTrackingData parse
         [("data-pa-ref-id", "SKU1"); ("data-pa-slot", "42")] = Some data
       /\ obj_get (own_properties data) "slot" = VNum 42.
Proof.
  intros parse. split.
  - apply (extractTrackingData_reads_attributes parse
             [("class", "card"); ("data-pa-__proto__", "{}")]).
    + repeat constructor; simpl; rewrite ?elem_of_cons, ?elem_of_nil;
        intros H; repeat destruct H as [H|H]; discriminate || exact H.
    + reflexivity.
  - destruct (extractTrackingData_reads_attributes parse
                [("data-pa-ref-id", "SKU1"); ("data-pa-slot", "42")])
      as (_ & _ & H).
    destruct (H [("data-pa-ref-id", "SKU1")] "data-pa-slot" "42" [])
      as (data & E & V).
    + reflexivity.
    + reflexivity.
    + discriminate.
    + constructor.
    + exists data. split; [exact E|exact V].
Defined.

Lemma stored_record_survives_reload_witness :
  let h1 := Scenario.page 0 Healthy in
  let h2 := Scenario.page 5 Healthy in
  let clickData := [("clickId", VStr "C1"); ("adSetId", VStr "AS1");
                    ("isSponsored", VBool true)] in
  let record := attribution_record Scenario.cookie_config h1 clickData in
  let stored := snd (_storeAttributionData Scenario.cookie_config h1
                       (VStr "SKU1") clickData Scenario.session) in
  exists w',
    _getAttributionDataFor Scenario.cookie_config h2 (VStr "SKU1") true
      (with_attributionData ∅ stored)
    = (Ok (Some (json_props record)), w')
    /\ obj_get (json_props record) "clickId" = VStr "C1".
Proof.
  intros h1 h2 clickData record stored.
  destruct (stored_record_survives_reload Scenario.cookie_config h1 h2
              (VStr "SKU1") clickData Scenario.session)
    as (w' & E & Hget & _).
  - reflexivity.
  - reflexivity.
  - reflexivity.
  - vm_compute. reflexivity.
  - reflexivity.
  - discriminate.
  - vm_compute. discriminate.
  - vm_compute. reflexivity.
  - exists w'. split; [exact E|]. rewrite Hget. reflexivity.
Defined.
